(** * Realm events and barriers: a shallow embedding of [event_impl.cc]

    The development follows [src/runtime/realm/event_impl.cc]: generational
    events ([GenEventImpl]), the lock-free [EventMerger], [merge_events], and
    phase barriers ([BarrierImpl]) with their message handlers.

    Conventions of the embedding.
    - Every method that runs under the object's mutex is one atomic state
      transformer; the calls it makes after releasing the mutex (messages,
      waiter callbacks, free-list returns) are returned as a list of
      [Action]s in program order.
    - An [assert] that fails aborts the process: the method returns [None].
    - [std::map] is an association list kept in increasing key order, so
      that [begin()] is the head of the list.
    - [Event::gen_t] is a 32-bit [unsigned] and [int] is 32 bits wide; the
      wrap-around of both is written out. *)

From Stdlib Require Import ZArith List Bool Lia Sorted.
From Stdlib Require Ascii.
Import ListNotations.
Open Scope Z_scope.

(** ** Machine integers *)

(** [unsigned] arithmetic, used for [Event::gen_t] and arrival counts. *)
Definition u32 (z : Z) : Z := z mod 2 ^ 32.

(** [int] arithmetic (two's complement wrap-around). *)
Definition i32 (z : Z) : Z := (z + 2 ^ 31) mod 2 ^ 32 - 2 ^ 31.

(** ** Ordered maps ([std::map] with integer keys) *)

Module OMap.

Section Defs.
Context {V : Type}.

Definition t := list (Z * V).

(** [m.find(k)], [None] standing for [m.end()]. *)
Fixpoint find (k : Z) (m : t) : option V :=
  match m with
  | [] => None
  | (k', v) :: rest => if k' =? k then Some v else find k rest
  end.

(** [m[k] = v]. *)
Fixpoint insert (k : Z) (v : V) (m : t) : t :=
  match m with
  | [] => [(k, v)]
  | (k', v') :: rest =>
      if k <? k' then (k, v) :: m
      else if k =? k' then (k, v) :: rest
      else (k', v') :: insert k v rest
  end.

(** [m.erase(it)] for the iterator [it] that [find k] returned. *)
Fixpoint erase (k : Z) (m : t) : t :=
  match m with
  | [] => []
  | (k', v) :: rest => if k' =? k then rest else (k', v) :: erase k rest
  end.

Definition empty (m : t) : bool :=
  match m with [] => true | _ :: _ => false end.

(** The representation invariant of [std::map]: strictly increasing keys. *)
Fixpoint sorted (m : t) : bool :=
  match m with
  | [] => true
  | (k, _) :: rest => forallb (fun e => k <? fst e) rest && sorted rest
  end.

End Defs.

Arguments t : clear implicits.

End OMap.

(** ** Handles, waiters and the calls a method makes *)

(** [Event]: an identifier and a generation. *)
Record Event := mkEvent { id : Z; gen : Z }.

(** [Event::NO_EVENT = { 0, 0 }]. *)
Definition NO_EVENT : Event := {| id := 0; gen := 0 |}.

(** [Barrier]: an [Event] with a timestamp. *)
Record Barrier := mkBarrier { barrier_event : Event; timestamp : Z }.

(** An [EventWaiter *], identified by its address. *)
Definition Waiter := Z.

(** What a method does besides updating its own object, in program order:
    waiter callbacks, active messages, and calls into the parts of the
    runtime that are not in this file. *)
Inductive Action :=
| EventTriggered (w : Waiter) (e : Event) (poisoned : bool)
    (* w->event_triggered(e, poisoned) *)
| EventTriggerMessage (target : Z) (e : Event) (poisoned : bool)
| EventSubscribeMessage (target : Z) (e : Event) (previous_subscribe_gen : Z)
| EventUpdateMessage (targets : list Z) (e : Event) (poisoned_gens : list Z)
| FreeEntry (impl_id : Z)
    (* local_event_free_list->free_entry(this) *)
| Trigger (e : Event) (poisoned : bool)
    (* GenEventImpl::trigger(e, poisoned) *)
| AddWaiter (e : Event) (w : Waiter)
    (* EventImpl::add_waiter(e, w) *)
| AddDeferredBarrierArrival (wait_on : Event) (b : Barrier) (delta : Z)
                            (data : option Z)
    (* EventImpl::add_waiter(wait_on, new DeferredBarrierArrival(...)) *)
| BarrierAdjustMessage (target : Z) (b : Barrier) (delta : Z) (wait_on : Event)
                       (data : option Z)
| BarrierSubscribeMessage (target : Z) (barrier_id : Z) (subscribe_gen : Z)
| BarrierTriggerMessage (target : Z) (barrier_id : Z) (trigger_gen : Z)
                        (previous_gen : Z) (first_generation : Z)
                        (redop_id : Z) (data : list Z).

(** [assert(c); k] *)
Notation "'assert' c 'in' k" := (if c then k else None)
  (at level 10, c at level 9, k at level 200, only parsing).

(** The waiter loop that closes every trigger path. *)
Definition notify_all (to_wake : list Waiter) (e : Event) (poisoned : bool)
  : list Action :=
  map (fun w => EventTriggered w e poisoned) to_wake.

(** [a[i] = v] on an array. *)
Fixpoint array_set (i : nat) (v : Z) (a : list Z) : list Z :=
  match a, i with
  | [], _ => []
  | _ :: rest, O => v :: rest
  | x :: rest, S i' => x :: array_set i' v rest
  end.

(** The waiter callbacks among the calls of a method, in order. *)
Definition woken (acts : list Action) : list (Waiter * Event * bool) :=
  flat_map (fun a => match a with
                     | EventTriggered w e p => [(w, e, p)]
                     | _ => []
                     end) acts.

(** Whether the object [i] went back to the free list. *)
Definition freed (i : Z) (acts : list Action) : bool :=
  existsb (fun a => match a with FreeEntry j => j =? i | _ => false end) acts.

(** The calls of [GenEventImpl::trigger(e, poisoned)] among the calls of a
    method, and the waiters registered with [EventImpl::add_waiter]. *)
Definition triggered_events (acts : list Action) : list (Event * bool) :=
  flat_map (fun a => match a with
                     | Trigger e p => [(e, p)]
                     | _ => []
                     end) acts.

Definition registered (acts : list Action) : list (Event * Waiter) :=
  flat_map (fun a => match a with
                     | AddWaiter e w => [(e, w)]
                     | _ => []
                     end) acts.

(** ** class GenEventImpl *)

Module GenEventImpl.

(** The object.  [poisoned_generations] is the array behind the pointer
    ([[]] for the null pointer, else [POISONED_GENERATION_LIMIT] cells of
    which the first [num_poisoned_generations] are meaningful);
    [remote_waiters] is the [NodeSet]. *)
Record impl := mk {
  me : Z;
  owner : Z;
  generation : Z;
  gen_subscribed : Z;
  num_poisoned_generations : Z;
  poisoned_generations : list Z;
  has_local_triggers : bool;
  local_triggers : OMap.t bool;
  current_local_waiters : list Waiter;
  future_local_waiters : OMap.t (list Waiter);
  remote_waiters : list Z
}.

(** [GenEventImpl::init(_me, _init_owner)] *)
Definition init (_me _init_owner : Z) : impl :=
  {| me := _me; owner := _init_owner; generation := 0; gen_subscribed := 0;
     num_poisoned_generations := 0; poisoned_generations := [];
     has_local_triggers := false; local_triggers := [];
     current_local_waiters := []; future_local_waiters := [];
     remote_waiters := [] |}.

Definition make_event (s : impl) (g : Z) : Event := {| id := me s; gen := g |}.

(** The generations recorded as poisoned: the meaningful prefix of the array. *)
Definition poisoned_list (s : impl) : list Z :=
  firstn (Z.to_nat (num_poisoned_generations s)) (poisoned_generations s).

(** [GenEventImpl::is_generation_poisoned] *)
Definition is_generation_poisoned (s : impl) (g : Z) : bool :=
  if num_poisoned_generations s =? 0 then false
  else existsb (fun x => x =? g) (poisoned_list s).

(** [GenEventImpl::has_triggered(needed_gen, poisoned)]: the returned pair is
    the result and the value left in [poisoned]. *)
Definition has_triggered (s : impl) (needed_gen : Z) : bool * bool :=
  if needed_gen <=? generation s then
    (true, is_generation_poisoned s needed_gen)
  else if negb (has_local_triggers s) then
    (false, false)
  else
    match OMap.find needed_gen (local_triggers s) with
    | Some p => (true, p)
    | None => (false, false)
    end.

Section OnNode.

(** [gasnet_mynode()] *)
Variable mynode : Z.

(** [POISONED_GENERATION_LIMIT], declared in [event_impl.h]. *)
Variable POISONED_GENERATION_LIMIT : Z.

(** [GenEventImpl::add_waiter(needed_gen, waiter)] *)
Definition add_waiter (s : impl) (needed_gen : Z) (waiter : Waiter)
  : option (impl * list Action) :=
  if needed_gen <=? generation s then
    (* 1) triggered, poison is in the poisoned generation list *)
    Some (s, [EventTriggered waiter (make_event s needed_gen)
                             (is_generation_poisoned s needed_gen)])
  else
    match OMap.find needed_gen (local_triggers s) with
    | Some p =>
        (* 2) locally triggered on a non-owner *)
        assert (negb (owner s =? mynode)) in
        Some (s, [EventTriggered waiter (make_event s needed_gen) p])
    | None =>
        (* 3) record the waiter and subscribe if needed *)
        let enqueued :=
          if needed_gen =? u32 (generation s + 1) then
            Some (current_local_waiters s ++ [waiter], future_local_waiters s)
          else
            assert (negb (owner s =? mynode)) in
            let old := match OMap.find needed_gen (future_local_waiters s) with
                       | Some ws => ws
                       | None => []
                       end in
            Some (current_local_waiters s,
                  OMap.insert needed_gen (old ++ [waiter])
                              (future_local_waiters s))
        in
        match enqueued with
        | None => None
        | Some (cur, fut) =>
            let subscribe :=
              negb (owner s =? mynode) && (gen_subscribed s <? needed_gen) in
            let previous_subscribe_gen := gen_subscribed s in
            Some ({| me := me s; owner := owner s; generation := generation s;
                     gen_subscribed :=
                       if subscribe then needed_gen else gen_subscribed s;
                     num_poisoned_generations := num_poisoned_generations s;
                     poisoned_generations := poisoned_generations s;
                     has_local_triggers := has_local_triggers s;
                     local_triggers := local_triggers s;
                     current_local_waiters := cur;
                     future_local_waiters := fut;
                     remote_waiters := remote_waiters s |},
                  if subscribe then
                    [EventSubscribeMessage (owner s) (make_event s needed_gen)
                                           previous_subscribe_gen]
                  else [])
        end
    end.

(** The owner's half of [GenEventImpl::trigger]. *)
Definition trigger_owner (s : impl) (gen_triggered : Z) (poisoned : bool)
  : option (impl * list Action) :=
  (* must always be the next generation *)
  assert (gen_triggered =? u32 (generation s + 1)) in
  let to_wake := current_local_waiters s in
  (* no future waiters here *)
  assert (OMap.empty (future_local_waiters s)) in
  let to_update := remote_waiters s in
  (* update poisoned generation list *)
  assert (negb poisoned
          || (num_poisoned_generations s <? POISONED_GENERATION_LIMIT)) in
  let arr0 :=
    match poisoned_generations s with
    | [] => repeat 0 (Z.to_nat POISONED_GENERATION_LIMIT)
    | a => a
    end in
  let arr :=
    if poisoned
    then array_set (Z.to_nat (num_poisoned_generations s)) gen_triggered arr0
    else poisoned_generations s in
  let num :=
    if poisoned then num_poisoned_generations s + 1
    else num_poisoned_generations s in
  (* we'll free the event unless it's maxed out on poisoned generations *)
  let free_event := num <? POISONED_GENERATION_LIMIT in
  let s' := {| me := me s; owner := owner s; generation := gen_triggered;
               gen_subscribed := gen_subscribed s;
               num_poisoned_generations := num;
               poisoned_generations := arr;
               has_local_triggers := has_local_triggers s;
               local_triggers := local_triggers s;
               current_local_waiters := [];
               future_local_waiters := future_local_waiters s;
               remote_waiters := [] |} in
  Some (s',
        (match to_update with
         | [] => []
         | _ => [EventUpdateMessage to_update (make_event s gen_triggered)
                                    (poisoned_list s')]
         end)
        ++ (if free_event then [FreeEntry (me s)] else [])
        ++ notify_all to_wake (make_event s gen_triggered) poisoned).

(** The other half: triggering somebody else's event. *)
Definition trigger_remote (s : impl) (gen_triggered : Z) (trigger_node : Z)
                          (poisoned : bool)
  : option (impl * list Action) :=
  assert (trigger_node =? mynode) in
  let tell_owner :=
    EventTriggerMessage (owner s) (make_event s gen_triggered) poisoned in
  if gen_triggered =? u32 (generation s + 1) then
    (* the "next" version: complete information *)
    let to_wake := current_local_waiters s in
    let '(cur, fut) :=
      match future_local_waiters s with
      | [] => ([], [])
      | (first, ws) :: rest =>
          if first =? u32 (generation s + 1) then (ws, rest)
          else ([], future_local_waiters s)
      end in
    Some ({| me := me s; owner := owner s; generation := gen_triggered;
             gen_subscribed := gen_subscribed s;
             num_poisoned_generations := num_poisoned_generations s;
             poisoned_generations := poisoned_generations s;
             has_local_triggers :=
               if poisoned then true else has_local_triggers s;
             local_triggers :=
               if poisoned then OMap.insert gen_triggered true (local_triggers s)
               else local_triggers s;
             current_local_waiters := cur;
             future_local_waiters := fut;
             remote_waiters := remote_waiters s |},
          tell_owner
          :: notify_all to_wake (make_event s gen_triggered) poisoned)
  else
    (* should be in the future, not the past *)
    assert (gen_triggered >? u32 (generation s + 1)) in
    let '(to_wake, fut) :=
      match OMap.find gen_triggered (future_local_waiters s) with
      | Some ws => (ws, OMap.erase gen_triggered (future_local_waiters s))
      | None => ([], future_local_waiters s)
      end in
    let previous_subscribe_gen := gen_subscribed s in
    Some ({| me := me s; owner := owner s; generation := generation s;
             gen_subscribed := gen_triggered;
             num_poisoned_generations := num_poisoned_generations s;
             poisoned_generations := poisoned_generations s;
             has_local_triggers := true;
             local_triggers :=
               OMap.insert gen_triggered poisoned (local_triggers s);
             current_local_waiters := current_local_waiters s;
             future_local_waiters := fut;
             remote_waiters := remote_waiters s |},
          tell_owner
          :: EventSubscribeMessage (owner s) (make_event s gen_triggered)
                                   previous_subscribe_gen
          :: notify_all to_wake (make_event s gen_triggered) poisoned).

(** [GenEventImpl::trigger(gen_triggered, trigger_node, poisoned)] *)
Definition trigger (s : impl) (gen_triggered : Z) (trigger_node : Z)
                   (poisoned : bool)
  : option (impl * list Action) :=
  if mynode =? owner s then trigger_owner s gen_triggered poisoned
  else trigger_remote s gen_triggered trigger_node poisoned.

(** The loop of [process_update] over [future_local_waiters]: every list up
    to and including [current_gen] moves into [to_wake]. *)
Fixpoint take_future (current_gen : Z) (fut to_wake : OMap.t (list Waiter))
  : OMap.t (list Waiter) * OMap.t (list Waiter) :=
  match fut with
  | [] => (to_wake, [])
  | (first, ws) :: rest =>
      if first <=? current_gen
      then take_future current_gen rest (OMap.insert first ws to_wake)
      else (to_wake, fut)
  end.

(** The loop of [process_update] over [local_triggers]: entries that the
    update acknowledges are checked against the poison list and dropped. *)
Fixpoint ack_local_triggers (s : impl) (current_gen : Z) (lt : OMap.t bool)
  : option (OMap.t bool) :=
  match lt with
  | [] => Some []
  | (first, p) :: rest =>
      if first <=? current_gen then
        assert (Bool.eqb p (is_generation_poisoned s first)) in
        ack_local_triggers s current_gen rest
      else Some lt
  end.

(** [GenEventImpl::process_update(current_gen, new_poisoned_generations,
    new_poisoned_count)], the count being the length of the list. *)
Definition process_update (s : impl) (current_gen : Z)
                          (new_poisoned_generations : list Z)
  : option (impl * list Action) :=
  let new_poisoned_count := Z.of_nat (length new_poisoned_generations) in
  let num := num_poisoned_generations s in
  (* this event had better not belong to us *)
  assert (negb (owner s =? mynode)) in
  (* should be an incremental update *)
  assert (if 0 <? new_poisoned_count then
            (num <=? new_poisoned_count)
            && (if 0 <? num then
                  if list_eq_dec Z.eq_dec
                       (firstn (length new_poisoned_generations)
                               (poisoned_generations s))
                       new_poisoned_generations
                  then true else false
                else true)
          else num =? 0) in
  (* this might be old news *)
  if current_gen <=? generation s then Some (s, []) else
  (* first thing - update the poisoned generation list *)
  assert (negb ((0 <? new_poisoned_count) && (num <? new_poisoned_count))
          || (new_poisoned_count <=? POISONED_GENERATION_LIMIT)) in
  let arr0 :=
    if 0 <? new_poisoned_count then
      match poisoned_generations s with
      | [] => repeat 0 (Z.to_nat POISONED_GENERATION_LIMIT)
      | a => a
      end
    else poisoned_generations s in
  let copy := (0 <? new_poisoned_count) && (num <? new_poisoned_count) in
  let arr :=
    if copy
    then new_poisoned_generations
         ++ skipn (length new_poisoned_generations) arr0
    else arr0 in
  let num' := if copy then new_poisoned_count else num in
  (* grab any/all waiters - start with current generation *)
  let to_wake0 : OMap.t (list Waiter) :=
    match current_local_waiters s with
    | [] => []
    | ws => [(u32 (generation s + 1), ws)]
    end in
  (* now any future waiters up to and including the triggered gen,
     and a future list that is now current *)
  let '(to_wake, cur, fut) :=
    match future_local_waiters s with
    | [] => (to_wake0, [], [])
    | _ =>
        let '(tw, f) := take_future current_gen (future_local_waiters s)
                                    to_wake0 in
        match f with
        | (first, ws) :: rest =>
            if first =? u32 (current_gen + 1) then (tw, ws, rest)
            else (tw, [], f)
        | [] => (tw, [], [])
        end
    end in
  let s1 := {| me := me s; owner := owner s; generation := generation s;
               gen_subscribed := gen_subscribed s;
               num_poisoned_generations := num';
               poisoned_generations := arr;
               has_local_triggers := has_local_triggers s;
               local_triggers := local_triggers s;
               current_local_waiters := cur;
               future_local_waiters := fut;
               remote_waiters := remote_waiters s |} in
  (* next, clear out any local triggers that have been ack'd *)
  match (if has_local_triggers s
         then ack_local_triggers s1 current_gen (local_triggers s)
         else Some (local_triggers s)) with
  | None => None
  | Some lt =>
      let s' := {| me := me s; owner := owner s; generation := current_gen;
                   gen_subscribed := gen_subscribed s;
                   num_poisoned_generations := num';
                   poisoned_generations := arr;
                   has_local_triggers :=
                     if has_local_triggers s then negb (OMap.empty lt)
                     else false;
                   local_triggers := lt;
                   current_local_waiters := cur;
                   future_local_waiters := fut;
                   remote_waiters := remote_waiters s |} in
      (* now trigger anybody that needs to be triggered *)
      Some (s',
            flat_map (fun gw : Z * list Waiter =>
                        notify_all (snd gw) (make_event s (fst gw))
                                   (is_generation_poisoned s' (fst gw)))
                     to_wake)
  end.

End OnNode.

(** *** The subscription handshake on the owner *)

(** Modelled from the spec: [NodeSet] is declared elsewhere; [remote_waiters]
    is the set of nodes to update on the next trigger, and [add] puts a node
    into the set once. *)
Definition NodeSet_add (n : Z) (ns : list Z) : list Z :=
  if existsb (fun x => x =? n) ns then ns else ns ++ [n].

(** [EventSubscribeMessage::handle_request(args)] on the event [s] that
    [args.event] names, with [args.node], [args.event] and
    [args.previous_subscribe_gen]. *)
Definition EventSubscribeMessage_handle_request
    (s : impl) (node : Z) (event : Event) (previous_subscribe_gen : Z)
  : option (impl * list Action) :=
  (* early-out case: the generation needed has already triggered *)
  let stale_gen := generation s in
  let locked :=
    if stale_gen >=? gen event then Some (stale_gen, s)
    else
      (* send a trigger message if anything newer has triggered *)
      let trigger_gen :=
        if generation s >? previous_subscribe_gen then generation s else 0 in
      (* are they subscribing to the current generation? *)
      if gen event =? u32 (generation s + 1) then
        Some (trigger_gen,
              {| me := me s; owner := owner s; generation := generation s;
                 gen_subscribed := gen_subscribed s;
                 num_poisoned_generations := num_poisoned_generations s;
                 poisoned_generations := poisoned_generations s;
                 has_local_triggers := has_local_triggers s;
                 local_triggers := local_triggers s;
                 current_local_waiters := current_local_waiters s;
                 future_local_waiters := future_local_waiters s;
                 remote_waiters := NodeSet_add node (remote_waiters s) |})
      else
        (* should never get subscriptions newer than our current *)
        assert (gen event <=? generation s) in Some (trigger_gen, s)
  in
  match locked with
  | None => None
  | Some (trigger_gen, s') =>
      Some (s',
            if trigger_gen >? 0
            then [EventUpdateMessage [node]
                    {| id := id event; gen := trigger_gen |}
                    (poisoned_list s')]
            else [])
  end.

(** The first check of [process_update]: the update's poisoned generations
    must continue the local ones.  The comparison runs over
    [new_poisoned_count] cells of the local array, whatever the number of
    local entries. *)
Definition poison_continues (s : impl) (new_poisoned : list Z) : bool :=
  let count := Z.of_nat (length new_poisoned) in
  let num := num_poisoned_generations s in
  if 0 <? count then
    (num <=? count)
    && (if 0 <? num then
          if list_eq_dec Z.eq_dec
               (firstn (length new_poisoned) (poisoned_generations s))
               new_poisoned
          then true else false
        else true)
  else num =? 0.

(** What [process_update] checks of an update to a later generation before
    it touches the object: the poisoned generations continue the local
    ones, and a longer list fits the array. *)
Definition update_accepted (limit : Z) (s : impl) (new_poisoned : list Z)
  : bool :=
  let count := Z.of_nat (length new_poisoned) in
  let num := num_poisoned_generations s in
  poison_continues s new_poisoned
  && (negb ((0 <? count) && (num <? count)) || (count <=? limit)).

(** The poisoned generations after an accepted update: the update's list
    when it is longer than the local one. *)
Definition updated_poison (s : impl) (new_poisoned : list Z) : list Z :=
  if num_poisoned_generations s <? Z.of_nat (length new_poisoned)
  then new_poisoned else poisoned_list s.

(** The last check of [process_update]: every local trigger up to
    [current_gen] carries the poison bit that the updated list gives its
    generation. *)
Definition triggers_acknowledged (s : impl) (current_gen : Z)
                                 (new_poisoned : list Z) : bool :=
  negb (has_local_triggers s)
  || forallb (fun e : Z * bool =>
                negb (fst e <=? current_gen)
                || Bool.eqb (snd e)
                            (existsb (fun x => x =? fst e)
                                     (updated_poison s new_poisoned)))
             (local_triggers s).

(** The waiters queued for the generations of a waiter map, each with the
    generation it waits for. *)
Definition queued_in (fut : OMap.t (list Waiter)) : list (Waiter * Z) :=
  flat_map (fun gw => map (fun w => (w, fst gw)) (snd gw)) fut.

(** *** The shape of the poison array *)

(** The poison array is either unallocated with nothing recorded, or has
    [limit] cells of which at most [limit] are used. *)
Definition poison_wf (limit : Z) (s : impl) : Prop :=
  0 <= num_poisoned_generations s <= limit /\
  ((poisoned_generations s = [] /\ num_poisoned_generations s = 0)
   \/ Z.of_nat (length (poisoned_generations s)) = limit).

(** *** The class invariant of an event on its owner *)

(** On the owner the poison array is well formed and lists, in increasing
    order, only generations that have triggered; there are no waiters for
    generations beyond the next one and no local triggers. *)
Definition owner_ok (limit : Z) (s : impl) : Prop :=
  poison_wf limit s
  /\ 0 <= generation s
  /\ future_local_waiters s = []
  /\ local_triggers s = []
  /\ has_local_triggers s = false
  /\ StronglySorted Z.lt (poisoned_list s)
  /\ Forall (fun x => 0 < x <= generation s) (poisoned_list s).

End GenEventImpl.

(** ** class BarrierImpl *)

(** [static const bool POISON_FIXME = false]: used in places that don't
    currently propagate poison but should. *)
Definition POISON_FIXME : bool := false.

(** [a[i]] and a slice [a[from .. from + count)] of an array of reduction
    values.  One list element stands for one [sizeof_lhs]-sized value. *)
Definition array_get (i : nat) (a : list Z) : Z := nth i a 0.

Definition array_slice (from count : nat) (a : list Z) : list Z :=
  firstn count (skipn from a).

(** [bytedup(final_values + from * sizeof_lhs, count * sizeof_lhs)] on an
    array of [capacity] values: [Some None] for the null pointer that a
    length of 0 gives, [Some (Some copy)] for a copy.  A negative [count]
    is a size that [malloc] cannot serve, which fails the assertion of
    [bytedup]; a [memcpy] that reads behind the end of the array (or from
    the null array of capacity 0) has no defined outcome: both are
    [None]. *)
Definition bytedup_values (from count capacity : Z) (a : list Z)
  : option (option (list Z)) :=
  if count =? 0 then Some None
  else if (0 <? count) && (0 <=? from) && (from + count <=? capacity)
          && (capacity <=? Z.of_nat (length a))
       then Some (Some (array_slice (Z.to_nat from) (Z.to_nat count) a))
       else None.

Module BarrierImpl.

(** [Generation::PerNodeUpdates] *)
Record PerNodeUpdates := mkPerNode {
  last_ts : Z;
  pending : OMap.t Z
}.

(** [BarrierImpl::Generation] *)
Record Generation := mkGeneration {
  unguarded_delta : Z;
  local_waiters : list Waiter;
  pernode : OMap.t PerNodeUpdates
}.

(** [Generation::Generation(void) : unguarded_delta(0)] *)
Definition new_Generation : Generation :=
  {| unguarded_delta := 0; local_waiters := []; pernode := [] |}.

(** The loop of [handle_adjustment] over [pn->pending]. *)
Fixpoint apply_pending (last : Z) (pend : OMap.t Z) (delta_so_far : Z)
  : Z * OMap.t Z :=
  match pend with
  | [] => (delta_so_far, [])
  | (first, second) :: rest =>
      if first <=? last
      then apply_pending last rest (i32 (delta_so_far + second))
      else (delta_so_far, pend)
  end.

Section Adjustment.

(** [BARRIER_TIMESTAMP_NODEID_SHIFT], declared in [event_impl.h]. *)
Variable BARRIER_TIMESTAMP_NODEID_SHIFT : Z.

(** What [last_ts] reads as in a [new PerNodeUpdates]: the struct, declared
    in [event_impl.h], is not seen to initialise it. *)
Variable fresh_last_ts : Z.

Definition node_of (ts : Z) : Z :=
  i32 (Z.shiftr ts BARRIER_TIMESTAMP_NODEID_SHIFT).

(** [pernode.find(node)], or the new entry that is created when absent. *)
Definition pernode_entry (g : Generation) (node : Z) : PerNodeUpdates :=
  match OMap.find node (pernode g) with
  | Some pn => pn
  | None => {| last_ts := fresh_last_ts; pending := [] |}
  end.

(** [BarrierImpl::Generation::handle_adjustment(ts, delta)] *)
Definition handle_adjustment (g : Generation) (ts delta : Z) : Generation :=
  if ts =? 0 then
    (* simple case - apply delta directly *)
    {| unguarded_delta := i32 (unguarded_delta g + delta);
       local_waiters := local_waiters g;
       pernode := pernode g |}
  else
    let node := node_of ts in
    let pn := pernode_entry g node in
    if delta >? 0 then
      let '(ud, pend) :=
        apply_pending ts (pending pn) (i32 (unguarded_delta g + delta)) in
      {| unguarded_delta := ud;
         local_waiters := local_waiters g;
         pernode := OMap.insert node {| last_ts := ts; pending := pend |}
                                (pernode g) |}
    else if ts <=? last_ts pn then
      (* the timestamp is late enough, apply this directly *)
      {| unguarded_delta := i32 (unguarded_delta g + delta);
         local_waiters := local_waiters g;
         pernode := OMap.insert node pn (pernode g) |}
    else
      (* adjustment must be deferred *)
      let old := match OMap.find ts (pending pn) with
                 | Some d => d
                 | None => 0
                 end in
      {| unguarded_delta := unguarded_delta g;
         local_waiters := local_waiters g;
         pernode :=
           OMap.insert node
             {| last_ts := last_ts pn;
                pending := OMap.insert ts (i32 (old + delta)) (pending pn) |}
             (pernode g) |}.


End Adjustment.

(** A reduction operator: [redop->apply(lhs, rhs, 1, true)] folds one value
    into another.  Reduction values are counted, not measured: one [Z] stands
    for the [sizeof_lhs] (or [sizeof_rhs]) bytes of a value, so a payload of
    [datalen] bytes is a list of [datalen / sizeof_lhs] values. *)
Definition ReductionOp := Z -> Z -> Z.

(** The object.  [redop] is the pointer into the reduction table ([None] for
    null); [final_values] holds [value_capacity] reduction values. *)
Record impl := mk {
  me : Z;
  owner : Z;
  generation : Z;
  gen_subscribed : Z;
  first_generation : Z;
  free_generation : Z;
  base_arrival_count : Z;
  generations : OMap.t Generation;
  remote_subscribe_gens : OMap.t Z;
  remote_trigger_gens : OMap.t Z;
  held_triggers : OMap.t Z;
  redop_id : Z;
  redop : option ReductionOp;
  initial_value : Z;
  value_capacity : Z;
  final_values : list Z
}.

(** [BarrierImpl::init(_me, _init_owner)] *)
Definition init (_me _init_owner : Z) : impl :=
  {| me := _me; owner := _init_owner; generation := 0; gen_subscribed := 0;
     first_generation := 0; free_generation := 0; base_arrival_count := 0;
     generations := []; remote_subscribe_gens := [];
     remote_trigger_gens := []; held_triggers := []; redop_id := 0;
     redop := None; initial_value := 0; value_capacity := 0;
     final_values := [] |}.

(** Field updates. *)
Definition with_subscription (s : impl) (g : Z) : impl :=
  mk (me s) (owner s) (generation s) g (first_generation s)
     (free_generation s) (base_arrival_count s) (generations s)
     (remote_subscribe_gens s) (remote_trigger_gens s) (held_triggers s)
     (redop_id s) (redop s) (initial_value s) (value_capacity s)
     (final_values s).

Definition with_generations (s : impl) (gs : OMap.t Generation) : impl :=
  mk (me s) (owner s) (generation s) (gen_subscribed s) (first_generation s)
     (free_generation s) (base_arrival_count s) gs
     (remote_subscribe_gens s) (remote_trigger_gens s) (held_triggers s)
     (redop_id s) (redop s) (initial_value s) (value_capacity s)
     (final_values s).

Definition with_trigger (s : impl) (g : Z) (gs : OMap.t Generation)
                        (held : OMap.t Z) : impl :=
  mk (me s) (owner s) g (gen_subscribed s) (first_generation s)
     (free_generation s) (base_arrival_count s) gs
     (remote_subscribe_gens s) (remote_trigger_gens s) held
     (redop_id s) (redop s) (initial_value s) (value_capacity s)
     (final_values s).

Definition with_remote (s : impl) (subs trigs : OMap.t Z) : impl :=
  mk (me s) (owner s) (generation s) (gen_subscribed s) (first_generation s)
     (free_generation s) (base_arrival_count s) (generations s)
     subs trigs (held_triggers s)
     (redop_id s) (redop s) (initial_value s) (value_capacity s)
     (final_values s).

Definition with_values (s : impl) (first : Z) (rid : Z)
                       (op : option ReductionOp) (cap : Z) (vals : list Z)
  : impl :=
  mk (me s) (owner s) (generation s) (gen_subscribed s) first
     (free_generation s) (base_arrival_count s) (generations s)
     (remote_subscribe_gens s) (remote_trigger_gens s) (held_triggers s)
     rid op (initial_value s) cap vals.

(** [make_barrier(gen, timestamp)] and the [Event] a waiter is handed. *)
Definition make_barrier (s : impl) (g ts : Z) : Barrier :=
  {| barrier_event := {| id := me s; gen := g |}; timestamp := ts |}.

(** [generations.find(gen)], or the new tracker created when absent. *)
Definition tracker (s : impl) (g : Z) : Generation :=
  match OMap.find g (generations s) with
  | Some t => t
  | None => new_Generation
  end.

(** [struct RemoteNotification] *)
Record RemoteNotification := mkRemoteNotification {
  rn_node : Z;
  rn_trigger_gen : Z;
  rn_previous_gen : Z
}.

(** The loop of [adjust_arrival] that triggers generations: while the first
    tracker is the next generation and its count has come down to zero, the
    generation advances and the tracker's waiters are collected.  The result
    is the new [generation], [trigger_gen], the waiters and the trackers
    left. *)
Fixpoint trigger_generations (base : Z) (cur trigger_gen : Z)
                             (notes : list Waiter) (gens : OMap.t Generation)
  : Z * Z * list Waiter * OMap.t Generation :=
  match gens with
  | [] => (cur, trigger_gen, notes, [])
  | (first, g) :: rest =>
      if (first =? u32 (cur + 1)) && (u32 (base + unguarded_delta g) =? 0)
      then trigger_generations base first first (notes ++ local_waiters g) rest
      else (cur, trigger_gen, notes, gens)
  end.

(** The loop of [adjust_arrival] over [remote_subscribe_gens]: one
    notification per subscribed node; fulfilled subscriptions are erased and
    [remote_trigger_gens] is brought up to date. *)
Fixpoint notify_subscribers (cur first_gen : Z) (subs trigs : OMap.t Z)
                            (rns : list RemoteNotification) (oldest : Z)
  : OMap.t Z * OMap.t Z * list RemoteNotification * Z :=
  match subs with
  | [] => ([], trigs, rns, oldest)
  | (node, sub_gen) :: rest =>
      let fulfilled := sub_gen <=? cur in
      let trig := if fulfilled then sub_gen else cur in
      let prev := match OMap.find node trigs with
                  | Some g => g
                  | None => first_gen
                  end in
      let trigs' := OMap.insert node trig trigs in
      let oldest' :=
        if (match rns with [] => true | _ => false end) || (prev <? oldest)
        then prev else oldest in
      let rn := {| rn_node := node; rn_trigger_gen := trig;
                   rn_previous_gen := prev |} in
      let '(subs', trigs'', rns', oldest'') :=
        notify_subscribers cur first_gen rest trigs' (rns ++ [rn]) oldest' in
      ((if fulfilled then subs' else (node, sub_gen) :: subs'),
       trigs'', rns', oldest'')
  end.

(** The loop of [BarrierTriggerMessage::handle_request] over
    [held_triggers]: a held range that starts where the message ends is
    absorbed into the message. *)
Fixpoint absorb_held (trigger_gen : Z) (held : OMap.t Z) : Z * OMap.t Z :=
  match held with
  | [] => (trigger_gen, [])
  | (first, second) :: rest =>
      if first =? trigger_gen then absorb_held second rest
      else (trigger_gen, held)
  end.

(** The loop of [BarrierTriggerMessage::handle_request] over [generations]:
    the waiters of every tracker up to and including [trigger_gen]. *)
Fixpoint collect_waiters (trigger_gen : Z) (gens : OMap.t Generation)
                         (notes : list Waiter)
  : list Waiter * OMap.t Generation :=
  match gens with
  | [] => (notes, [])
  | (first, g) :: rest =>
      if first >? trigger_gen then (notes, gens)
      else collect_waiters trigger_gen rest (notes ++ local_waiters g)
  end.

(** [BarrierTriggerMessage::RequestArgs] *)
Record RequestArgs := mkRequestArgs {
  args_node : Z;
  args_barrier_id : Z;
  args_trigger_gen : Z;
  args_previous_gen : Z;
  args_first_generation : Z;
  args_redop_id : Z
}.

Section OnNode.

(** [gasnet_mynode()] *)
Variable mynode : Z.

(** The two parameters of [handle_adjustment]. *)
Variable BARRIER_TIMESTAMP_NODEID_SHIFT : Z.
Variable fresh_last_ts : Z.

(** Whether the build defines [DEFER_ARRIVALS_LOCALLY]. *)
Variable DEFER_ARRIVALS_LOCALLY : bool.

(** [wait_on.has_triggered()] in the runtime the call runs in; [None] when
    the assertion of [Event::has_triggered] on poison fails. *)
Variable event_has_triggered : Event -> option bool.

(** [get_runtime()->reduce_op_table], [None] for a null entry. *)
Variable reduce_op_table : Z -> option ReductionOp.

(** [BarrierImpl::has_triggered(needed_gen, poisoned)]: the result, the value
    left in [poisoned], the object and the messages sent. *)
Definition has_triggered (s : impl) (needed_gen : Z)
  : bool * bool * impl * list Action :=
  let poisoned := POISON_FIXME in
  if needed_gen <=? generation s then (true, poisoned, s, [])
  else if negb (owner s =? mynode) then
    (* if we're not the owner, subscribe if we haven't already *)
    let previous_subscription := gen_subscribed s in
    let s' := if gen_subscribed s <? needed_gen
              then with_subscription s needed_gen else s in
    (false, poisoned, s',
     if previous_subscription <? needed_gen
     then [BarrierSubscribeMessage (owner s) (me s) needed_gen]
     else [])
  else (false, poisoned, s, []).

(** [BarrierImpl::add_waiter(needed_gen, waiter)] *)
Definition add_waiter (s : impl) (needed_gen : Z) (waiter : Waiter)
  : option (impl * list Action) :=
  if needed_gen >? generation s then
    let g := tracker s needed_gen in
    let g' := {| unguarded_delta := unguarded_delta g;
                 local_waiters := local_waiters g ++ [waiter];
                 pernode := pernode g |} in
    (* has_triggered should have already handled the subscription *)
    assert ((owner s =? mynode) || (gen_subscribed s >=? needed_gen)) in
    Some (with_generations s (OMap.insert needed_gen g' (generations s)), [])
  else
    Some (s, [EventTriggered waiter
                (barrier_event (make_barrier s needed_gen 0)) POISON_FIXME]).

(** The owner's part of [adjust_arrival], run under the mutex and followed by
    the notifications. *)
Definition adjust_arrival_owner (s : impl) (barrier_gen delta timestamp : Z)
                                (reduce_value : option Z)
  : option (impl * list Action) :=
  (* sanity checks - is this a valid barrier? *)
  assert (generation s <? free_generation s) in
  assert (base_arrival_count s >? 0) in
  (* update whatever generation we're told to *)
  assert (barrier_gen >? generation s) in
  let g := handle_adjustment BARRIER_TIMESTAMP_NODEID_SHIFT fresh_last_ts
             (tracker s barrier_gen) timestamp delta in
  let gens1 := OMap.insert barrier_gen g (generations s) in
  (* the update may cause one or more generations to trigger *)
  let '(cur, trigger_gen, local_notifications, gens2) :=
    if barrier_gen =? u32 (generation s + 1)
    then trigger_generations (base_arrival_count s) (generation s) 0 [] gens1
    else (generation s, 0, [], gens1) in
  (* figure out which remote nodes need notifications *)
  let '(subs, trigs, remote_notifications, oldest_previous) :=
    if (barrier_gen =? u32 (generation s + 1)) && (cur >=? barrier_gen)
    then notify_subscribers cur (first_generation s)
           (remote_subscribe_gens s) (remote_trigger_gens s) [] 0
    else (remote_subscribe_gens s, remote_trigger_gens s, [], 0) in
  (* do we have reduction data to apply? *)
  let reduced :=
    match reduce_value with
    | None => Some (value_capacity s, final_values s)
    | Some v =>
        match redop s with
        | None => None
        | Some op =>
            let rel_gen := i32 (barrier_gen - first_generation s) in
            assert (rel_gen >? 0) in
            let '(cap, vals) :=
              if rel_gen >? value_capacity s
              then (rel_gen,
                    final_values s
                    ++ repeat (initial_value s)
                              (Z.to_nat (rel_gen - value_capacity s)))
              else (value_capacity s, final_values s) in
            let slot := Z.to_nat (rel_gen - 1) in
            Some (cap, array_set slot (op (array_get slot vals) v) vals)
        end
    end in
  match reduced with
  | None => None
  | Some (cap, vals) =>
      (* a stable copy of the reduction values for the notifications *)
      let copied :=
        match redop s with
        | Some _ =>
            if trigger_gen =? 0 then Some None
            else
              let rel_gen := i32 (oldest_previous + 1 - first_generation s) in
              assert (rel_gen >? 0) in
              let count := i32 (trigger_gen - oldest_previous) in
              bytedup_values (rel_gen - 1) count cap vals
        | None => Some None
        end in
      match copied with
      | None => None
      | Some final_values_copy =>
          let s' :=
            with_values
              (with_remote (with_trigger s cur gens2 (held_triggers s))
                           subs trigs)
              (first_generation s) (redop_id s) (redop s) cap vals in
          Some (s',
                if trigger_gen =? 0 then []
                else
                  (* notify local waiters first *)
                  notify_all local_notifications
                    (barrier_event (make_barrier s trigger_gen 0)) POISON_FIXME
                  (* now do remote notifications *)
                  ++ map (fun rn =>
                            BarrierTriggerMessage
                              (rn_node rn) (me s) (rn_trigger_gen rn)
                              (rn_previous_gen rn) (first_generation s)
                              (redop_id s)
                              (match final_values_copy with
                               | Some c =>
                                   array_slice
                                     (Z.to_nat (rn_previous_gen rn
                                                - oldest_previous))
                                     (Z.to_nat (rn_trigger_gen rn
                                                - rn_previous_gen rn))
                                     c
                               | None => []
                               end))
                         remote_notifications)
      end
  end.

(** [BarrierImpl::adjust_arrival(barrier_gen, delta, timestamp, wait_on,
    reduce_value, reduce_value_size)]; [reduce_value] is [None] when
    [reduce_value_size] is 0. *)
Definition adjust_arrival (s : impl) (barrier_gen delta timestamp : Z)
                          (wait_on : Event) (reduce_value : option Z)
  : option (impl * list Action) :=
  match event_has_triggered wait_on with
  | None => None
  | Some false =>
      (* deferred arrival *)
      let b := make_barrier s barrier_gen timestamp in
      if negb DEFER_ARRIVALS_LOCALLY && negb (owner s =? mynode) then
        (* let deferral happen on owner node *)
        Some (s, [BarrierAdjustMessage (owner s) b delta wait_on reduce_value])
      else
        Some (s, [AddDeferredBarrierArrival wait_on b delta reduce_value])
  | Some true =>
      if negb (owner s =? mynode) then
        (* all adjustments handled by owner node *)
        Some (s, [BarrierAdjustMessage (owner s)
                    (make_barrier s barrier_gen timestamp) delta NO_EVENT
                    reduce_value])
      else adjust_arrival_owner s barrier_gen delta timestamp reduce_value
  end.

(** [Barrier::arrive(count, wait_on, reduce_value, reduce_value_size)] on
    the implementation [s] that the runtime finds for the barrier: the
    unsigned count is negated and passed as the [int] delta, with the
    timestamp stored in the barrier. *)
Definition arrive (b : Barrier) (s : impl) (count : Z) (wait_on : Event)
                  (reduce_value : option Z)
  : option (impl * list Action) :=
  adjust_arrival s (gen (barrier_event b)) (i32 (- count)) (timestamp b)
                 wait_on reduce_value.

(** A run of arrivals at one barrier, each without precondition
    ([wait_on] is [NO_EVENT]): the counts and the reduction values, in the
    order in which the calls take the mutex. *)
Fixpoint arrive_each (b : Barrier) (s : impl)
                     (arrivals : list (Z * option Z))
  : option (impl * list Action) :=
  match arrivals with
  | [] => Some (s, [])
  | (count, v) :: rest =>
      match arrive b s count NO_EVENT v with
      | None => None
      | Some (s1, acts) =>
          match arrive_each b s1 rest with
          | None => None
          | Some (s2, acts') => Some (s2, acts ++ acts')
          end
      end
  end.

(** [BarrierImpl::create_barrier(expected_arrivals, redopid, initial_value,
    initial_value_size)] on the entry that the free list hands out;
    [initial_value] is [None] when [initial_value_size] is 0.  The check of
    the entry's id type is left to the allocator. *)
Definition create_barrier (entry : impl) (expected_arrivals redopid : Z)
                          (initial : option Z)
  : option impl :=
  let created rid op init :=
    mk (me entry) (owner entry) (generation entry) (gen_subscribed entry)
       (first_generation entry)
       (* let the barrier rearm as many times as necessary *)
       (u32 (-1))
       expected_arrivals (generations entry)
       (remote_subscribe_gens entry) (remote_trigger_gens entry)
       (held_triggers entry) rid op init 0 [] in
  if redopid =? 0 then
    match initial with
    | None => Some (created 0 None 0)
    | Some _ => None
    end
  else
    match reduce_op_table redopid, initial with
    | Some op, Some v => Some (created redopid (Some op) v)
    | _, _ => None
    end.

(** [BarrierImpl::get_result(result_gen, value, value_size)] with a buffer
    for one value: [Some None] for [false], [Some (Some v)] for [true] with
    [v] copied out, [None] for a failed assertion. *)
Definition get_result (s : impl) (result_gen : Z) : option (option Z) :=
  (* generation hasn't triggered yet? *)
  if result_gen >? generation s then Some None
  else
    (* if it has triggered, we should have the data *)
    let rel_gen := i32 (result_gen - first_generation s) in
    assert (rel_gen >? 0) in
    assert (rel_gen <=? value_capacity s) in
    match redop s with
    | None => None
    | Some _ => Some (Some (array_get (Z.to_nat (rel_gen - 1))
                                      (final_values s)))
    end.

(** [BarrierTriggerMessage::handle_request(args, data, datalen)] on the
    barrier [s] that [args.barrier_id] names; [datalen] is the length of
    [data].  A copy that would run past the end of [final_values] has no
    defined outcome and is modelled like a failed assertion. *)
Definition handle_request (s : impl) (args : RequestArgs) (data : list Z)
  : option (impl * list Action) :=
  let b := {| id := args_barrier_id args; gen := args_trigger_gen args |} in
  let '(trigger_gen, s1, local_notifications) :=
    if args_previous_gen args =? generation s then
      (* see if we can pick up any of the held triggers too *)
      let '(tg, held) :=
        absorb_held (args_trigger_gen args) (held_triggers s) in
      let '(notes, gens) := collect_waiters tg (generations s) [] in
      (tg, with_trigger s tg gens held, notes)
    else
      (* hold this trigger until we get messages for the earlier ones *)
      (args_trigger_gen args,
       with_trigger s (generation s) (generations s)
         (OMap.insert (args_previous_gen args) (args_trigger_gen args)
                      (held_triggers s)),
       [])
  in
  let notifications := notify_all local_notifications b POISON_FIXME in
  match data with
  | [] => Some (s1, notifications)
  | _ :: _ =>
      (* is there any data we need to store? *)
      assert (negb (args_redop_id args =? 0)) in
      match reduce_op_table (args_redop_id args) with
      | None => None
      | Some op =>
          let rel_gen := i32 (trigger_gen - args_first_generation args) in
          assert (rel_gen >? 0) in
          let '(cap, vals) :=
            if value_capacity s <? rel_gen
            then (rel_gen,
                  final_values s
                  ++ repeat 0 (Z.to_nat (rel_gen - value_capacity s)))
            else (value_capacity s, final_values s) in
          assert (Z.of_nat (length data)
                  =? u32 (trigger_gen - args_previous_gen args)) in
          assert (rel_gen - 1 + Z.of_nat (length data) <=? cap) in
          let slot := Z.to_nat (rel_gen - 1) in
          Some (with_values s1 (args_first_generation args)
                  (args_redop_id args) (Some op) cap
                  (firstn slot vals ++ data
                   ++ skipn (slot + length data) vals),
                notifications)
      end
  end.

End OnNode.

(** [BarrierSubscribeMessage::handle_request(args)] on the barrier [s] that
    [args.barrier_id] names, with [args.node], [args.barrier_id] and
    [args.subscribe_gen]. *)
Definition BarrierSubscribeMessage_handle_request
    (s : impl) (node barrier_id subscribe_gen : Z)
  : option (impl * list Action) :=
  (* make sure the subscription is for this "lifetime" of the barrier *)
  assert (subscribe_gen >? first_generation s) in
  let subscription :=
    match OMap.find node (remote_subscribe_gens s) with
    | Some sub_gen =>
        (* a valid subscription should always be for a generation that
           hasn't triggered yet *)
        assert (sub_gen >? generation s) in
        if sub_gen >=? subscribe_gen
        then Some (true, remote_subscribe_gens s)
        else Some (false,
                   OMap.insert node subscribe_gen (remote_subscribe_gens s))
    | None =>
        (* new subscription; if we're subscribing to an old generation,
           don't add it *)
        Some (false,
              if subscribe_gen >? generation s
              then OMap.insert node subscribe_gen (remote_subscribe_gens s)
              else remote_subscribe_gens s)
    end in
  match subscription with
  | None => None
  | Some (already_subscribed, subs) =>
      (* as long as we're not already subscribed to this generation, check
         to see if any trigger notifications are needed *)
      let known := OMap.find node (remote_trigger_gens s) in
      let behind := match known with
                    | Some g => g <? generation s
                    | None => true
                    end in
      if negb already_subscribed
         && (generation s >? first_generation s) && behind
      then
        let previous_gen := match known with
                            | Some g => g
                            | None => first_generation s
                            end in
        let trigger_gen := generation s in
        let trigs := OMap.insert node (generation s) (remote_trigger_gens s) in
        let copied :=
          match redop s with
          | Some _ =>
              let rel_gen := i32 (previous_gen + 1 - first_generation s) in
              assert (rel_gen >? 0) in
              match bytedup_values (rel_gen - 1)
                                   (u32 (trigger_gen - previous_gen))
                                   (value_capacity s) (final_values s) with
              | None => None
              | Some None => Some []
              | Some (Some c) => Some c
              end
          | None => Some []
          end in
        match copied with
        | None => None
        | Some final_values_copy =>
            Some (with_remote s subs trigs,
                  (* send trigger message outside of lock, if needed *)
                  if trigger_gen >? 0
                  then [BarrierTriggerMessage node barrier_id trigger_gen
                          previous_gen (first_generation s) (redop_id s)
                          final_values_copy]
                  else [])
        end
      else Some (with_remote s subs (remote_trigger_gens s), [])
  end.

(** *** Vocabulary for the pending adjustments *)

(** The sum of the deltas held in a pending map. *)
Definition sum_values (m : OMap.t Z) : Z :=
  fold_right (fun e acc => snd e + acc) 0 m.

(** The pending entries with a timestamp up to [ts], and the others. *)
Definition due (ts : Z) (m : OMap.t Z) : OMap.t Z :=
  filter (fun e => fst e <=? ts) m.

Definition not_due (ts : Z) (m : OMap.t Z) : OMap.t Z :=
  filter (fun e => negb (fst e <=? ts)) m.

(** The bookkeeping of a node is in order when its pending map is sorted and
    holds only timestamps later than [last_ts]: the decrements still waiting
    for an increment. *)
Definition pernode_ok (pn : PerNodeUpdates) : bool :=
  OMap.sorted (pending pn)
  && forallb (fun e => last_ts pn <? fst e) (pending pn).

(** The deltas a tracker holds back, over all nodes, and everything it has
    been given: what is in the count and what is held back. *)
Definition pending_total (g : Generation) : Z :=
  fold_right (fun e acc => sum_values (pending (snd e)) + acc) 0 (pernode g).

Definition account (g : Generation) : Z :=
  unguarded_delta g + pending_total g.

(** *** Vocabulary for the trackers *)

(** The waiters of the trackers up to generation [t], in generation order,
    and the trackers beyond [t]. *)
Definition waiters_through (t : Z) (gens : OMap.t Generation) : list Waiter :=
  flat_map (fun e => local_waiters (snd e))
           (filter (fun e => fst e <=? t) gens).

Definition trackers_beyond (t : Z) (gens : OMap.t Generation)
  : OMap.t Generation :=
  filter (fun e => negb (fst e <=? t)) gens.

(** *** Vocabulary for arrivals *)

(** The reduction values as they are once the array reaches [rel_gen]
    slots: new slots hold the initial value. *)
Definition padded_values (s : impl) (rel_gen : Z) : list Z :=
  final_values s
  ++ repeat (initial_value s) (Z.to_nat (rel_gen - value_capacity s)).

(** Folding an arrival's value, if it has one, into a slot. *)
Definition reduce_into (op : ReductionOp) (acc : Z) (v : option Z) : Z :=
  match v with
  | Some x => op acc x
  | None => acc
  end.

(** The arrivals counted in a run. *)
Definition total_count (arrivals : list (Z * option Z)) : Z :=
  fold_right (fun a acc => fst a + acc) 0 arrivals.

(** Whether an arrival of a run brings a reduction value. *)
Definition brings_value (arrivals : list (Z * option Z)) : bool :=
  existsb (fun a => match snd a with Some _ => true | None => false end)
          arrivals.

(** The trackers [later] all lie beyond generation [g], and the first of
    them is not a generation [g + 1] whose arrivals are already complete. *)
Definition waits_beyond (base g : Z) (later : OMap.t Generation) : bool :=
  forallb (fun e => g <? fst e) later
  && match later with
     | [] => true
     | (k, t) :: _ =>
         negb ((k =? g + 1) && (u32 (base + unguarded_delta t) =? 0))
     end.

(** *** The class invariant of a barrier *)

(** The bookkeeping of a barrier refers only to generations that have not
    triggered: the trackers are sorted and lie beyond [generation], every
    recorded subscription is for a later generation, and no node has been
    told of a generation that has not triggered. *)
Definition barrier_ok (s : impl) : bool :=
  (0 <=? generation s)
  && OMap.sorted (generations s)
  && forallb (fun e => generation s <? fst e) (generations s)
  && forallb (fun e => generation s <? snd e) (remote_subscribe_gens s)
  && forallb (fun e => snd e <=? generation s) (remote_trigger_gens s).

(** Every waiter callback among the calls passes [poisoned = false]. *)
Definition unpoisoned (acts : list Action) : Prop :=
  Forall (fun n : Waiter * Event * bool => snd n = false) (woken acts).

End BarrierImpl.

(** ** The runtime directory and the queries on [Event] *)

(** [EventImpl] and its two subclasses. *)
Inductive EventImpl :=
| OfGenEvent (e : GenEventImpl.impl)
| OfBarrier (b : BarrierImpl.impl).

(** Modelled from the spec: the per-process runtime directory that maps an
    id to its implementation object ([get_runtime()->get_event_impl], which
    is not in this file). *)
Definition Runtime := Z -> EventImpl.

Definition update (rt : Runtime) (i : Z) (x : EventImpl) : Runtime :=
  fun j => if j =? i then x else rt j.

Section Queries.

(** [gasnet_mynode()] *)
Variable mynode : Z.

(** [Event::has_triggered_faultaware(poisoned)]: the result, the value left
    in [poisoned] (which the caller initialised), the directory and the
    messages sent by a barrier that subscribes. *)
Definition Event_has_triggered_faultaware (rt : Runtime) (e : Event)
                                    (poisoned : bool)
  : bool * bool * Runtime * list Action :=
  if id e =? 0 then (true, poisoned, rt, [])
  else
    match rt (id e) with
    | OfGenEvent g =>
        let '(r, p) := GenEventImpl.has_triggered g (gen e) in (r, p, rt, [])
    | OfBarrier b =>
        let '(r, p, b', acts) := BarrierImpl.has_triggered mynode b (gen e) in
        (r, p, update rt (id e) (OfBarrier b'), acts)
    end.

(** [Event::has_triggered()]: a poisoned event fails the assertion. *)
Definition Event_has_triggered (rt : Runtime) (e : Event)
  : option (bool * Runtime * list Action) :=
  if id e =? 0 then Some (true, rt, [])
  else
    let '(r, poisoned, rt', acts) := Event_has_triggered_faultaware rt e false in
    if r then
      assert (Bool.eqb poisoned POISON_FIXME) in Some (true, rt', acts)
    else Some (false, rt', acts).

End Queries.

(** ** class EventMerger *)

Module EventMerger.

(** The object; [this] is its address, under which it registers as a
    waiter. *)
Record merger := mk {
  this : Waiter;
  finish_event : Event;
  ignore_faults : bool;
  count_needed : Z;
  faults_observed : Z
}.

(** [EventMerger(_finish_event, _ignore_faults)] allocated at [addr]. *)
Definition create (addr : Waiter) (_finish_event : Event)
                  (_ignore_faults : bool) : merger :=
  {| this := addr; finish_event := _finish_event;
     ignore_faults := _ignore_faults; count_needed := 1;
     faults_observed := 0 |}.

Section OnNode.

Variable mynode : Z.

(** [EventMerger::add_event(wait_for)]: the object, the directory as the
    query leaves it, and the calls made.  The two static calls,
    [GenEventImpl::trigger(finish_event, true)] and
    [EventImpl::add_waiter(wait_for, this)], are returned as the actions
    [Trigger] and [AddWaiter]; they are not run against the directory
    here, so the directory returned says nothing about their effects. *)
Definition add_event (rt : Runtime) (m : merger) (wait_for : Event)
  : merger * Runtime * list Action :=
  let '(triggered, poisoned, rt', acts) :=
    Event_has_triggered_faultaware mynode rt wait_for false in
  if triggered then
    (* always count faults, but don't necessarily propagate *)
    let first_fault := faults_observed m =? 0 in
    ({| this := this m; finish_event := finish_event m;
        ignore_faults := ignore_faults m; count_needed := count_needed m;
        faults_observed := i32 (faults_observed m + 1) |},
     rt',
     acts ++ (if first_fault && negb (ignore_faults m)
              then [Trigger (finish_event m) true] else []))
    (* either way we return without updating the count_needed *)
  else
    (* increment the count and then add ourselves *)
    ({| this := this m; finish_event := finish_event m;
        ignore_faults := ignore_faults m;
        count_needed := i32 (count_needed m + 1);
        faults_observed := faults_observed m |},
     rt',
     acts ++ [AddWaiter wait_for (this m)]).

End OnNode.

(** [EventMerger::event_triggered(triggered, poisoned)]: the object, the
    returned flag and the calls made. *)
Definition event_triggered (m : merger) (triggered : Event) (poisoned : bool)
  : merger * bool * list Action :=
  (* if the input is poisoned, we propagate that poison eagerly *)
  let first_fault := poisoned && (faults_observed m =? 0) in
  let faults := if poisoned then i32 (faults_observed m + 1)
                else faults_observed m in
  let count_left := count_needed m in
  (* count is the value before the decrement *)
  let last_trigger := count_left =? 1 in
  ({| this := this m; finish_event := finish_event m;
      ignore_faults := ignore_faults m;
      count_needed := i32 (count_left - 1);
      faults_observed := faults |},
   last_trigger,
   (if first_fault && negb (ignore_faults m)
    then [Trigger (finish_event m) true] else [])
   ++ (if last_trigger && (ignore_faults m || (faults =? 0))
       then [Trigger (finish_event m) false] else [])).

(** [EventMerger::arm()] *)
Definition arm (m : merger) : merger * bool * list Action :=
  event_triggered m NO_EVENT false.

(** The callbacks a merger receives during its life, one after the other:
    each is one call of [event_triggered] with the event that triggered and
    its poison bit ([arm] is the call with [NO_EVENT] and no poison).  The
    result is the object, the flags returned and the calls made. *)
Fixpoint deliver (m : merger) (calls : list (Event * bool))
  : merger * list bool * list Action :=
  match calls with
  | [] => (m, [], [])
  | (e, p) :: rest =>
      let '(m1, last, acts) := event_triggered m e p in
      let '(m2, flags, acts') := deliver m1 rest in
      (m2, last :: flags, acts ++ acts')
  end.

End EventMerger.

(** ** [GenEventImpl::merge_events] on a set of events *)

(** How the scan over the inputs ends: with an input returned on the spot,
    or with the count of untriggered inputs and the first of them. *)
Inductive Scan :=
| Returned (e : Event)
| Counted (wait_count : Z) (first_wait : Event).

Section Merge.

Variable mynode : Z.

(** What [create_genevent()->current_event()] hands out, and the address of
    the [new EventMerger]; the allocators are not in this file. *)
Variable fresh_event : Event.
Variable merger_address : Waiter.

(** The first loop of [merge_events]; [wait_for] lists the set in iteration
    order. *)
Fixpoint scan_events (rt : Runtime) (ignore_faults : bool)
                     (wait_for : list Event) (wait_count : Z)
                     (first_wait : Event)
  : Scan * Runtime * list Action :=
  match wait_for with
  | [] => (Counted wait_count first_wait, rt, [])
  | it :: rest =>
      if wait_count <? 2 then
        let '(triggered, poisoned, rt', acts) :=
          Event_has_triggered_faultaware mynode rt it false in
        if triggered then
          (* if we're not ignoring faults, we need to propagate this fault,
             and can do so by just returning this poisoned event *)
          if negb ignore_faults then (Returned it, rt', acts)
          else
            let '(r, rt'', acts') :=
              scan_events rt' ignore_faults rest wait_count first_wait in
            (r, rt'', acts ++ acts')
        else
          let '(r, rt'', acts') :=
            scan_events rt' ignore_faults rest (wait_count + 1)
              (if wait_count =? 0 then it else first_wait) in
          (r, rt'', acts ++ acts')
      else (Counted wait_count first_wait, rt, [])
  end.

(** The second loop: every input is added to the merger. *)
Fixpoint add_events (rt : Runtime) (m : EventMerger.merger)
                    (wait_for : list Event)
  : EventMerger.merger * Runtime * list Action :=
  match wait_for with
  | [] => (m, rt, [])
  | it :: rest =>
      let '(m', rt', acts) := EventMerger.add_event mynode rt m it in
      let '(m'', rt'', acts') := add_events rt' m' rest in
      (m'', rt'', acts ++ acts')
  end.

(** [GenEventImpl::merge_events(wait_for, ignore_faults)], built without
    [EVENT_GRAPH_TRACE].  [first_wait] starts out unset; it is read only
    after it was assigned. *)
Definition merge_events (rt : Runtime) (wait_for : list Event)
                        (ignore_faults : bool)
  : Event * Runtime * list Action :=
  match wait_for with
  | [] => (NO_EVENT, rt, [])
  | _ :: _ =>
      match scan_events rt ignore_faults wait_for 0 NO_EVENT with
      | (Returned e, rt', acts) => (e, rt', acts)
      | (Counted wait_count first_wait, rt', acts) =>
          (* counts of 0 or 1 don't require any merging *)
          if wait_count =? 0 then (NO_EVENT, rt', acts)
          else if (wait_count =? 1) && negb ignore_faults
          then (first_wait, rt', acts)
          else
            (* counts of 2+ require a new event and a merger *)
            let finish_event := fresh_event in
            let m := EventMerger.create merger_address finish_event
                                        ignore_faults in
            let '(m', rt'', acts') := add_events rt' m wait_for in
            (* once they're all added - arm the thing *)
            let '(_, _, acts'') := EventMerger.arm m' in
            (finish_event, rt'', acts ++ acts' ++ acts'')
      end
  end.

(** [Event::exists()], declared with [Event] in the header. *)
Variable Event_exists : Event -> bool.

(** The [CHECK_EVENT] macro of the six-argument [merge_events], applied to
    the events of [evs] in turn. *)
Fixpoint check_events (rt : Runtime) (evs : list Event) (wait_count : Z)
                      (first_wait : Event)
  : Scan * Runtime * list Action :=
  match evs with
  | [] => (Counted wait_count first_wait, rt, [])
  | ev :: rest =>
      let '(triggered, poisoned, rt', acts) :=
        Event_has_triggered_faultaware mynode rt ev false in
      if triggered then
        if poisoned then (Returned ev, rt', acts)
        else
          let '(r, rt'', acts') :=
            check_events rt' rest wait_count first_wait in
          (r, rt'', acts ++ acts')
      else
        let '(r, rt'', acts') :=
          check_events rt' rest (i32 (wait_count + 1)) ev in
        (r, rt'', acts ++ acts')
  end.

(** The six guarded [add_event] calls. *)
Fixpoint add_existing (rt : Runtime) (m : EventMerger.merger)
                      (evs : list Event)
  : EventMerger.merger * Runtime * list Action :=
  match evs with
  | [] => (m, rt, [])
  | ev :: rest =>
      let '(m', rt', acts) :=
        if Event_exists ev then EventMerger.add_event mynode rt m ev
        else (m, rt, []) in
      let '(m'', rt'', acts') := add_existing rt' m' rest in
      (m'', rt'', acts ++ acts')
  end.

(** [GenEventImpl::merge_events(ev1, ev2, ev3, ev4, ev5, ev6)], built
    without [EVENT_GRAPH_TRACE]. *)
Definition merge_events6 (rt : Runtime) (ev1 ev2 ev3 ev4 ev5 ev6 : Event)
  : Event * Runtime * list Action :=
  match check_events rt [ev6; ev5; ev4; ev3; ev2; ev1] 0 NO_EVENT with
  | (Returned e, rt', acts) => (e, rt', acts)
  | (Counted wait_count first_wait, rt', acts) =>
      (* counts of 0 or 1 don't require any merging *)
      if wait_count =? 0 then (NO_EVENT, rt', acts)
      else if wait_count =? 1 then (first_wait, rt', acts)
      else
        (* counts of 2+ require a new event and a merger *)
        let finish_event := fresh_event in
        let m := EventMerger.create merger_address finish_event false in
        let '(m', rt'', acts') :=
          add_existing rt' m [ev1; ev2; ev3; ev4; ev5; ev6] in
        let '(_, _, acts'') := EventMerger.arm m' in
        (finish_event, rt'', acts ++ acts' ++ acts'')
  end.

(** What a query answers in a directory: whether the event has triggered
    and whether it is poisoned. *)
Definition answer (rt : Runtime) (e : Event) : bool * bool :=
  fst (fst (Event_has_triggered_faultaware mynode rt e false)).

End Merge.

(** A directory in which event 7 has triggered its first generation without
    poison and every other event is fresh. *)
Definition one_triggered : Runtime :=
  fun i =>
    if i =? 7
    then OfGenEvent (GenEventImpl.mk 7 0 1 0 0 [] false [] [] [] [])
    else OfGenEvent (GenEventImpl.init i 0).

(** * The logger of [logging.cc]

    Strings are lists of characters: a [cstring] holds the characters of a
    [std::string], behind which lies the terminating NUL.  Code that walks
    a string through [c_str()] stops at the first NUL it meets, the
    terminator or a character of the string.  What a logger does to its
    streams is returned as a list of [Output]s in program order. *)

Module Logging.

Import Ascii.

Definition cstring := list ascii.

Definition NUL : ascii := zero.
Definition comma : ascii := ","%char.
Definition newline : ascii := ascii_of_nat 10.

(** [Logger::LogStream]; the stream pointer is an address. *)
Record LogStream := mkLogStream {
  ls_s : Z;
  min_level : Z;
  delete_when_done : bool;
  flush_each_write : bool
}.

(** [class Logger] *)
Record Logger := mkLogger {
  name : cstring;
  log_level : Z;
  streams : list LogStream
}.

(** [s->write(buffer, len)] and [s->flush()]. *)
Inductive Output :=
| Write (s : Z) (buffer : cstring)
| Flush (s : Z).

(** [Logger::add_stream(s, min_level, delete_when_done, flush_each_write)] *)
Definition add_stream (lg : Logger) (s : Z) (min_lvl : Z)
                      (delete_when_done flush_each_write : bool) : Logger :=
  {| name := name lg;
     (* update our logging level if needed *)
     log_level := if log_level lg >? min_lvl then min_lvl else log_level lg;
     streams := streams lg
                ++ [mkLogStream s min_lvl delete_when_done flush_each_write] |}.

Definition MAXLEN : Z := 4096.

Section Formatting.

(** The text that the format of [log_msg] produces from the node, the
    thread, the level and the name: here a function of the last two. *)
Variable format_prefix : Z -> cstring -> cstring.

(** [Logger::log_msg(level, msg)].  [snprintf] stores at most
    [MAXLEN - 3] characters of the prefix and a NUL and returns the length
    of the whole prefix.  A [memcpy] of a negative amount, an [int] that
    overflows and a write behind the end of [buffer] have no defined
    outcome: [None]. *)
Definition log_msg (lg : Logger) (level : Z) (msg : cstring)
  : option (list Output) :=
  (* no logging of empty messages *)
  if Nat.eqb (length msg) 0 then Some []
  else
    (* build message string, including prefix *)
    let text := format_prefix level (name lg) in
    let len := Z.of_nat (length text) in
    let stored :=
      if len <=? MAXLEN - 3 then text
      else firstn (Z.to_nat (MAXLEN - 3)) text ++ [NUL] in
    let amt0 := i32 (Z.of_nat (length msg)) in
    assert (len + amt0 <? 2 ^ 31) in
    let amt := if len + amt0 >=? MAXLEN then MAXLEN - 2 - len else amt0 in
    assert (0 <=? amt) in
    (* buffer[len++] = '\n'; buffer[len] = 0; *)
    assert (len + amt + 1 <? MAXLEN) in
    let buffer := stored ++ firstn (Z.to_nat amt) msg ++ [newline] in
    (* go through all the streams *)
    Some (flat_map
            (fun it =>
               if level <? min_level it then []
               else Write (ls_s it) buffer
                    :: (if flush_each_write it then [Flush (ls_s it)]
                        else []))
            (streams lg)).

End Formatting.

(** [class LoggerConfig]; [category_levels] is the [std::map] from names
    to levels, [pending_configs] the set of logger addresses. *)
Record LoggerConfig := mkLoggerConfig {
  cmdline_read : bool;
  default_level : Z;
  category_levels : list (cstring * Z);
  cats_enabled : cstring;
  pending_configs : list Z;
  stream : Z
}.

(** [category_levels.find(name)] *)
Fixpoint find_level (n : cstring) (m : list (cstring * Z)) : option Z :=
  match m with
  | [] => None
  | (k, v) :: rest =>
      if list_eq_dec ascii_dec k n then Some v else find_level n rest
  end.

(** [pending_configs.insert(logger)] *)
Definition insert_pending (addr : Z) (set : list Z) : list Z :=
  if existsb (fun x => x =? addr) set then set else set ++ [addr].

Section Memory.

(** The bytes that lie behind the terminating NUL of [cats_enabled]. *)
Variable beyond : nat -> ascii.

(** [p[i]] for [p] pointing at the rest of a string. *)
Definition char_at (p : cstring) (i : nat) : ascii :=
  match nth_error p i with
  | Some c => c
  | None => if Nat.eqb i (length p) then NUL
            else beyond (i - length p - 1)
  end.

(** [*p], the character [p] points at: the terminating NUL at the end. *)
Definition deref (p : cstring) : ascii :=
  match p with
  | [] => NUL
  | c :: _ => c
  end.

(** [!*p] *)
Definition at_end (p : cstring) : bool := Ascii.eqb (deref p) NUL.

(** [!strncmp(p, n, l)]: at most [l] characters are compared, and the
    comparison ends where both strings have a NUL. *)
Fixpoint strncmp_eq (p n : cstring) (l : nat) {struct l} : bool :=
  match l with
  | O => true
  | S l' =>
      if Ascii.eqb (deref p) (deref n) then
        if at_end p then true else strncmp_eq (tl p) (tl n) l'
      else false
  end.

(** The first inner loop: up to the next comma or the end. *)
Fixpoint skip_to_comma (p : cstring) : cstring :=
  match p with
  | [] => []
  | c :: p' =>
      if Ascii.eqb c NUL || Ascii.eqb c comma then p else skip_to_comma p'
  end.

(** The second inner loop: past the commas. *)
Fixpoint skip_commas (p : cstring) : cstring :=
  match p with
  | [] => []
  | c :: p' => if Ascii.eqb c comma then skip_commas p' else p
  end.

(** The loop of [configure] over [cats_enabled]; every iteration moves [p]
    forward, [fuel] bounds their number. *)
Fixpoint find_category (fuel : nat) (p n : cstring) : bool :=
  match fuel with
  | O => false
  | S fuel' =>
      if at_end p then false
      else
        let l := length n in
        if (Ascii.eqb (char_at p l) NUL || Ascii.eqb (char_at p l) comma)
           && strncmp_eq p n l
        then true
        else
          (* skip to after next comma *)
          find_category fuel' (skip_commas (skip_to_comma p)) n
  end.

(** [LoggerConfig::configure(logger)] for the logger at [addr]. *)
Definition configure (cfg : LoggerConfig) (addr : Z) (lg : Logger)
  : LoggerConfig * Logger :=
  (* if we haven't read the command line yet, remember this for later *)
  if negb (cmdline_read cfg) then
    (mkLoggerConfig (cmdline_read cfg) (default_level cfg)
                    (category_levels cfg) (cats_enabled cfg)
                    (insert_pending addr (pending_configs cfg))
                    (stream cfg),
     lg)
  else
    (* see if this logger is one of the categories we want *)
    let found :=
      match cats_enabled cfg with
      | [] => true
      | _ :: _ => find_category (S (length (cats_enabled cfg)))
                                (cats_enabled cfg) (name lg)
      end in
    if negb found then (cfg, lg)
    else
      (* see if the level for this category has been customized *)
      let level := match find_level (name lg) (category_levels cfg) with
                   | Some l => l
                   | None => default_level cfg
                   end in
      (* give this logger a copy of the global stream *)
      (cfg, add_stream lg (stream cfg) level false false).

(** [Logger::LEVEL_NONE], declared in [logging.h]. *)
Variable LEVEL_NONE : Z.

(** [Logger::Logger(_name)] for the logger at [addr]. *)
Definition Logger_new (cfg : LoggerConfig) (addr : Z) (_name : cstring)
  : LoggerConfig * Logger :=
  configure cfg addr {| name := _name; log_level := LEVEL_NONE;
                        streams := [] |}.

End Memory.

(** [category_levels[catname] = v] *)
Fixpoint set_level (n : cstring) (v : Z) (m : list (cstring * Z))
  : list (cstring * Z) :=
  match m with
  | [] => [(n, v)]
  | (k, w) :: rest =>
      if list_eq_dec ascii_dec k n then (k, v) :: rest
      else (k, w) :: set_level n v rest
  end.

(** [isdigit(c)] in the C locale. *)
Definition isdigit (c : ascii) : bool :=
  (48 <=? nat_of_ascii c)%nat && (nat_of_ascii c <=? 57)%nat.

(** The decimal digits at the front of a string: their value, counted on
    from [acc], and the rest. *)
Fixpoint read_digits (p : cstring) (acc : Z) : Z * cstring :=
  match p with
  | [] => (acc, [])
  | c :: p' =>
      if isdigit c
      then read_digits p' (10 * acc + Z.of_nat (nat_of_ascii c - 48))
      else (acc, p)
  end.

(** The scan for the [=] behind a category name: the name and the rest
    behind the [=], or [None] when the string ends first. *)
Fixpoint scan_name (p : cstring) : option (cstring * cstring) :=
  match p with
  | [] => None
  | c :: p' =>
      if Ascii.eqb c "="%char then Some ([], p')
      else if Ascii.eqb c NUL then None
      else match scan_name p' with
           | Some (n, rest) => Some (c :: n, rest)
           | None => None
           end
  end.

Section Levels.

(** [Logger::LEVEL_NONE], declared in [logging.h]. *)
Variable LEVEL_NONE : Z.

(** [LONG_MAX] of [limits.h] and [ERANGE] of [errno.h]. *)
Variable LONG_MAX : Z.
Variable ERANGE : Z.

(** [strtol(p, &p2, 10)] on a string that starts with a digit: the value,
    the rest and [errno] afterwards.  A number beyond [LONG_MAX] comes back
    as [LONG_MAX] with [errno] set to [ERANGE]; otherwise [errno] is left
    as it is. *)
Definition strtol (p : cstring) (errno : Z) : Z * cstring * Z :=
  let '(v, p2) := read_digits p 0 in
  if v >? LONG_MAX then (LONG_MAX, p2, ERANGE) else (v, p2, errno).

(** [LoggerConfig::parse_level_argument(s)] on what it reads and sets:
    [errno] and the two fields go in; the returned flag, [default_level],
    [category_levels] and [errno] come out, or [None] when the assertion on
    [errno] fails.  Every iteration of the outer loop moves [p1] forward;
    [fuel] bounds their number. *)
Fixpoint parse_level_argument (fuel : nat) (errno : Z) (dflt : Z)
                              (levels : list (cstring * Z)) (p : cstring)
  : option (bool * Z * list (cstring * Z) * Z) :=
  match fuel with
  | O => Some (false, dflt, levels, errno)
  | S fuel' =>
      (* skip commas *)
      let p1 := skip_commas p in
      if at_end p1 then Some (true, dflt, levels, errno)
      else
        (* numbers may be preceeded by name= *)
        let named :=
          if negb (isdigit (deref p1)) then scan_name p1
          else Some ([], p1) in
        match named with
        | None => Some (false, dflt, levels, errno)
        | Some (catname, p1') =>
            (* levels are small integers *)
            if isdigit (deref p1') then
              (* no leftover errors from elsewhere *)
              assert (errno =? 0) in
              let '(v, p2, errno') := strtol p1' errno in
              if (errno' =? 0)
                 && (at_end p2 || Ascii.eqb (deref p2) comma)
                 && (0 <=? v) && (v <=? LEVEL_NONE)
              then
                match catname with
                | [] => parse_level_argument fuel' errno' v levels p2
                | _ :: _ =>
                    parse_level_argument fuel' errno' dflt
                      (set_level catname v levels) p2
                end
              else Some (false, dflt, levels, errno')
            else Some (false, dflt, levels, errno)
        end
  end.

End Levels.

(** *** Vocabulary for the level argument *)

(** One setting of [-level]: a category name, empty for the default
    level, and the digits of the level. *)
Definition render_setting (s : cstring * cstring) : cstring :=
  match fst s with
  | [] => snd s
  | _ :: _ => fst s ++ ["="%char] ++ snd s
  end.

(** The settings separated by commas. *)
Fixpoint render_settings (l : list (cstring * cstring)) : cstring :=
  match l with
  | [] => []
  | [s] => render_setting s
  | s :: rest => render_setting s ++ [comma] ++ render_settings rest
  end.

(** What a setting does to the two fields. *)
Definition apply_setting (st : Z * list (cstring * Z))
                         (s : cstring * cstring)
  : Z * list (cstring * Z) :=
  let v := fst (read_digits (snd s) 0) in
  match fst s with
  | [] => (v, snd st)
  | _ :: _ => (fst st, set_level (fst s) v (snd st))
  end.

(** The shape of a setting: the name, if any, does not start with a digit
    or a comma and has no [=] and no NUL; the level is written with digits
    only. *)
Definition setting_shape (s : cstring * cstring) : Prop :=
  match fst s with
  | [] => True
  | c :: _ => isdigit c = false /\ c <> comma /\ ~ In "="%char (fst s)
              /\ ~ In NUL (fst s)
  end
  /\ snd s <> []
  /\ Forall (fun c => isdigit c = true) (snd s).

(** The level a setting names. *)
Definition setting_level (s : cstring * cstring) : Z :=
  fst (read_digits (snd s) 0).

(** The text behind a setting: nothing, or a comma and more. *)
Definition tail_ok (tail : cstring) : Prop :=
  match tail with
  | [] => True
  | c :: _ => c = comma
  end.

(** *** Vocabulary for the category list *)

(** The characters in front of the first comma. *)
Fixpoint take_name (p : cstring) : cstring :=
  match p with
  | [] => []
  | c :: p' => if Ascii.eqb c comma then [] else c :: take_name p'
  end.

(** The names between the commas of a list. *)
Fixpoint split_commas (p : cstring) : list cstring :=
  match p with
  | [] => [[]]
  | c :: p' =>
      if Ascii.eqb c comma then [] :: split_commas p'
      else match split_commas p' with
           | t :: ts => (c :: t) :: ts
           | [] => [[c]]
           end
  end.

(** [log_level] is at most the level of every stream of the logger. *)
Definition level_ok (lg : Logger) : bool :=
  forallb (fun it => log_level lg <=? min_level it) (streams lg).

(** The streams a message of a level goes to. *)
Definition written_to (outs : list Output) : list Z :=
  flat_map (fun o => match o with Write s _ => [s] | Flush _ => [] end) outs.

End Logging.

(** * Properties *)

(** ** Machine integers *)

Lemma u32_id z : 0 <= z < 2 ^ 32 -> u32 z = z.
Proof. intros H. unfold u32. now apply Z.mod_small. Qed.

Lemma i32_id z : - 2 ^ 31 <= z < 2 ^ 31 -> i32 z = z.
Proof. intros H. unfold i32. rewrite Z.mod_small; lia. Qed.

Lemma i32_add_l x y : i32 (i32 x + y) = i32 (x + y).
Proof.
  unfold i32.
  replace ((x + 2 ^ 31) mod 2 ^ 32 - 2 ^ 31 + y + 2 ^ 31)
    with ((x + 2 ^ 31) mod 2 ^ 32 + y) by lia.
  rewrite Zplus_mod_idemp_l. f_equal. f_equal. lia.
Qed.

Lemma i32_add_r x y : i32 (x + i32 y) = i32 (x + y).
Proof. rewrite Z.add_comm, i32_add_l. f_equal. lia. Qed.

(** ** Ordered maps *)

Module OMapFacts.

Import OMap.

Section Facts.
Context {V : Type}.
Implicit Types m : OMap.t V.

Lemma find_insert_eq k v m : find k (insert k v m) = Some v.
Proof.
  induction m as [|[k' v'] rest IH]; simpl.
  - now rewrite Z.eqb_refl.
  - destruct (k <? k') eqn:Hlt; simpl.
    + now rewrite Z.eqb_refl.
    + destruct (k =? k') eqn:He; simpl.
      * now rewrite Z.eqb_refl.
      * rewrite Z.eqb_sym, He. exact IH.
Qed.

Lemma find_insert_ne k k2 v m : k2 <> k -> find k2 (insert k v m) = find k2 m.
Proof.
  intros Hne. induction m as [|[k' v'] rest IH]; simpl.
  - destruct (k =? k2) eqn:E; [apply Z.eqb_eq in E; congruence | reflexivity].
  - destruct (k <? k') eqn:Hlt; simpl.
    + destruct (k =? k2) eqn:E; [apply Z.eqb_eq in E; congruence | reflexivity].
    + destruct (k =? k') eqn:He; simpl.
      * apply Z.eqb_eq in He. subst k'.
        destruct (k =? k2) eqn:E; [apply Z.eqb_eq in E; congruence | reflexivity].
      * now rewrite IH.
Qed.

Lemma find_erase_ne k k2 m : k2 <> k -> find k2 (erase k m) = find k2 m.
Proof.
  intros Hne. induction m as [|[k' v'] rest IH]; simpl; [reflexivity|].
  destruct (k' =? k) eqn:E; simpl.
  - apply Z.eqb_eq in E. subst k'.
    destruct (k =? k2) eqn:E2; [apply Z.eqb_eq in E2; congruence | reflexivity].
  - now rewrite IH.
Qed.

Lemma find_none_above k m :
  forallb (fun e => k <? fst e) m = true -> find k m = None.
Proof.
  induction m as [|[k' v'] rest IH]; simpl; [reflexivity|].
  intros H. apply andb_true_iff in H. destruct H as [H1 H2].
  apply Z.ltb_lt in H1.
  destruct (k' =? k) eqn:E; [apply Z.eqb_eq in E; lia | auto].
Qed.

Lemma find_erase_eq k m : sorted m = true -> find k (erase k m) = None.
Proof.
  induction m as [|[k' v'] rest IH]; simpl; [reflexivity|].
  intros H. apply andb_true_iff in H. destruct H as [H1 H2].
  destruct (k' =? k) eqn:E; simpl.
  - apply Z.eqb_eq in E. subst k'. now apply find_none_above.
  - rewrite E. auto.
Qed.

Lemma forallb_above_insert b k v m :
  (b <? k) = true ->
  forallb (fun e : Z * V => b <? fst e) m = true ->
  forallb (fun e : Z * V => b <? fst e) (insert k v m) = true.
Proof.
  intros Hb. induction m as [|[k' v'] rest IH]; simpl.
  - now rewrite Hb.
  - intros H. apply andb_true_iff in H. destruct H as [H1 H2].
    destruct (k <? k'); simpl; [now rewrite Hb, H1, H2|].
    destruct (k =? k'); simpl; [now rewrite Hb, H2|].
    now rewrite H1, IH.
Qed.

Lemma sorted_insert k v m : sorted m = true -> sorted (insert k v m) = true.
Proof.
  induction m as [|[k' v'] rest IH]; simpl; [reflexivity|].
  intros H. apply andb_true_iff in H. destruct H as [H1 H2].
  destruct (k <? k') eqn:Hlt; simpl.
  - rewrite Hlt, H1, H2. simpl. apply andb_true_iff. split; [|reflexivity].
    apply Z.ltb_lt in Hlt. rewrite forallb_forall in *. intros e He.
    specialize (H1 e He). apply Z.ltb_lt in H1. apply Z.ltb_lt. lia.
  - destruct (k =? k') eqn:He; simpl.
    + apply Z.eqb_eq in He. subst k'. now rewrite H1, H2.
    + rewrite IH by assumption. rewrite andb_true_r.
      apply forallb_above_insert; [|assumption].
      apply Z.ltb_ge in Hlt. apply Z.eqb_neq in He. apply Z.ltb_lt. lia.
Qed.

Lemma forallb_above_erase b k m :
  forallb (fun e : Z * V => b <? fst e) m = true ->
  forallb (fun e : Z * V => b <? fst e) (erase k m) = true.
Proof.
  induction m as [|[k' v'] rest IH]; simpl; [reflexivity|].
  intros H. apply andb_true_iff in H. destruct H as [H1 H2].
  destruct (k' =? k); simpl; [assumption|]. now rewrite H1, IH.
Qed.

Lemma sorted_erase k m : sorted m = true -> sorted (erase k m) = true.
Proof.
  induction m as [|[k' v'] rest IH]; simpl; [reflexivity|].
  intros H. apply andb_true_iff in H. destruct H as [H1 H2].
  destruct (k' =? k); simpl; [assumption|].
  now rewrite forallb_above_erase, IH.
Qed.

Lemma sorted_tail e m : sorted (e :: m) = true -> sorted m = true.
Proof. destruct e. simpl. intros H. apply andb_true_iff in H. tauto. Qed.

End Facts.

End OMapFacts.

(** ** Calls and arrays *)

Lemma woken_app a b : woken (a ++ b) = woken a ++ woken b.
Proof. unfold woken. now rewrite flat_map_app. Qed.

Lemma woken_notify_all ws e p :
  woken (notify_all ws e p) = map (fun w => (w, e, p)) ws.
Proof. induction ws as [|w ws IH]; simpl; [reflexivity|]. now rewrite <- IH. Qed.

Lemma freed_app i a b : freed i (a ++ b) = freed i a || freed i b.
Proof. unfold freed. now rewrite existsb_app. Qed.

Lemma freed_notify_all i ws e p : freed i (notify_all ws e p) = false.
Proof. induction ws as [|w ws IH]; simpl; [reflexivity|exact IH]. Qed.

Lemma firstn_array_set (n : nat) (v : Z) (a : list Z) :
  (n < length a)%nat -> firstn (S n) (array_set n v a) = firstn n a ++ [v].
Proof.
  revert a. induction n as [|n IH]; intros [|x a] H; simpl in *; try lia.
  - reflexivity.
  - f_equal. apply IH. lia.
Qed.

(** ** Generational events *)

Module GenEventImplFacts.

Import GenEventImpl.

Lemma is_generation_poisoned_iff (s : impl) (g : Z) :
  is_generation_poisoned s g = true <-> In g (poisoned_list s).
Proof.
  unfold is_generation_poisoned.
  destruct (num_poisoned_generations s =? 0) eqn:E.
  - apply Z.eqb_eq in E. unfold poisoned_list. rewrite E. simpl.
    split; [discriminate | tauto].
  - rewrite existsb_exists. split.
    + intros [x [Hin Hx]]. apply Z.eqb_eq in Hx. now subst.
    + intros Hin. exists g. split; [assumption | apply Z.eqb_refl].
Qed.

(** C4.  [has_triggered(gen_needed)] answers from [generation] and the poison
    list when [gen_needed <= generation]; otherwise it says "no" when the node
    has recorded no local trigger, and else answers from
    [local_triggers[gen_needed]]: triggered with the recorded poison bit when
    the entry is present, not triggered when it is absent. *)
Theorem has_triggered_cases (s : impl) (gen_needed : Z) :
  (gen_needed <= generation s ->
   exists b, has_triggered s gen_needed = (true, b)
             /\ b = is_generation_poisoned s gen_needed
             /\ (b = true <-> In gen_needed (poisoned_list s)))
  /\ (generation s < gen_needed -> has_local_triggers s = false ->
      has_triggered s gen_needed = (false, false))
  /\ (generation s < gen_needed -> has_local_triggers s = true ->
      forall p, OMap.find gen_needed (local_triggers s) = Some p ->
                has_triggered s gen_needed = (true, p))
  /\ (generation s < gen_needed -> has_local_triggers s = true ->
      OMap.find gen_needed (local_triggers s) = None ->
      has_triggered s gen_needed = (false, false)).
Proof.
  unfold has_triggered. repeat split.
  - intros H. apply Z.leb_le in H. rewrite H.
    exists (is_generation_poisoned s gen_needed).
    repeat split; try apply is_generation_poisoned_iff; auto.
  - intros H Hl. apply Z.leb_gt in H. now rewrite H, Hl.
  - intros H Hl p Hp. apply Z.leb_gt in H. now rewrite H, Hl, Hp.
  - intros H Hl Hp. apply Z.leb_gt in H. now rewrite H, Hl, Hp.
Qed.

(** C5.  On the owner, a trigger of the next generation completes; it
    publishes [gen_triggered] as the generation, appends it to the poisoned
    generations exactly when [poisoned], wakes exactly the current local
    waiters (leaving none queued), and returns the object to the free list
    iff the poison count after the trigger is below the limit.  The other
    hypotheses are the assertions of the owner path. *)
Theorem trigger_owner_next_generation
    (mynode limit : Z) (s : impl) (gen_triggered trigger_node : Z)
    (poisoned : bool) :
  mynode = owner s ->
  gen_triggered = u32 (generation s + 1) ->
  future_local_waiters s = [] ->
  poison_wf limit s ->
  (poisoned = true -> num_poisoned_generations s < limit) ->
  exists s' acts,
    trigger mynode limit s gen_triggered trigger_node poisoned = Some (s', acts)
    /\ generation s' = gen_triggered
    /\ poisoned_list s' =
         poisoned_list s ++ (if poisoned then [gen_triggered] else [])
    /\ woken acts = map (fun w => (w, make_event s gen_triggered, poisoned))
                        (current_local_waiters s)
    /\ current_local_waiters s' = []
    /\ (freed (me s) acts = true <-> num_poisoned_generations s' < limit).
Proof.
  intros Hown Hgen Hfut [Hnum Harr] Hbudget.
  unfold trigger, trigger_owner.
  rewrite Hown, Z.eqb_refl, Hgen, Z.eqb_refl, Hfut. simpl OMap.empty. cbv iota.
  assert (Hb : negb poisoned
               || (num_poisoned_generations s <? limit) = true).
  { destruct poisoned; simpl; [apply Z.ltb_lt; auto | reflexivity]. }
  rewrite Hb. eexists. eexists. split; [reflexivity|].
  simpl generation. simpl current_local_waiters.
  simpl num_poisoned_generations.
  repeat split.
  - unfold poisoned_list. simpl.
    destruct poisoned; [|now rewrite app_nil_r].
    specialize (Hbudget eq_refl).
    replace (Z.to_nat (num_poisoned_generations s + 1))
      with (S (Z.to_nat (num_poisoned_generations s))) by lia.
    destruct Harr as [[Hnil H0] | Hlen].
    + rewrite Hnil, H0. simpl Z.to_nat.
      rewrite firstn_array_set; [reflexivity|]. rewrite repeat_length. lia.
    + destruct (poisoned_generations s) as [|x a] eqn:Ea.
      * simpl in Hlen. lia.
      * rewrite firstn_array_set; [reflexivity|]. lia.
  - rewrite !woken_app, woken_notify_all.
    destruct (remote_waiters s);
      match goal with
      | |- context [if ?c then [FreeEntry _] else []] => destruct c
      end; reflexivity.
  - rewrite !freed_app, freed_notify_all.
    match goal with
    | |- context [if ?c then [FreeEntry _] else []] => destruct c eqn:E
    end; [intros _; now apply Z.ltb_lt in E|].
    destruct (remote_waiters s); simpl; discriminate.
  - intros H. apply Z.ltb_lt in H. rewrite !freed_app, H. simpl.
    rewrite Z.eqb_refl. now rewrite orb_true_r.
Qed.

(** A poisoned trigger on an owner that already holds two waiters. *)
Lemma trigger_owner_next_generation_witness :
  let s := mk 7 0 3 0 1 [2; 0; 0; 0] false [] [11; 12] [] [5] in
  exists s' acts,
    trigger 0 4 s 4 0 true = Some (s', acts)
    /\ generation s' = 4
    /\ poisoned_list s' = poisoned_list s ++ [4]
    /\ woken acts = map (fun w => (w, make_event s 4, true))
                        (current_local_waiters s)
    /\ current_local_waiters s' = []
    /\ (freed (me s) acts = true <-> num_poisoned_generations s' < 4).
Proof.
  intros s.
  apply (trigger_owner_next_generation 0 4 s 4 0 true).
  - reflexivity.
  - reflexivity.
  - reflexivity.
  - split; [simpl; lia | right; reflexivity].
  - intros _. simpl. lia.
Defined.

Lemma length_array_set (i : nat) (v : Z) (a : list Z) :
  length (array_set i v a) = length a.
Proof.
  revert i. induction a as [|x a IH]; intros [|i]; simpl; auto.
Qed.

(** The owner's trigger keeps the poison array well formed, so the
    hypothesis of C5 holds again at the next trigger. *)
Lemma trigger_owner_keeps_poison_wf
    (limit : Z) (s s' : impl) (g : Z) (p : bool) (acts : list Action) :
  poison_wf limit s ->
  trigger_owner limit s g p = Some (s', acts) ->
  poison_wf limit s'.
Proof.
  intros [Hnum Harr]. unfold trigger_owner.
  destruct (g =? u32 (generation s + 1)); [|discriminate].
  destruct (OMap.empty (future_local_waiters s)); [|discriminate].
  destruct p; simpl negb; simpl orb.
  - destruct (num_poisoned_generations s <? limit) eqn:E; [|discriminate].
    apply Z.ltb_lt in E. intros [= <- _]. unfold poison_wf. simpl.
    split; [lia|]. right. rewrite length_array_set.
    destruct Harr as [[Hnil _] | Hlen].
    + rewrite Hnil, repeat_length. lia.
    + destruct (poisoned_generations s); [simpl in Hlen; lia | exact Hlen].
  - intros [= <- _]. unfold poison_wf. simpl. auto.
Qed.

(** C6.  On a non-owner, a trigger of a generation beyond the next one
    completes; it leaves [generation] alone, wakes only the waiters queued
    for [gen_triggered] in [future_local_waiters], records
    [local_triggers[gen_triggered] = poisoned], and leaves every other waiter
    list as it was. *)
Theorem trigger_remote_future_generation
    (mynode limit : Z) (s : impl) (gen_triggered trigger_node : Z)
    (poisoned : bool) :
  mynode <> owner s ->
  trigger_node = mynode ->
  gen_triggered > u32 (generation s + 1) ->
  exists s' acts,
    trigger mynode limit s gen_triggered trigger_node poisoned = Some (s', acts)
    /\ generation s' = generation s
    /\ woken acts =
         map (fun w => (w, make_event s gen_triggered, poisoned))
             (match OMap.find gen_triggered (future_local_waiters s) with
              | Some ws => ws
              | None => []
              end)
    /\ local_triggers s' = OMap.insert gen_triggered poisoned (local_triggers s)
    /\ OMap.find gen_triggered (local_triggers s') = Some poisoned
    /\ (forall g, g <> gen_triggered ->
                  OMap.find g (local_triggers s') = OMap.find g (local_triggers s))
    /\ has_local_triggers s' = true
    /\ current_local_waiters s' = current_local_waiters s
    /\ future_local_waiters s' =
         OMap.erase gen_triggered (future_local_waiters s)
    /\ (forall g, g <> gen_triggered ->
                  OMap.find g (future_local_waiters s')
                  = OMap.find g (future_local_waiters s))
    /\ (OMap.sorted (future_local_waiters s) = true ->
        OMap.find gen_triggered (future_local_waiters s') = None).
Proof.
  intros Hown Hnode Hgen.
  unfold trigger, trigger_remote.
  apply Z.eqb_neq in Hown. rewrite Hown, Hnode, Z.eqb_refl.
  assert (Hne : (gen_triggered =? u32 (generation s + 1)) = false)
    by (apply Z.eqb_neq; lia).
  assert (Hgt : (gen_triggered >? u32 (generation s + 1)) = true)
    by (apply Z.gtb_lt; lia).
  rewrite Hne, Hgt.
  assert (Herase : forall m : OMap.t (list Waiter),
             OMap.find gen_triggered m = None -> OMap.erase gen_triggered m = m).
  { induction m as [|[k v] m IH]; simpl; [reflexivity|].
    destruct (k =? gen_triggered); [discriminate|]. intros H. now rewrite IH. }
  destruct (OMap.find gen_triggered (future_local_waiters s)) as [ws|] eqn:Ef;
    (eexists; eexists; split; [reflexivity|]); simpl;
    rewrite ?woken_notify_all; repeat split;
    try apply OMapFacts.find_insert_eq;
    try (intros g Hg; now apply OMapFacts.find_insert_ne);
    try (intros g Hg; now apply OMapFacts.find_erase_ne);
    try (intros Hs; now apply OMapFacts.find_erase_eq);
    try (symmetry; now apply Herase);
    try (intros g Hg; reflexivity);
    try (intros _; assumption).
Qed.

(** A non-owner at generation 1 triggers generation 5, for which two waiters
    are queued, next to a waiter for generation 2 and one for generation 7. *)
Lemma trigger_remote_future_generation_witness :
  let s := mk 7 0 1 3 0 [] false [] [21] [(5, [31; 32]); (7, [41])] [] in
  exists s' acts,
    trigger 1 4 s 5 1 true = Some (s', acts)
    /\ generation s' = 1
    /\ woken acts = [(31, make_event s 5, true); (32, make_event s 5, true)]
    /\ local_triggers s' = [(5, true)]
    /\ current_local_waiters s' = [21]
    /\ future_local_waiters s' = [(7, [41])].
Proof.
  intros s.
  destruct (trigger_remote_future_generation 1 4 s 5 1 true)
    as (s' & acts & Ht & Hg & Hw & Hl & _ & _ & _ & Hc & Hf & _).
  - simpl. lia.
  - reflexivity.
  - vm_compute. reflexivity.
  - exists s', acts. repeat split; assumption.
Defined.

(** The waiter maps stay sorted, so the sortedness that C6 asks of
    [future_local_waiters] for its last conclusion is kept by the methods. *)
Lemma add_waiter_keeps_future_sorted
    (mynode : Z) (s s' : impl) (g : Z) (w : Waiter) (acts : list Action) :
  OMap.sorted (future_local_waiters s) = true ->
  add_waiter mynode s g w = Some (s', acts) ->
  OMap.sorted (future_local_waiters s') = true.
Proof.
  intros Hs. unfold add_waiter.
  destruct (g <=? generation s); [now intros [= <- _]|].
  destruct (OMap.find g (local_triggers s)).
  { destruct (negb (owner s =? mynode)); [now intros [= <- _]|discriminate]. }
  destruct (g =? u32 (generation s + 1)).
  - now intros [= <- _].
  - destruct (negb (owner s =? mynode)); [|discriminate].
    intros [= <- _]. simpl. now apply OMapFacts.sorted_insert.
Qed.

Lemma trigger_keeps_future_sorted
    (mynode limit : Z) (s s' : impl) (g node : Z) (p : bool)
    (acts : list Action) :
  OMap.sorted (future_local_waiters s) = true ->
  trigger mynode limit s g node p = Some (s', acts) ->
  OMap.sorted (future_local_waiters s') = true.
Proof.
  intros Hs. unfold trigger, trigger_owner, trigger_remote.
  destruct (mynode =? owner s).
  - destruct (g =? u32 (generation s + 1)); [|discriminate].
    destruct (OMap.empty (future_local_waiters s)); [|discriminate].
    destruct (negb p || _); [|discriminate].
    now intros [= <- _].
  - destruct (node =? mynode); [|discriminate].
    destruct (g =? u32 (generation s + 1)).
    + destruct (future_local_waiters s) as [|[k ws] rest] eqn:Ef.
      * now intros [= <- _].
      * destruct (k =? u32 (generation s + 1)); intros [= <- _]; simpl.
        -- now apply OMapFacts.sorted_tail in Hs.
        -- exact Hs.
    + destruct (g >? u32 (generation s + 1)); [|discriminate].
      destruct (OMap.find g (future_local_waiters s));
        intros [= <- _]; simpl; [now apply OMapFacts.sorted_erase | exact Hs].
Qed.

(** The counterexample to C9: a fresh event on its owner (node 0) satisfies
    [gen_subscribed >= generation]; after its first trigger the generation is
    1 and [gen_subscribed] is still 0. *)
Lemma gen_subscribed_below_generation_on_owner :
  exists s' acts,
    trigger 0 16 (init 7 0) 1 0 false = Some (s', acts)
    /\ gen_subscribed (init 7 0) >= generation (init 7 0)
    /\ ~ gen_subscribed s' >= generation s'.
Proof.
  eexists. eexists. split; [reflexivity|]. simpl. split; lia.
Qed.

Lemma add_waiter_gen_subscribed (mynode : Z) (s s' : impl) (g : Z) (w : Waiter)
    (acts : list Action) :
  add_waiter mynode s g w = Some (s', acts) ->
  generation s' = generation s
  /\ gen_subscribed s' >= gen_subscribed s
  /\ (mynode = owner s -> gen_subscribed s' = gen_subscribed s).
Proof.
  unfold add_waiter.
  destruct (g <=? generation s); [intros [= <- _]; repeat split; lia|].
  destruct (OMap.find g (local_triggers s)).
  { destruct (negb (owner s =? mynode)); [|discriminate].
    intros [= <- _]. repeat split; lia. }
  destruct (owner s =? mynode) eqn:Eo; simpl negb; simpl andb.
  - destruct (g =? u32 (generation s + 1)); [|discriminate].
    intros [= <- _]. simpl. repeat split; lia.
  - assert (Hne : mynode <> owner s)
      by (apply Z.eqb_neq in Eo; congruence).
    destruct (g =? u32 (generation s + 1));
      (intros [= <- _]; simpl; split; [reflexivity|]; split; [|tauto]);
      destruct (gen_subscribed s <? g) eqn:El; try lia;
      apply Z.ltb_lt in El; lia.
Qed.

Lemma trigger_gen_subscribed (mynode limit : Z) (s s' : impl) (g node : Z)
    (p : bool) (acts : list Action) :
  trigger mynode limit s g node p = Some (s', acts) ->
  (g = u32 (generation s + 1)
   /\ generation s' = g /\ gen_subscribed s' = gen_subscribed s)
  \/ (mynode <> owner s /\ g > u32 (generation s + 1)
      /\ generation s' = generation s /\ gen_subscribed s' = g).
Proof.
  unfold trigger, trigger_owner, trigger_remote.
  destruct (mynode =? owner s) eqn:Eo.
  - destruct (g =? u32 (generation s + 1)) eqn:Eg; [|discriminate].
    apply Z.eqb_eq in Eg.
    destruct (OMap.empty (future_local_waiters s)); [|discriminate].
    destruct (negb p || _); [|discriminate].
    intros [= <- _]. left. simpl. auto.
  - apply Z.eqb_neq in Eo.
    destruct (node =? mynode); [|discriminate].
    destruct (g =? u32 (generation s + 1)) eqn:Eg.
    + apply Z.eqb_eq in Eg.
      destruct (future_local_waiters s) as [|[k ws] rest];
        [|destruct (k =? u32 (generation s + 1))];
        intros [= <- _]; left; simpl; auto.
    + destruct (g >? u32 (generation s + 1)) eqn:Egt; [|discriminate].
      apply Z.gtb_lt in Egt.
      destruct (OMap.find g (future_local_waiters s));
        intros [= <- _]; right; simpl; repeat split; auto; lia.
Qed.

Lemma process_update_gen_subscribed (mynode limit : Z) (s s' : impl)
    (current_gen : Z) (new_poisoned : list Z) (acts : list Action) :
  process_update mynode limit s current_gen new_poisoned = Some (s', acts) ->
  gen_subscribed s' = gen_subscribed s
  /\ generation s' = Z.max (generation s) current_gen.
Proof.
  unfold process_update.
  destruct (negb (owner s =? mynode)); [|discriminate].
  match goal with |- (if ?c then _ else _) = _ -> _ => destruct c end;
    [|discriminate].
  destruct (current_gen <=? generation s) eqn:Ec.
  { apply Z.leb_le in Ec. intros [= <- _]. split; lia. }
  apply Z.leb_gt in Ec.
  match goal with |- (if ?c then _ else _) = _ -> _ => destruct c end;
    [|discriminate].
  match goal with
  | |- match ?t with pair _ _ => _ end = _ -> _ => destruct t as [[tw cur] fut]
  end.
  match goal with
  | |- match ?t with Some _ => _ | None => _ end = _ -> _ => destruct t
  end; [|discriminate].
  intros [= <- _]. simpl. split; lia.
Qed.

(** C9, as the code has it.  [add_waiter] keeps [gen_subscribed >= generation]
    on every node (it never lowers [gen_subscribed], never touches
    [generation], and leaves [gen_subscribed] alone on the owner), and a
    non-owner's trigger of a generation beyond the next establishes it by
    setting [gen_subscribed] to [gen_triggered].  A trigger of the next
    generation (on the owner or not) and [process_update] move [generation]
    and leave [gen_subscribed] as it was. *)
Theorem gen_subscribed_vs_generation
    (mynode limit : Z) (s s' : impl) (acts : list Action) :
  gen_subscribed s >= generation s ->
  0 <= generation s < 2 ^ 32 - 1 ->
  (forall g w,
      add_waiter mynode s g w = Some (s', acts) ->
      generation s' = generation s
      /\ gen_subscribed s' >= gen_subscribed s
      /\ (mynode = owner s -> gen_subscribed s' = gen_subscribed s)
      /\ gen_subscribed s' >= generation s')
  /\ (forall g node p,
         trigger mynode limit s g node p = Some (s', acts) ->
         (g = generation s + 1
          /\ generation s' = g /\ gen_subscribed s' = gen_subscribed s)
         \/ (mynode <> owner s /\ g > generation s + 1
             /\ generation s' = generation s /\ gen_subscribed s' = g
             /\ gen_subscribed s' >= generation s'))
  /\ (forall current_gen new_poisoned,
         process_update mynode limit s current_gen new_poisoned
           = Some (s', acts) ->
         gen_subscribed s' = gen_subscribed s
         /\ generation s' = Z.max (generation s) current_gen).
Proof.
  intros Hinv Hrange.
  assert (Hu : u32 (generation s + 1) = generation s + 1)
    by (apply u32_id; lia).
  repeat split.
  - now apply (add_waiter_gen_subscribed mynode s s' g w acts).
  - apply (add_waiter_gen_subscribed mynode s s' g w acts) in H. lia.
  - apply (add_waiter_gen_subscribed mynode s s' g w acts) in H. tauto.
  - apply (add_waiter_gen_subscribed mynode s s' g w acts) in H. lia.
  - intros g node p H. apply trigger_gen_subscribed in H. rewrite Hu in H.
    destruct H as [H | (H1 & H2 & H3 & H4)]; [left; exact H | right].
    repeat split; auto; lia.
  - now apply (process_update_gen_subscribed mynode limit s s' current_gen
                 new_poisoned acts).
  - now apply (process_update_gen_subscribed mynode limit s s' current_gen
                 new_poisoned acts).
Qed.

(** A non-owner (node 1) at generation 1, subscribed to generation 2, queues
    a waiter for generation 4 and subscribes up to there. *)
Lemma gen_subscribed_vs_generation_witness :
  let s := mk 7 0 1 2 0 [] false [] [] [] [] in
  let s' := mk 7 0 1 4 0 [] false [] [] [(4, [51])] [] in
  let acts := [EventSubscribeMessage 0 (mkEvent 7 4) 2] in
  add_waiter 1 s 4 51 = Some (s', acts)
  /\ generation s' = generation s
  /\ gen_subscribed s' >= gen_subscribed s
  /\ (1 = owner s -> gen_subscribed s' = gen_subscribed s)
  /\ gen_subscribed s' >= generation s'.
Proof.
  intros s s' acts. split; [reflexivity|].
  refine (proj1 (gen_subscribed_vs_generation 1 16 s s' acts _ _) 4 51 _).
  - simpl. lia.
  - simpl. lia.
  - reflexivity.
Defined.

End GenEventImplFacts.

(** ** Barriers *)

Module BarrierImplFacts.

Import BarrierImpl.

Lemma filter_all_above (ts k : Z) (m : OMap.t Z) :
  ts < k -> forallb (fun e : Z * Z => k <? fst e) m = true ->
  due ts m = [] /\ not_due ts m = m.
Proof.
  intros Hk. induction m as [|[k' v] m IH]; simpl; [auto|].
  intros H. apply andb_true_iff in H. destruct H as [H1 H2].
  apply Z.ltb_lt in H1.
  assert (E : (k' <=? ts) = false) by (apply Z.leb_gt; lia).
  rewrite E. simpl. destruct (IH H2) as [-> ->]. auto.
Qed.

Lemma apply_pending_sorted (ts : Z) (m : OMap.t Z) (x : Z) :
  OMap.sorted m = true ->
  apply_pending ts m (i32 x)
  = (i32 (x + sum_values (due ts m)), not_due ts m).
Proof.
  revert x. induction m as [|[k v] m IH]; intros x Hs; simpl.
  - now rewrite Z.add_0_r.
  - simpl in Hs. apply andb_true_iff in Hs. destruct Hs as [Hk Hs].
    destruct (k <=? ts) eqn:E; simpl.
    + rewrite i32_add_l, IH by assumption. f_equal. f_equal. lia.
    + apply Z.leb_gt in E.
      destruct (filter_all_above ts k m E Hk) as [Hd Hn].
      unfold due, not_due in *. rewrite Hd, Hn. simpl.
      now rewrite Z.add_0_r.
Qed.









Lemma sorted_not_due (ts : Z) (m : OMap.t Z) :
  OMap.sorted m = true -> OMap.sorted (not_due ts m) = true.
Proof.
  unfold not_due. induction m as [|[k v] m IH]; simpl; [reflexivity|].
  intros H. apply andb_true_iff in H. destruct H as [Hk Hs].
  destruct (negb (k <=? ts)); simpl; [|auto].
  rewrite IH by assumption. rewrite andb_true_r.
  rewrite forallb_forall in *. intros e He.
  apply filter_In in He. apply Hk. tauto.
Qed.

Lemma not_due_above (ts : Z) (m : OMap.t Z) :
  forallb (fun e : Z * Z => ts <? fst e) (not_due ts m) = true.
Proof.
  apply forallb_forall. intros e He. apply filter_In in He.
  destruct He as [_ He]. apply negb_true_iff, Z.leb_gt in He.
  apply Z.ltb_lt. lia.
Qed.

(** [handle_adjustment] keeps the bookkeeping of the node it touches in
    order, so the hypothesis of the theorem above holds again for the next
    adjustment. *)
Lemma handle_adjustment_keeps_pernode_ok
    (shift fresh : Z) (g : Generation) (ts delta : Z) :
  ts <> 0 ->
  pernode_ok (pernode_entry fresh g (node_of shift ts)) = true ->
  pernode_ok (pernode_entry fresh (handle_adjustment shift fresh g ts delta)
                            (node_of shift ts)) = true.
Proof.
  intros Hts Hok. unfold pernode_ok in *.
  apply andb_true_iff in Hok. destruct Hok as [Hs Ha].
  assert (E0 : (ts =? 0) = false) by now apply Z.eqb_neq.
  unfold handle_adjustment. rewrite E0.
  set (pn := pernode_entry fresh g (node_of shift ts)) in *.
  destruct (delta >? 0).
  - rewrite apply_pending_sorted by assumption.
    unfold pernode_entry. simpl. rewrite OMapFacts.find_insert_eq. simpl.
    now rewrite sorted_not_due, not_due_above.
  - destruct (ts <=? last_ts pn) eqn:El.
    + unfold pernode_entry. simpl. rewrite OMapFacts.find_insert_eq.
      now rewrite Hs, Ha.
    + unfold pernode_entry. simpl. rewrite OMapFacts.find_insert_eq. simpl.
      rewrite OMapFacts.sorted_insert by assumption.
      apply OMapFacts.forallb_above_insert; [|assumption].
      apply Z.leb_gt in El. now apply Z.ltb_lt.
Qed.


Lemma trackers_all_beyond (t k : Z) (gens : OMap.t Generation) :
  t < k -> forallb (fun e : Z * Generation => k <? fst e) gens = true ->
  waiters_through t gens = [] /\ trackers_beyond t gens = gens.
Proof.
  intros Hk. unfold waiters_through, trackers_beyond.
  induction gens as [|[k' g] gens IH]; simpl; [auto|].
  intros H. apply andb_true_iff in H. destruct H as [H1 H2].
  apply Z.ltb_lt in H1.
  assert (E : (k' <=? t) = false) by (apply Z.leb_gt; lia).
  rewrite E. simpl. destruct (IH H2) as [-> ->]. auto.
Qed.

Lemma collect_waiters_sorted (t : Z) (gens : OMap.t Generation)
    (notes : list Waiter) :
  OMap.sorted gens = true ->
  collect_waiters t gens notes
  = (notes ++ waiters_through t gens, trackers_beyond t gens).
Proof.
  revert notes. induction gens as [|[k g] gens IH]; intros notes Hs; simpl.
  - now rewrite app_nil_r.
  - simpl in Hs. apply andb_true_iff in Hs. destruct Hs as [Hk Hs].
    rewrite Z.gtb_ltb, Z.ltb_antisym.
    unfold waiters_through, trackers_beyond. simpl.
    destruct (k <=? t) eqn:E; simpl.
    + rewrite IH by assumption. unfold waiters_through, trackers_beyond.
      now rewrite <- app_assoc.
    + apply Z.leb_gt in E.
      destruct (trackers_all_beyond t k gens E Hk) as [Hw Ht].
      unfold waiters_through, trackers_beyond in *. rewrite Hw, Ht.
      now rewrite app_nil_r.
Qed.

(** Without a reduction payload the hold-and-release of C8 works: a message
    for the range after [p] that arrives before the message that ends at [p]
    wakes nobody, leaves [generation] and the trackers alone and is held
    under [held_triggers[p]]; the message that closes the gap absorbs it,
    moves [generation] to the end of the held range and wakes every waiter
    up to there in generation order. *)
Lemma out_of_order_triggers_without_payload
    (table : Z -> option ReductionOp) (s : impl)
    (node bid p t fg rid fg' rid' : Z) :
  p <> generation s ->
  held_triggers s = [] ->
  OMap.sorted (generations s) = true ->
  let late := mkRequestArgs node bid t p fg rid in
  let early := mkRequestArgs node bid p (generation s) fg' rid' in
  exists s1 s2 acts,
    handle_request table s late [] = Some (s1, [])
    /\ generation s1 = generation s
    /\ generations s1 = generations s
    /\ held_triggers s1 = [(p, t)]
    /\ handle_request table s1 early [] = Some (s2, acts)
    /\ generation s2 = t
    /\ held_triggers s2 = []
    /\ woken acts = map (fun w => (w, mkEvent bid p, false))
                        (waiters_through t (generations s))
    /\ generations s2 = trackers_beyond t (generations s).
Proof.
  intros Hp Hheld Hs late early.
  unfold handle_request. simpl.
  apply Z.eqb_neq in Hp. rewrite Hp, Hheld. simpl.
  exists (with_trigger s (generation s) (generations s) [(p, t)]).
  simpl. rewrite !Z.eqb_refl. rewrite collect_waiters_sorted by assumption.
  simpl. eexists. eexists.
  split; [reflexivity|]. split; [reflexivity|]. split; [reflexivity|].
  split; [reflexivity|]. split; [reflexivity|]. simpl.
  split; [reflexivity|]. split; [reflexivity|].
  split; [apply woken_notify_all | reflexivity].
Qed.

(** Scenario S7 on a barrier without reduction: with waiters 71 and 72 on
    generations 2 and 3, the trigger for (2, 3] arrives before the one for
    (1, 2]; nobody is woken until the second arrives, then both waiters are,
    in generation order. *)
Example out_of_order_triggers_scenario :
  let table := fun _ : Z => @None ReductionOp in
  let s0 := mk 9 0 1 3 0 (2 ^ 32 - 1) 2
               [(2, mkGeneration 0 [71] []); (3, mkGeneration 0 [72] [])]
               [] [] [] 0 None 0 0 [] in
  exists s1 s2,
    handle_request table s0 (mkRequestArgs 0 9 3 2 0 0) [] = Some (s1, [])
    /\ generation s1 = 1
    /\ handle_request table s1 (mkRequestArgs 0 9 2 1 0 0) []
       = Some (s2, [EventTriggered 71 (mkEvent 9 2) false;
                    EventTriggered 72 (mkEvent 9 2) false])
    /\ generation s2 = 3
    /\ generations s2 = []
    /\ held_triggers s2 = [].
Proof.
  intros table s0. eexists. eexists.
  split; [reflexivity|]. split; [reflexivity|].
  split; [reflexivity|]. repeat split.
Qed.

(** With a reduction payload the release fails: a message that continues
    the local generation, carries as many values as generations it covers,
    and absorbs a held range, never gets past its own length check, because
    the check reads the trigger generation that the absorb loop rewrote. *)
Lemma absorbing_trigger_with_payload_aborts
    (table : Z -> option ReductionOp) (s : impl) (args : RequestArgs)
    (data : list Z) :
  args_previous_gen args = generation s ->
  data <> [] ->
  Z.of_nat (length data)
    = u32 (args_trigger_gen args - args_previous_gen args) ->
  u32 (fst (absorb_held (args_trigger_gen args) (held_triggers s))
       - args_previous_gen args)
    <> u32 (args_trigger_gen args - args_previous_gen args) ->
  handle_request table s args data = None.
Proof.
  intros Hprev Hdata Hlen Habsorbed.
  unfold handle_request. rewrite Hprev, Z.eqb_refl.
  destruct (absorb_held (args_trigger_gen args) (held_triggers s))
    as [tg held] eqn:Ea.
  destruct (collect_waiters tg (generations s) []) as [notes gens].
  simpl in Habsorbed.
  destruct data as [|v data]; [congruence|].
  destruct (negb (args_redop_id args =? 0)); [|reflexivity].
  destruct (table (args_redop_id args)); [|reflexivity].
  destruct (i32 (tg - args_first_generation args) >? 0); [|reflexivity].
  match goal with
  | |- (let '(_, _) := ?c in _) = None => destruct c as [cap vals]
  end.
  rewrite Hprev in Hlen, Habsorbed. rewrite Hlen.
  apply Z.eqb_neq in Habsorbed. rewrite Z.eqb_sym in Habsorbed.
  now rewrite Habsorbed.
Qed.

(** C8 on a barrier with a reduction operator.  The barrier is at generation
    1 with one waiter on generation 2 and one on generation 3.  The message
    for the range (2, 3] arrives first with its value and is held.  The
    message for the range (1, 2] then absorbs the held range, which rewrites
    [args.trigger_gen] to 3; the length check of its own payload against
    [args.trigger_gen - args.previous_gen] fails, and the call stops before
    any waiter is notified. *)
Lemma out_of_order_trigger_with_payload_aborts :
  let table := fun rid : Z => if rid =? 1 then Some Z.add else None in
  let s0 := mk 9 0 1 3 0 (2 ^ 32 - 1) 2
               [(2, mkGeneration 0 [71] []); (3, mkGeneration 0 [72] [])]
               [] [] [] 1 (Some Z.add) 0 1 [42] in
  let late := mkRequestArgs 0 9 3 2 0 1 in
  let early := mkRequestArgs 0 9 2 1 0 1 in
  exists s1,
    handle_request table s0 late [35] = Some (s1, [])
    /\ generation s1 = 1
    /\ held_triggers s1 = [(2, 3)]
    /\ final_values s1 = [42; 0; 35]
    /\ handle_request table s1 early [7] = None.
Proof.
  intros table s0 late early. eexists.
  split; [reflexivity|]. repeat split.
Qed.

Lemma unpoisoned_notify_all ws e rest :
  woken rest = [] -> unpoisoned (notify_all ws e POISON_FIXME ++ rest).
Proof.
  intros Hr. unfold unpoisoned. rewrite woken_app, woken_notify_all, Hr.
  rewrite app_nil_r. apply Forall_forall. intros x Hx.
  apply in_map_iff in Hx. destruct Hx as [w [<- _]]. reflexivity.
Qed.

Lemma woken_trigger_messages {A : Type} (f : A -> Action) (l : list A) :
  (forall a w e p, f a <> EventTriggered w e p) -> woken (map f l) = [].
Proof.
  intros Hf. induction l as [|a l IH]; simpl; [reflexivity|].
  unfold woken in *. simpl. rewrite IH.
  destruct (f a) eqn:E; try reflexivity. exfalso. eapply Hf. exact E.
Qed.

(** One step through the control flow of a method that ends in
    [Some (state, actions)] or in a failed assertion. *)
Ltac break_step :=
  match goal with
  | |- None = Some _ -> _ => discriminate
  | |- (if ?x then _ else _) = Some _ -> _ => destruct x
  | |- (match ?x with _ => _ end) = Some _ -> _ => destruct x
  end.

(** C10.  Poison is pinned to [false] on every barrier path:
    [has_triggered] leaves [false] in its out-parameter whatever the state,
    and every waiter callback made by [add_waiter], by [adjust_arrival] (a
    local trigger) and by the handler of [BarrierTrigger] messages passes
    [poisoned = false]. *)
Theorem barrier_poison_pinned
    (mynode shift fresh : Z) (defer : bool) (query : Event -> option bool)
    (table : Z -> option ReductionOp) (s : impl) :
  (forall needed_gen,
      snd (fst (fst (has_triggered mynode s needed_gen))) = false)
  /\ (forall needed_gen w s' acts,
         add_waiter mynode s needed_gen w = Some (s', acts) ->
         unpoisoned acts)
  /\ (forall barrier_gen delta ts wait_on reduce_value s' acts,
         adjust_arrival mynode shift fresh defer query s barrier_gen delta ts
                        wait_on reduce_value = Some (s', acts) ->
         unpoisoned acts)
  /\ (forall args data s' acts,
         handle_request table s args data = Some (s', acts) ->
         unpoisoned acts).
Proof.
  split; [|split; [|split]].
  - intros g. unfold has_triggered.
    destruct (g <=? generation s); [reflexivity|].
    destruct (negb (owner s =? mynode)); reflexivity.
  - intros g w s' acts. unfold add_waiter.
    repeat break_step; intros [= <- <-]; unfold unpoisoned; simpl;
      repeat constructor.
  - intros barrier_gen delta ts wait_on reduce_value s' acts.
    unfold adjust_arrival, adjust_arrival_owner.
    repeat break_step; intros [= <- <-];
      try match goal with
          | |- unpoisoned (if ?c then _ else _) => destruct c
          end;
      try (unfold unpoisoned; simpl; now repeat constructor);
      apply unpoisoned_notify_all; apply woken_trigger_messages; discriminate.
  - intros args data s' acts. unfold handle_request.
    repeat break_step; intros [= <- <-];
      rewrite <- (app_nil_r (notify_all _ _ _));
      now apply unpoisoned_notify_all.
Qed.

End BarrierImplFacts.

(** ** Properties of mergers and of [merge_events] *)

(** C3.  [merge_events] of the empty set is [NO_EVENT], and [merge_events]
    of a singleton [{e}] with [ignore_faults = false] is [e], whatever the
    runtime holds for [e]. *)
Theorem merge_events_empty_and_singleton
    (mynode : Z) (fresh : Event) (addr : Waiter) (rt : Runtime) :
  (forall ignore_faults,
      fst (fst (merge_events mynode fresh addr rt [] ignore_faults)) = NO_EVENT)
  /\ (forall e, fst (fst (merge_events mynode fresh addr rt [e] false)) = e).
Proof.
  split; [reflexivity|].
  intros e. unfold merge_events, scan_events. simpl.
  destruct (Event_has_triggered_faultaware mynode rt e false)
    as [[[triggered poisoned] rt'] acts].
  destruct triggered; reflexivity.
Qed.

(** What the scan of [merge_events] does with its first input when faults
    are not ignored: an input that has triggered is returned on the spot,
    whether or not it is poisoned. *)
Lemma merge_events_returns_first_triggered
    (mynode : Z) (fresh : Event) (addr : Waiter) (rt : Runtime)
    (e : Event) (rest : list Event) :
  fst (fst (fst (Event_has_triggered_faultaware mynode rt e false))) = true ->
  fst (fst (merge_events mynode fresh addr rt (e :: rest) false)) = e.
Proof.
  unfold merge_events, scan_events. simpl.
  destruct (Event_has_triggered_faultaware mynode rt e false)
    as [[[triggered poisoned] rt'] acts].
  simpl. intros ->. reflexivity.
Qed.

(** C2 at a failing input: of the two inputs [(7, 1)], triggered without
    poison, and [(8, 1)], not triggered, [merge_events] returns [(7, 1)], in
    either iteration order. *)
Lemma merge_events_returns_unpoisoned_input :
  let e1 := mkEvent 7 1 in
  let e2 := mkEvent 8 1 in
  let fresh := mkEvent 50 1 in
  fst (fst (Event_has_triggered_faultaware 0 one_triggered e1 false))
    = (true, false)
  /\ fst (fst (Event_has_triggered_faultaware 0 one_triggered e2 false))
    = (false, false)
  /\ fst (fst (merge_events 0 fresh 900 one_triggered [e1; e2] false)) = e1
  /\ fst (fst (merge_events 0 fresh 900 one_triggered [e2; e1] false)) = e1.
Proof. repeat split. Qed.

(** What [add_event] does with an input that has triggered: whatever its
    poison bit, the fault count goes up, [count_needed] stays, the merger
    does not register as a waiter, and the first such input triggers the
    finish event with poison unless faults are ignored. *)
Lemma add_event_triggered_input
    (mynode : Z) (rt : Runtime) (m : EventMerger.merger) (wait_for : Event) :
  fst (fst (fst (Event_has_triggered_faultaware mynode rt wait_for false)))
    = true ->
  let '(m', _, acts) := EventMerger.add_event mynode rt m wait_for in
  EventMerger.faults_observed m' = i32 (EventMerger.faults_observed m + 1)
  /\ EventMerger.count_needed m' = EventMerger.count_needed m
  /\ acts = snd (Event_has_triggered_faultaware mynode rt wait_for false)
            ++ (if (EventMerger.faults_observed m =? 0)
                   && negb (EventMerger.ignore_faults m)
                then [Trigger (EventMerger.finish_event m) true] else []).
Proof.
  unfold EventMerger.add_event.
  destruct (Event_has_triggered_faultaware mynode rt wait_for false)
    as [[[triggered poisoned] rt'] acts].
  simpl. intros ->. auto.
Qed.

(** C1 at a failing input: a new merger that does not ignore faults is given
    the input [(7, 1)], which has triggered without poison.  The fault count
    becomes 1, [count_needed] stays 1, the merger is not registered as a
    waiter, and the finish event is triggered with poison. *)
Lemma add_event_counts_unpoisoned_input :
  let m := EventMerger.create 900 (mkEvent 50 1) false in
  let wait_for := mkEvent 7 1 in
  fst (fst (Event_has_triggered_faultaware 0 one_triggered wait_for false))
    = (true, false)
  /\ let '(m', _, acts) := EventMerger.add_event 0 one_triggered m wait_for in
     EventMerger.faults_observed m' = 1
     /\ EventMerger.count_needed m' = 1
     /\ acts = [Trigger (mkEvent 50 1) true].
Proof. repeat split. Qed.


(** ** Generational events: answers, waiters and the update protocol *)

Module GenEventProtocol.

Import GenEventImpl.

(** [has_triggered] says yes exactly for a generation up to [generation] or
    one with an entry in [local_triggers] (when the flag is raised). *)
Lemma has_triggered_true_iff (s : impl) (g : Z) :
  fst (has_triggered s g) = true
  <-> g <= generation s
      \/ (has_local_triggers s = true
          /\ OMap.find g (local_triggers s) <> None).
Proof.
  unfold has_triggered.
  destruct (g <=? generation s) eqn:E.
  - apply Z.leb_le in E. simpl. tauto.
  - apply Z.leb_gt in E. destruct (has_local_triggers s); simpl.
    + destruct (OMap.find g (local_triggers s)); simpl; split; auto.
      * intros _. right. split; [reflexivity|discriminate].
      * discriminate.
      * intros [H|[_ H]]; [lia|congruence].
    + split; [discriminate|]. intros [H|[H _]]; [lia|discriminate].
Qed.

Lemma ack_local_triggers_keeps_later
    (s : impl) (current_gen g : Z) (lt lt' : OMap.t bool) :
  ack_local_triggers s current_gen lt = Some lt' ->
  current_gen < g ->
  OMap.find g lt' = OMap.find g lt.
Proof.
  revert lt'. induction lt as [|[k p] lt IH]; intros lt' H Hg; simpl in *.
  - now injection H as <-.
  - destruct (k <=? current_gen) eqn:E.
    + apply Z.leb_le in E.
      destruct (Bool.eqb p (is_generation_poisoned s k)); [|discriminate].
      rewrite (IH lt' H Hg).
      destruct (k =? g) eqn:Ek; [apply Z.eqb_eq in Ek; lia | reflexivity].
    + now injection H as <-.
Qed.

(** The fields that [has_triggered] reads. *)
Lemma has_triggered_reads (s s' : impl) (g : Z) :
  generation s' = generation s ->
  num_poisoned_generations s' = num_poisoned_generations s ->
  poisoned_generations s' = poisoned_generations s ->
  has_local_triggers s' = has_local_triggers s ->
  local_triggers s' = local_triggers s ->
  has_triggered s' g = has_triggered s g.
Proof.
  intros H1 H2 H3 H4 H5.
  unfold has_triggered, is_generation_poisoned, poisoned_list.
  now rewrite H1, H2, H3, H4, H5.
Qed.

Lemma add_waiter_keeps_answers
    (mynode : Z) (s s' : impl) (n : Z) (w : Waiter) (acts : list Action)
    (g : Z) :
  add_waiter mynode s n w = Some (s', acts) ->
  has_triggered s' g = has_triggered s g.
Proof.
  unfold add_waiter.
  destruct (n <=? generation s); [now intros [= <- _]|].
  destruct (OMap.find n (local_triggers s)).
  { destruct (negb (owner s =? mynode)); [now intros [= <- _]|discriminate]. }
  destruct (n =? u32 (generation s + 1)).
  - intros [= <- _]. now apply has_triggered_reads.
  - destruct (negb (owner s =? mynode)); [|discriminate].
    intros [= <- _]. now apply has_triggered_reads.
Qed.

Lemma subscribe_keeps_answers
    (s s' : impl) (node : Z) (ev : Event) (prev : Z) (acts : list Action)
    (g : Z) :
  EventSubscribeMessage_handle_request s node ev prev = Some (s', acts) ->
  has_triggered s' g = has_triggered s g.
Proof.
  unfold EventSubscribeMessage_handle_request.
  destruct (generation s >=? gen ev); [now intros [= <- _]|].
  destruct (gen ev =? u32 (generation s + 1)).
  - intros [= <- _]. now apply has_triggered_reads.
  - destruct (gen ev <=? generation s); [now intros [= <- _]|discriminate].
Qed.

(** Once a generation has triggered on a node, it stays triggered there:
    neither a new waiter, nor a trigger, nor an update from the owner, nor
    a subscription makes [has_triggered] take its yes back. *)
Theorem triggered_stays_triggered (mynode limit : Z) (s : impl) (g : Z) :
  fst (has_triggered s g) = true ->
  0 <= generation s < 2 ^ 32 - 1 ->
  (forall n w s' acts,
      add_waiter mynode s n w = Some (s', acts) ->
      fst (has_triggered s' g) = true)
  /\ (forall gt node p s' acts,
         trigger mynode limit s gt node p = Some (s', acts) ->
         fst (has_triggered s' g) = true)
  /\ (forall current_gen new_poisoned s' acts,
         process_update mynode limit s current_gen new_poisoned
           = Some (s', acts) ->
         fst (has_triggered s' g) = true)
  /\ (forall node ev prev s' acts,
         EventSubscribeMessage_handle_request s node ev prev
           = Some (s', acts) ->
         fst (has_triggered s' g) = true).
Proof.
  intros Hyes Hrange.
  assert (Hu : u32 (generation s + 1) = generation s + 1)
    by (apply u32_id; lia).
  split; [|split; [|split]].
  - intros n w s' acts H.
    now rewrite (add_waiter_keeps_answers mynode s s' n w acts g H).
  - intros gt node p s' acts H.
    apply has_triggered_true_iff in Hyes. apply has_triggered_true_iff.
    unfold trigger, trigger_owner, trigger_remote in H. rewrite Hu in H.
    destruct (mynode =? owner s).
    + destruct (gt =? generation s + 1) eqn:Eg; [|discriminate].
      apply Z.eqb_eq in Eg.
      destruct (OMap.empty (future_local_waiters s)); [|discriminate].
      destruct (negb p || _); [|discriminate].
      injection H as <- _. simpl.
      destruct Hyes as [Hle|Hlt]; [left; lia | right; exact Hlt].
    + destruct (node =? mynode); [|discriminate].
      destruct (gt =? generation s + 1) eqn:Eg.
      * apply Z.eqb_eq in Eg.
        assert (Hs' : generation s' = gt
                      /\ has_local_triggers s'
                         = (if p then true else has_local_triggers s)
                      /\ local_triggers s'
                         = (if p then OMap.insert gt true (local_triggers s)
                            else local_triggers s)).
        { destruct (future_local_waiters s) as [|[k ws] rest];
            [|destruct (k =? generation s + 1)];
            injection H as <- _; simpl; auto. }
        destruct Hs' as (H1 & H2 & H3).
        destruct Hyes as [Hle|[Hl Hf]]; [left; lia|].
        right. rewrite H2, H3. destruct p; [|now split].
        split; [reflexivity|].
        destruct (Z.eq_dec g gt) as [->|Hne].
        -- rewrite OMapFacts.find_insert_eq. discriminate.
        -- now rewrite OMapFacts.find_insert_ne.
      * destruct (gt >? generation s + 1); [|discriminate].
        assert (Hs' : generation s' = generation s
                      /\ has_local_triggers s' = true
                      /\ local_triggers s'
                         = OMap.insert gt p (local_triggers s)).
        { destruct (OMap.find gt (future_local_waiters s));
            injection H as <- _; simpl; auto. }
        destruct Hs' as (H1 & H2 & H3).
        destruct Hyes as [Hle|[Hl Hf]]; [left; lia|].
        right. split; [exact H2|]. rewrite H3.
        destruct (Z.eq_dec g gt) as [->|Hne].
        -- rewrite OMapFacts.find_insert_eq. discriminate.
        -- now rewrite OMapFacts.find_insert_ne.
  - intros current_gen new_poisoned s' acts H.
    apply has_triggered_true_iff in Hyes. apply has_triggered_true_iff.
    unfold process_update in H.
    destruct (negb (owner s =? mynode)); [|discriminate].
    match type of H with (if ?c then _ else _) = _ => destruct c end;
      [|discriminate].
    destruct (current_gen <=? generation s) eqn:Ec.
    { injection H as <- _. exact Hyes. }
    apply Z.leb_gt in Ec.
    match type of H with (if ?c then _ else _) = _ => destruct c end;
      [|discriminate].
    match type of H with
    | match ?t with pair _ _ => _ end = _ => destruct t as [[tw cur] fut]
    end.
    destruct (has_local_triggers s) eqn:Hl.
    + match type of H with
      | match ?t with Some _ => _ | None => _ end = _ =>
          destruct t as [lt'|] eqn:Ea
      end; [|discriminate].
      injection H as <- _. simpl.
      destruct Hyes as [Hle|[_ Hf]]; [left; lia|].
      destruct (Z_le_gt_dec g current_gen) as [Hle|Hgt]; [left; exact Hle|].
      right. rewrite (ack_local_triggers_keeps_later _ _ g _ _ Ea) by lia.
      split; [|exact Hf].
      destruct lt' as [|e lt']; [|reflexivity].
      rewrite <- (ack_local_triggers_keeps_later _ _ g _ _ Ea) in Hf by lia.
      now elim Hf.
    + injection H as <- _. simpl.
      destruct Hyes as [Hle|[Hc _]]; [left; lia | discriminate].
  - intros node ev prev s' acts H.
    now rewrite (subscribe_keeps_answers s s' node ev prev acts g H).
Qed.

(** A non-owner (node 1) at generation 1 that has triggered generation 3
    locally receives the owner's update for generation 2: generation 3 is
    still reported as triggered. *)
Lemma triggered_stays_triggered_witness :
  let s := mk 7 0 1 3 0 [] true [(3, false)] [] [] [] in
  fst (has_triggered s 3) = true
  /\ exists s' acts,
       process_update 1 16 s 2 [] = Some (s', acts)
       /\ generation s' = 2
       /\ fst (has_triggered s' 3) = true.
Proof.
  intros s.
  pose proof (triggered_stays_triggered 1 16 s 3 eq_refl
                ltac:(simpl; lia)) as (_ & _ & Hp & _).
  split; [reflexivity|]. eexists. eexists.
  split; [reflexivity|]. split; [reflexivity|].
  eapply (Hp 2 []). reflexivity.
Defined.

Lemma trigger_owner_poisoned_list
    (limit : Z) (s s' : impl) (gt : Z) (q : bool) (acts : list Action) :
  poison_wf limit s ->
  trigger_owner limit s gt q = Some (s', acts) ->
  generation s' = gt
  /\ gt = u32 (generation s + 1)
  /\ has_local_triggers s' = has_local_triggers s
  /\ local_triggers s' = local_triggers s
  /\ num_poisoned_generations s'
     = (if q then num_poisoned_generations s + 1
        else num_poisoned_generations s)
  /\ poisoned_list s' = poisoned_list s ++ (if q then [gt] else []).
Proof.
  intros [Hnum Harr]. unfold trigger_owner.
  destruct (gt =? u32 (generation s + 1)) eqn:Eg; [|discriminate].
  apply Z.eqb_eq in Eg.
  destruct (OMap.empty (future_local_waiters s)); [|discriminate].
  destruct q; simpl negb; simpl orb.
  - destruct (num_poisoned_generations s <? limit) eqn:E; [|discriminate].
    apply Z.ltb_lt in E. intros [= <- _]. simpl.
    repeat (split; [auto|]).
    unfold poisoned_list. simpl.
    replace (Z.to_nat (num_poisoned_generations s + 1))
      with (S (Z.to_nat (num_poisoned_generations s))) by lia.
    destruct Harr as [[Hnil H0] | Hlen].
    + rewrite Hnil, H0. simpl Z.to_nat.
      rewrite firstn_array_set; [reflexivity|]. rewrite repeat_length. lia.
    + destruct (poisoned_generations s) as [|x a] eqn:Ea.
      * simpl in Hlen. lia.
      * rewrite firstn_array_set; [reflexivity|]. lia.
  - intros [= <- _]. simpl. repeat (split; [auto|]).
    unfold poisoned_list. simpl. now rewrite app_nil_r.
Qed.

Lemma is_generation_poisoned_ext (s s' : impl) (g : Z) :
  (In g (poisoned_list s') <-> In g (poisoned_list s)) ->
  is_generation_poisoned s' g = is_generation_poisoned s g.
Proof.
  intros H.
  destruct (is_generation_poisoned s g) eqn:E.
  - apply GenEventImplFacts.is_generation_poisoned_iff.
    apply H. now apply GenEventImplFacts.is_generation_poisoned_iff.
  - destruct (is_generation_poisoned s' g) eqn:E'; [|reflexivity].
    apply GenEventImplFacts.is_generation_poisoned_iff in E'.
    apply H in E'. apply GenEventImplFacts.is_generation_poisoned_iff in E'.
    congruence.
Qed.

(** On the owner the whole answer is stable: when [has_triggered] has said
    "triggered, with this poison bit" for a generation, later triggers of
    the event, new waiters and subscriptions leave that answer, poison bit
    included, as it is. *)
Theorem owner_answer_is_stable
    (mynode limit : Z) (s : impl) (g : Z) (p : bool) :
  mynode = owner s ->
  has_local_triggers s = false ->
  poison_wf limit s ->
  0 <= generation s < 2 ^ 32 - 1 ->
  has_triggered s g = (true, p) ->
  (forall gt node q s' acts,
      trigger mynode limit s gt node q = Some (s', acts) ->
      has_triggered s' g = (true, p))
  /\ (forall n w s' acts,
         add_waiter mynode s n w = Some (s', acts) ->
         has_triggered s' g = (true, p))
  /\ (forall node ev prev s' acts,
         EventSubscribeMessage_handle_request s node ev prev
           = Some (s', acts) ->
         has_triggered s' g = (true, p)).
Proof.
  intros Hown Hl Hwf Hrange Hyes.
  assert (Hu : u32 (generation s + 1) = generation s + 1)
    by (apply u32_id; lia).
  split; [|split].
  - intros gt node q s' acts H.
    unfold trigger in H. rewrite Hown, Z.eqb_refl in H.
    destruct (trigger_owner_poisoned_list limit s s' gt q acts Hwf H)
      as (Hg & Hgt & Hl' & Hlt' & _ & Hlist).
    unfold has_triggered in *. rewrite Hl', Hl in *. simpl negb in *.
    cbv iota in *.
    destruct (g <=? generation s) eqn:E; [|discriminate].
    apply Z.leb_le in E.
    assert (E' : (g <=? generation s') = true)
      by (apply Z.leb_le; lia).
    rewrite E'. injection Hyes as <-. f_equal.
    apply is_generation_poisoned_ext. rewrite Hlist, in_app_iff.
    destruct q; simpl; [|tauto]. split; [|tauto].
    intros [Hin|[Heq|[]]]; [exact Hin | lia].
  - intros n w s' acts H.
    now rewrite (add_waiter_keeps_answers mynode s s' n w acts g H).
  - intros node ev prev s' acts H.
    now rewrite (subscribe_keeps_answers s s' node ev prev acts g H).
Qed.

(** The owner has triggered generations 1 to 3, generation 2 with poison; a
    poisoned trigger of generation 4 leaves the answers for 2 and 3 alone. *)
Lemma owner_answer_is_stable_witness :
  let s := mk 7 0 3 0 1 [2; 0; 0; 0] false [] [] [] [] in
  has_triggered s 2 = (true, true)
  /\ exists s' acts,
       trigger 0 4 s 4 0 true = Some (s', acts)
       /\ has_triggered s' 2 = (true, true)
       /\ has_triggered s' 4 = (true, true).
Proof.
  intros s.
  assert (Hwf : poison_wf 4 s) by (split; [simpl; lia | right; reflexivity]).
  pose proof (owner_answer_is_stable 0 4 s 2 true eq_refl eq_refl Hwf
                ltac:(simpl; lia) eq_refl) as (Ht & _ & _).
  split; [reflexivity|]. eexists. eexists.
  split; [reflexivity|]. split; [|reflexivity].
  eapply (Ht 4 0 true). reflexivity.
Defined.

(** [add_waiter] and [has_triggered] agree.  When the flag
    [has_local_triggers] tells whether [local_triggers] holds an entry (and
    the owner holds none): a waiter for a generation that [has_triggered]
    reports as triggered is called back at once with the reported poison bit
    and nothing is stored; a waiter for any other generation is queued under
    its generation without being called, the generation stays untriggered,
    and a non-owner is then subscribed at least up to it. *)
Theorem add_waiter_agrees_with_has_triggered
    (mynode : Z) (s : impl) (g : Z) (w : Waiter) :
  has_local_triggers s = negb (OMap.empty (local_triggers s)) ->
  (owner s = mynode ->
   local_triggers s = [] /\ (g <= generation s \/ g = u32 (generation s + 1))) ->
  (forall p, has_triggered s g = (true, p) ->
             add_waiter mynode s g w
             = Some (s, [EventTriggered w (make_event s g) p]))
  /\ (fst (has_triggered s g) = false ->
      exists s' acts,
        add_waiter mynode s g w = Some (s', acts)
        /\ woken acts = []
        /\ has_triggered s' g = (false, false)
        /\ (if g =? u32 (generation s + 1)
            then current_local_waiters s' = current_local_waiters s ++ [w]
                 /\ future_local_waiters s' = future_local_waiters s
            else current_local_waiters s' = current_local_waiters s
                 /\ exists ws, OMap.find g (future_local_waiters s')
                               = Some (ws ++ [w]))
        /\ (owner s <> mynode -> gen_subscribed s' >= g)).
Proof.
  intros Hflag Hown.
  assert (Hfind : has_local_triggers s = false ->
                  OMap.find g (local_triggers s) = None).
  { rewrite Hflag. destruct (local_triggers s); [reflexivity|discriminate]. }
  split.
  - intros p. unfold has_triggered, add_waiter.
    destruct (g <=? generation s); [now intros [= <-]|].
    destruct (has_local_triggers s); simpl; [|discriminate].
    destruct (OMap.find g (local_triggers s)) as [q|] eqn:Ef; [|discriminate].
    intros [= <-].
    destruct (owner s =? mynode) eqn:Eo; [|reflexivity].
    apply Z.eqb_eq in Eo. destruct (Hown Eo) as [Hnil _].
    rewrite Hnil in Ef. discriminate.
  - intros Hno.
    assert (Hgen : (g <=? generation s) = false
                   /\ OMap.find g (local_triggers s) = None).
    { unfold has_triggered in Hno.
      destruct (g <=? generation s); [discriminate|]. split; [reflexivity|].
      destruct (has_local_triggers s) eqn:El; [|now apply Hfind].
      simpl in Hno.
      destruct (OMap.find g (local_triggers s)); [discriminate|reflexivity]. }
    destruct Hgen as [Hgen Hlt].
    unfold add_waiter. rewrite Hgen, Hlt.
    destruct (g =? u32 (generation s + 1)) eqn:Enext.
    + eexists. eexists. split; [reflexivity|].
      split; [now destruct (negb (owner s =? mynode) && _)|].
      split.
      { unfold has_triggered. simpl. rewrite Hgen.
        destruct (has_local_triggers s); simpl; [now rewrite Hlt|reflexivity]. }
      split; [simpl; auto|].
      intros Hne. apply Z.eqb_neq in Hne. simpl. rewrite Hne. simpl.
      destruct (gen_subscribed s <? g) eqn:E; [lia|].
      apply Z.ltb_ge in E. lia.
    + destruct (owner s =? mynode) eqn:Eo.
      { apply Z.eqb_eq in Eo. destruct (Hown Eo) as [_ [Hle|Heq]].
        - apply Z.leb_gt in Hgen. lia.
        - apply Z.eqb_neq in Enext. contradiction. }
      simpl negb. cbv iota.
      eexists. eexists. split; [reflexivity|].
      split; [now destruct (true && _)|].
      split.
      { unfold has_triggered. simpl. rewrite Hgen.
        destruct (has_local_triggers s); simpl; [now rewrite Hlt|reflexivity]. }
      split.
      { simpl. split; [reflexivity|].
        eexists. apply OMapFacts.find_insert_eq. }
      intros _. simpl.
      destruct (gen_subscribed s <? g) eqn:E; [lia|].
      apply Z.ltb_ge in E. lia.
Qed.

(** On a non-owner at generation 1 that has triggered generation 3 locally
    with poison: a waiter for 3 is called back with poison, a waiter for 5 is
    queued and the node subscribes up to 5. *)
Lemma add_waiter_agrees_with_has_triggered_witness :
  let s := mk 7 0 1 3 0 [] true [(3, true)] [] [] [] in
  add_waiter 1 s 3 61 = Some (s, [EventTriggered 61 (make_event s 3) true])
  /\ exists s' acts,
       add_waiter 1 s 5 62 = Some (s', acts)
       /\ woken acts = []
       /\ OMap.find 5 (future_local_waiters s') = Some [62]
       /\ gen_subscribed s' = 5.
Proof.
  intros s.
  pose proof (add_waiter_agrees_with_has_triggered 1 s 3 61 eq_refl) as [H3 _].
  { intros H. discriminate H. }
  split; [apply H3; reflexivity|].
  eexists. eexists. repeat split.
Defined.

Lemma insert_after_all {V : Type} (k : Z) (v : V) (m : OMap.t V) :
  Forall (fun e => fst e < k) m -> OMap.insert k v m = m ++ [(k, v)].
Proof.
  induction 1 as [|[k' v'] m Hk Hm IH]; simpl; [reflexivity|].
  simpl in Hk.
  assert (E1 : (k <? k') = false) by (apply Z.ltb_ge; lia).
  assert (E2 : (k =? k') = false) by (apply Z.eqb_neq; lia).
  now rewrite E1, E2, IH.
Qed.

Lemma take_future_sorted
    (current_gen : Z) (fut tw : OMap.t (list Waiter)) :
  OMap.sorted fut = true ->
  (forall e e', In e tw -> In e' fut -> fst e < fst e') ->
  take_future current_gen fut tw
  = (tw ++ filter (fun e => fst e <=? current_gen) fut,
     filter (fun e => negb (fst e <=? current_gen)) fut).
Proof.
  revert tw. induction fut as [|[k ws] fut IH]; intros tw Hs Hlt; simpl.
  - now rewrite app_nil_r.
  - simpl in Hs. apply andb_true_iff in Hs. destruct Hs as [Hk Hs].
    rewrite forallb_forall in Hk.
    destruct (k <=? current_gen) eqn:E; simpl.
    + rewrite insert_after_all.
      * rewrite IH; [now rewrite <- app_assoc | assumption |].
        intros e e' He He'. apply in_app_iff in He.
        destruct He as [He|[<-|[]]].
        -- apply Hlt; [assumption | now right].
        -- simpl. specialize (Hk e' He'). now apply Z.ltb_lt in Hk.
      * apply Forall_forall. intros e He.
        apply (Hlt e (k, ws) He). now left.
    + apply Z.leb_gt in E.
      assert (Hall : forall e', In e' fut -> (fst e' <=? current_gen) = false).
      { intros e' He'. specialize (Hk e' He'). apply Z.ltb_lt in Hk.
        apply Z.leb_gt. simpl in Hk. lia. }
      assert (Hf1 : filter (fun e : Z * list Waiter => fst e <=? current_gen)
                           fut = []).
      { clear - Hall. induction fut as [|e fut IH]; simpl; [reflexivity|].
        rewrite (Hall e) by now left. apply IH.
        intros e' He'. apply Hall. now right. }
      assert (Hf2 : filter (fun e : Z * list Waiter =>
                              negb (fst e <=? current_gen)) fut = fut).
      { clear - Hall. induction fut as [|e fut IH]; simpl; [reflexivity|].
        rewrite (Hall e) by now left. simpl. f_equal. apply IH.
        intros e' He'. apply Hall. now right. }
      now rewrite Hf1, Hf2, app_nil_r.
Qed.

Lemma woken_flat_notify
    (s s' : impl) (tw : OMap.t (list Waiter)) :
  woken (flat_map (fun gw : Z * list Waiter =>
                     notify_all (snd gw) (make_event s (fst gw))
                                (is_generation_poisoned s' (fst gw))) tw)
  = map (fun wg => (fst wg, make_event s (snd wg),
                    is_generation_poisoned s' (snd wg)))
        (queued_in tw).
Proof.
  unfold queued_in. induction tw as [|[g ws] tw IH]; simpl; [reflexivity|].
  rewrite woken_app, woken_notify_all, IH, map_app, map_map. reflexivity.
Qed.

Lemma is_generation_poisoned_existsb (s : impl) (g : Z) :
  is_generation_poisoned s g = existsb (fun x => x =? g) (poisoned_list s).
Proof.
  unfold is_generation_poisoned, poisoned_list.
  destruct (num_poisoned_generations s =? 0) eqn:E; [|reflexivity].
  apply Z.eqb_eq in E. now rewrite E.
Qed.

Lemma forallb_pointwise {A : Type} (f h : A -> bool) (l : list A) :
  (forall x, In x l -> f x = h x) -> forallb f l = forallb h l.
Proof.
  induction l as [|x l IH]; intros H; simpl; [reflexivity|].
  rewrite (H x) by now left. rewrite IH; [reflexivity|].
  intros y Hy. apply H. now right.
Qed.

Lemma filter_all {A : Type} (f : A -> bool) (l : list A) :
  (forall x, In x l -> f x = true) -> filter f l = l.
Proof.
  induction l as [|x l IH]; intros H; simpl; [reflexivity|].
  rewrite (H x) by now left. f_equal. apply IH.
  intros y Hy. apply H. now right.
Qed.

Lemma filter_none {A : Type} (f : A -> bool) (l : list A) :
  (forall x, In x l -> f x = false) -> filter f l = [].
Proof.
  induction l as [|x l IH]; intros H; simpl; [reflexivity|].
  rewrite (H x) by now left. apply IH.
  intros y Hy. apply H. now right.
Qed.

(** The loop over the local triggers, on a sorted map: it fails on the
    first acknowledged trigger whose poison bit differs from the list's, and
    otherwise keeps the triggers beyond [current_gen]. *)
Lemma ack_local_triggers_sorted (s : impl) (current_gen : Z)
    (lt : OMap.t bool) :
  OMap.sorted lt = true ->
  ack_local_triggers s current_gen lt
  = if forallb (fun e : Z * bool =>
                  negb (fst e <=? current_gen)
                  || Bool.eqb (snd e) (is_generation_poisoned s (fst e))) lt
    then Some (filter (fun e => current_gen <? fst e) lt)
    else None.
Proof.
  induction lt as [|[k p] lt IH]; intros Hs; simpl; [reflexivity|].
  simpl in Hs. apply andb_true_iff in Hs. destruct Hs as [Hk Hs].
  rewrite forallb_forall in Hk.
  destruct (k <=? current_gen) eqn:E; simpl.
  - assert (E' : (current_gen <? k) = false)
      by (apply Z.ltb_ge; now apply Z.leb_le).
    rewrite E'. destruct (Bool.eqb p (is_generation_poisoned s k)); simpl;
      [now apply IH | reflexivity].
  - apply Z.leb_gt in E.
    assert (E' : (current_gen <? k) = true) by now apply Z.ltb_lt.
    rewrite E'.
    assert (Hall : forall e, In e lt -> current_gen < fst e).
    { intros e He. specialize (Hk e He). apply Z.ltb_lt in Hk. simpl in Hk.
      lia. }
    rewrite (proj2 (forallb_forall _ lt)).
    + rewrite filter_all; [reflexivity|].
      intros e He. apply Z.ltb_lt. now apply Hall.
    + intros e He. apply orb_true_iff. left. apply negb_true_iff.
      apply Z.leb_gt. now apply Hall.
Qed.

(** The loop over the future waiters, started with the current waiters in
    [to_wake]: a future list for the generation of the current waiters takes
    their place. *)
Lemma take_future_beyond
    (current_gen g : Z) (tw0 fut : OMap.t (list Waiter)) :
  OMap.sorted fut = true ->
  forallb (fun e : Z * list Waiter => g <? fst e) fut = true ->
  g < current_gen ->
  tw0 = [] \/ (exists ws0, tw0 = [(g + 1, ws0)]) ->
  take_future current_gen fut tw0
  = (match OMap.find (g + 1) fut with
     | Some _ => []
     | None => tw0
     end ++ filter (fun e => fst e <=? current_gen) fut,
     filter (fun e => negb (fst e <=? current_gen)) fut).
Proof.
  intros Hs Hb Hlt Hshape.
  assert (Htw0 : forall e, In e tw0 -> fst e = g + 1).
  { intros e He. destruct Hshape as [->|[ws0 ->]]; [destruct He|].
    destruct He as [<-|[]]. reflexivity. }
  destruct fut as [|[k ws] rest]; [simpl; now rewrite app_nil_r|].
  simpl in Hs, Hb. apply andb_true_iff in Hs, Hb.
  destruct Hs as [Hk Hs]. destruct Hb as [Hgk Hb]. apply Z.ltb_lt in Hgk.
  destruct (Z.eq_dec k (g + 1)) as [->|Hne].
  - (* the first future list is for the generation of the current waiters *)
    assert (E : (g + 1 <=? current_gen) = true) by (apply Z.leb_le; lia).
    cbn [take_future OMap.find]. rewrite Z.eqb_refl, E. cbn [app filter fst].
    rewrite E.
    assert (Hins : OMap.insert (g + 1) ws tw0 = [(g + 1, ws)]).
    { destruct Hshape as [->|[ws0 ->]]; simpl; [reflexivity|].
      now rewrite Z.ltb_irrefl, Z.eqb_refl. }
    rewrite Hins, take_future_sorted; [reflexivity | assumption |].
    intros e e' [<-|[]] He'. rewrite forallb_forall in Hk.
    specialize (Hk e' He'). now apply Z.ltb_lt in Hk.
  - assert (Hnone : OMap.find (g + 1) ((k, ws) :: rest) = None).
    { apply OMapFacts.find_none_above. simpl.
      assert (E : (g + 1 <? k) = true) by (apply Z.ltb_lt; lia).
      rewrite E. simpl. apply forallb_forall. intros e He.
      rewrite forallb_forall in Hk. specialize (Hk e He).
      apply Z.ltb_lt in Hk. apply Z.ltb_lt. simpl in Hk. lia. }
    rewrite Hnone. apply take_future_sorted.
    + simpl. now rewrite Hk, Hs.
    + intros e e' He He'. rewrite (Htw0 e He).
      destruct He' as [<-|He']; [simpl; lia|].
      rewrite forallb_forall in Hk. specialize (Hk e' He').
      apply Z.ltb_lt in Hk. simpl in Hk. lia.
Qed.

(** What is left of the future waiters behind [current_gen]: the list for
    the generation after it becomes the current one. *)
Lemma promote_next
    (current_gen : Z) (fut tw : OMap.t (list Waiter)) :
  OMap.sorted fut = true ->
  match filter (fun e : Z * list Waiter => negb (fst e <=? current_gen)) fut
  with
  | [] => (tw, @nil Waiter, @nil (Z * list Waiter))
  | (first, ws) :: rest =>
      if first =? current_gen + 1 then (tw, ws, rest)
      else (tw, [],
            filter (fun e : Z * list Waiter => negb (fst e <=? current_gen))
                   fut)
  end
  = (tw,
     match OMap.find (current_gen + 1) fut with
     | Some ws => ws
     | None => []
     end,
     filter (fun e => current_gen + 1 <? fst e) fut).
Proof.
  intros Hs.
  set (later := filter (fun e : Z * list Waiter =>
                          negb (fst e <=? current_gen)) fut).
  assert (Hlater_sorted : OMap.sorted later = true).
  { subst later. clear - Hs. induction fut as [|[k ws] fut IH];
      simpl; [reflexivity|].
    simpl in Hs. apply andb_true_iff in Hs. destruct Hs as [Hk Hs].
    destruct (negb (k <=? current_gen)); simpl; [|auto].
    rewrite IH by assumption. rewrite andb_true_r.
    rewrite forallb_forall in *. intros e He.
    apply filter_In in He. apply Hk. tauto. }
  assert (Hfilter : filter (fun e : Z * list Waiter =>
                              current_gen + 1 <? fst e) fut
                    = filter (fun e => current_gen + 1 <? fst e) later).
  { subst later. clear. induction fut as [|[k ws] fut IH];
      simpl; [reflexivity|].
    destruct (k <=? current_gen) eqn:E; simpl.
    - apply Z.leb_le in E.
      assert (E' : (current_gen + 1 <? k) = false)
        by (apply Z.ltb_ge; lia).
      now rewrite E'.
    - now rewrite IH. }
  assert (Hfind : OMap.find (current_gen + 1) fut
                  = OMap.find (current_gen + 1) later).
  { subst later. clear. induction fut as [|[k ws] fut IH];
      simpl; [reflexivity|].
    destruct (k <=? current_gen) eqn:E; simpl.
    - apply Z.leb_le in E.
      assert (E' : (k =? current_gen + 1) = false)
        by (apply Z.eqb_neq; lia).
      now rewrite E'.
    - now rewrite IH. }
  rewrite Hfilter, Hfind.
  assert (Hgt : forall e, In e later -> current_gen < fst e).
  { intros e He. subst later. apply filter_In in He.
    destruct He as [_ He]. apply negb_true_iff, Z.leb_gt in He. exact He. }
  destruct later as [|[first ws] rest]; [reflexivity|].
  simpl in Hlater_sorted. apply andb_true_iff in Hlater_sorted.
  destruct Hlater_sorted as [Hk _]. rewrite forallb_forall in Hk.
  assert (Hall : forall e, In e rest -> (current_gen + 1 <? fst e) = true).
  { intros e He. specialize (Hk e He). apply Z.ltb_lt in Hk.
    specialize (Hgt (first, ws) (or_introl eq_refl)). simpl in Hgt.
    apply Z.ltb_lt. simpl in Hk. lia. }
  assert (Hrest : filter (fun e : Z * list Waiter =>
                            current_gen + 1 <? fst e) rest = rest)
    by now apply filter_all.
  assert (Hnone : OMap.find (current_gen + 1) rest = None).
  { apply OMapFacts.find_none_above. now apply forallb_forall. }
  simpl. destruct (first =? current_gen + 1) eqn:E.
  - apply Z.eqb_eq in E. subst first.
    rewrite Z.ltb_irrefl. now rewrite Hrest.
  - apply Z.eqb_neq in E.
    specialize (Hgt (first, ws) (or_introl eq_refl)). simpl in Hgt.
    assert (E' : (current_gen + 1 <? first) = true)
      by (apply Z.ltb_lt; lia).
    now rewrite E', Hrest, Hnone.
Qed.

(** The poison array after an accepted update holds the updated list. *)
Lemma updated_poison_fields (limit : Z) (s : impl) (new_poisoned : list Z) :
  poison_continues s new_poisoned = true ->
  let count := Z.of_nat (length new_poisoned) in
  let num := num_poisoned_generations s in
  let arr0 :=
    if 0 <? count then
      match poisoned_generations s with
      | [] => repeat 0 (Z.to_nat limit)
      | a => a
      end
    else poisoned_generations s in
  let copy := (0 <? count) && (num <? count) in
  firstn (Z.to_nat (if copy then count else num))
         (if copy then new_poisoned ++ skipn (length new_poisoned) arr0
          else arr0)
  = updated_poison s new_poisoned.
Proof.
  intros Ha1 count num arr0 copy. unfold updated_poison, poison_continues in *.
  fold count in Ha1. fold num in Ha1. fold count. fold num.
  unfold poisoned_list. fold num. subst copy arr0.
  destruct (0 <? count) eqn:E0; destruct (num <? count) eqn:E1; simpl;
    try reflexivity.
  - subst count. rewrite Nat2Z.id, firstn_app, firstn_all, Nat.sub_diag.
    simpl. now rewrite app_nil_r.
  - destruct (poisoned_generations s) eqn:Ea; [|reflexivity].
    exfalso. apply andb_true_iff in Ha1. destruct Ha1 as [Hle Hcmp].
    apply Z.leb_le in Hle. apply Z.ltb_ge in E1. apply Z.ltb_lt in E0.
    assert (E2 : (0 <? num) = true) by (apply Z.ltb_lt; lia).
    rewrite E2, firstn_nil in Hcmp.
    destruct (list_eq_dec Z.eq_dec [] new_poisoned) as [<-|]; [|discriminate].
    subst count. simpl in E0. lia.
  - exfalso. apply Z.eqb_eq in Ha1. apply Z.ltb_lt in E1.
    apply Z.ltb_ge in E0. lia.
Qed.

(** What an update to a later generation does on a node that is not the
    owner, in every state in which the waiter maps are in order: whether it
    returns, and what it leaves and whom it calls when it does. *)
Lemma process_update_outcome
    (mynode limit : Z) (s : impl) (current_gen : Z) (new_poisoned : list Z) :
  owner s <> mynode ->
  0 <= generation s < current_gen ->
  current_gen < 2 ^ 32 - 1 ->
  OMap.sorted (future_local_waiters s) = true ->
  forallb (fun e => generation s <? fst e) (future_local_waiters s) = true ->
  OMap.sorted (local_triggers s) = true ->
  (update_accepted limit s new_poisoned
   && triggers_acknowledged s current_gen new_poisoned = false ->
   process_update mynode limit s current_gen new_poisoned = None)
  /\ (update_accepted limit s new_poisoned
      && triggers_acknowledged s current_gen new_poisoned = true ->
      exists s' acts,
        process_update mynode limit s current_gen new_poisoned
        = Some (s', acts)
        /\ me s' = me s /\ owner s' = owner s
        /\ gen_subscribed s' = gen_subscribed s
        /\ remote_waiters s' = remote_waiters s
        /\ generation s' = current_gen
        /\ poisoned_list s' = updated_poison s new_poisoned
        /\ woken acts
           = map (fun wg => (fst wg, make_event s (snd wg),
                             existsb (fun x => x =? snd wg)
                                     (updated_poison s new_poisoned)))
                 (match OMap.find (generation s + 1)
                                  (future_local_waiters s) with
                  | Some _ => []
                  | None => map (fun w => (w, generation s + 1))
                                (current_local_waiters s)
                  end
                  ++ queued_in (filter (fun e => fst e <=? current_gen)
                                       (future_local_waiters s)))
        /\ current_local_waiters s'
           = match OMap.find (current_gen + 1) (future_local_waiters s) with
             | Some ws => ws
             | None => []
             end
        /\ future_local_waiters s'
           = filter (fun e => current_gen + 1 <? fst e)
                    (future_local_waiters s)
        /\ local_triggers s'
           = (if has_local_triggers s
              then filter (fun e => current_gen <? fst e) (local_triggers s)
              else local_triggers s)
        /\ has_local_triggers s'
           = (has_local_triggers s
              && negb (OMap.empty (filter (fun e => current_gen <? fst e)
                                          (local_triggers s))))).
Proof.
  intros Hown [Hg0 Hgen] Hmax Hs Hbeyond Hlts.
  assert (Hu : u32 (generation s + 1) = generation s + 1)
    by (apply u32_id; lia).
  assert (Hu' : u32 (current_gen + 1) = current_gen + 1)
    by (apply u32_id; lia).
  assert (Ec : (current_gen <=? generation s) = false)
    by (apply Z.leb_gt; lia).
  apply Z.eqb_neq in Hown.
  pose proof (updated_poison_fields limit s new_poisoned) as Hfields.
  unfold update_accepted.
  destruct (poison_continues s new_poisoned) eqn:Hpc.
  2: { split; [intros _ | discriminate].
       unfold process_update. unfold poison_continues in Hpc.
       rewrite Hown. simpl negb. cbv iota. now rewrite Hpc. }
  match goal with
  | |- context [true && ?c && _] => destruct c eqn:Hlim
  end.
  2: { split; [intros _ | discriminate].
       unfold process_update. unfold poison_continues in Hpc.
       rewrite Hown. simpl negb. cbv iota. now rewrite Hpc, Ec, Hlim. }
  simpl andb. specialize (Hfields eq_refl). cbv zeta in Hfields.
  unfold process_update. unfold poison_continues in Hpc.
  rewrite Hown. simpl negb. cbv iota. rewrite Hpc, Ec, Hlim, Hu, Hu'.
  clear Hpc Hlim.
  set (fut := future_local_waiters s) in *.
  set (tw0 := match current_local_waiters s with
              | [] => []
              | w :: l => [(generation s + 1, w :: l)]
              end : OMap.t (list Waiter)).
  set (first_wake := match OMap.find (generation s + 1) fut with
                     | Some _ => []
                     | None => tw0
                     end).
  assert (Hq0 : queued_in first_wake
                = match OMap.find (generation s + 1) fut with
                  | Some _ => []
                  | None => map (fun w => (w, generation s + 1))
                                (current_local_waiters s)
                  end).
  { subst first_wake tw0. destruct (OMap.find (generation s + 1) fut);
      [reflexivity|]. unfold queued_in.
    destruct (current_local_waiters s); simpl; [reflexivity|].
    now rewrite app_nil_r. }
  assert (Hbody :
            (match fut with
             | [] => (tw0, @nil Waiter, @nil (Z * list Waiter))
             | _ :: _ =>
                 let '(tw, f) := take_future current_gen fut tw0 in
                 match f with
                 | [] => (tw, [], [])
                 | (first, ws) :: rest =>
                     if first =? current_gen + 1 then (tw, ws, rest)
                     else (tw, [], f)
                 end
             end)
            = (first_wake ++ filter (fun e => fst e <=? current_gen) fut,
               match OMap.find (current_gen + 1) fut with
               | Some ws => ws
               | None => []
               end,
               filter (fun e => current_gen + 1 <? fst e) fut)).
  { destruct fut as [|e0 fut0] eqn:Efut.
    - subst first_wake. simpl. now rewrite app_nil_r.
    - subst first_wake.
      rewrite (take_future_beyond current_gen (generation s) tw0
                 (e0 :: fut0) Hs Hbeyond Hgen).
      + apply promote_next. exact Hs.
      + subst tw0. destruct (current_local_waiters s);
          [now left | right; eexists; reflexivity]. }
  rewrite Hbody. clear Hbody.
  (* the poison bits handed to the waiters and compared with the triggers *)
  assert (Hbit : forall (g0 : Z) (hl : bool) (lt : OMap.t bool)
                        (gn : Z) (cur : list Waiter)
                        (f : OMap.t (list Waiter)),
            is_generation_poisoned
              {| me := me s; owner := owner s; generation := gn;
                 gen_subscribed := gen_subscribed s;
                 num_poisoned_generations :=
                   if (0 <? Z.of_nat (length new_poisoned))
                      && (num_poisoned_generations s
                          <? Z.of_nat (length new_poisoned))
                   then Z.of_nat (length new_poisoned)
                   else num_poisoned_generations s;
                 poisoned_generations :=
                   if (0 <? Z.of_nat (length new_poisoned))
                      && (num_poisoned_generations s
                          <? Z.of_nat (length new_poisoned))
                   then new_poisoned
                        ++ skipn (length new_poisoned)
                             (if 0 <? Z.of_nat (length new_poisoned)
                              then match poisoned_generations s with
                                   | [] => repeat 0 (Z.to_nat limit)
                                   | z :: l => z :: l
                                   end
                              else poisoned_generations s)
                   else if 0 <? Z.of_nat (length new_poisoned)
                        then match poisoned_generations s with
                             | [] => repeat 0 (Z.to_nat limit)
                             | z :: l => z :: l
                             end
                        else poisoned_generations s;
                 has_local_triggers := hl;
                 local_triggers := lt;
                 current_local_waiters := cur;
                 future_local_waiters := f;
                 remote_waiters := remote_waiters s |} g0
            = existsb (fun x => x =? g0) (updated_poison s new_poisoned)).
  { intros. rewrite is_generation_poisoned_existsb. unfold poisoned_list.
    simpl. now rewrite Hfields. }
  assert (Hdone :
            forall lt : OMap.t bool,
            lt = (if has_local_triggers s
                  then filter (fun e => current_gen <? fst e)
                              (local_triggers s)
                  else local_triggers s) ->
            exists s' acts,
              Some
                ({| me := me s; owner := owner s; generation := current_gen;
                    gen_subscribed := gen_subscribed s;
                    num_poisoned_generations :=
                      if (0 <? Z.of_nat (length new_poisoned))
                         && (num_poisoned_generations s
                             <? Z.of_nat (length new_poisoned))
                      then Z.of_nat (length new_poisoned)
                      else num_poisoned_generations s;
                    poisoned_generations :=
                      if (0 <? Z.of_nat (length new_poisoned))
                         && (num_poisoned_generations s
                             <? Z.of_nat (length new_poisoned))
                      then new_poisoned
                           ++ skipn (length new_poisoned)
                                (if 0 <? Z.of_nat (length new_poisoned)
                                 then match poisoned_generations s with
                                      | [] => repeat 0 (Z.to_nat limit)
                                      | z :: l => z :: l
                                      end
                                 else poisoned_generations s)
                      else if 0 <? Z.of_nat (length new_poisoned)
                           then match poisoned_generations s with
                                | [] => repeat 0 (Z.to_nat limit)
                                | z :: l => z :: l
                                end
                           else poisoned_generations s;
                    has_local_triggers :=
                      if has_local_triggers s then negb (OMap.empty lt)
                      else false;
                    local_triggers := lt;
                    current_local_waiters :=
                      match OMap.find (current_gen + 1) fut with
                      | Some ws => ws
                      | None => []
                      end;
                    future_local_waiters :=
                      filter (fun e => current_gen + 1 <? fst e) fut;
                    remote_waiters := remote_waiters s |},
                 flat_map
                   (fun gw : Z * list Waiter =>
                      notify_all (snd gw) (make_event s (fst gw))
                        (is_generation_poisoned
                           {| me := me s; owner := owner s;
                              generation := current_gen;
                              gen_subscribed := gen_subscribed s;
                              num_poisoned_generations :=
                                if (0 <? Z.of_nat (length new_poisoned))
                                   && (num_poisoned_generations s
                                       <? Z.of_nat (length new_poisoned))
                                then Z.of_nat (length new_poisoned)
                                else num_poisoned_generations s;
                              poisoned_generations :=
                                if (0 <? Z.of_nat (length new_poisoned))
                                   && (num_poisoned_generations s
                                       <? Z.of_nat (length new_poisoned))
                                then new_poisoned
                                     ++ skipn (length new_poisoned)
                                          (if 0 <? Z.of_nat
                                                     (length new_poisoned)
                                           then match poisoned_generations s
                                                with
                                                | [] => repeat 0
                                                          (Z.to_nat limit)
                                                | z :: l => z :: l
                                                end
                                           else poisoned_generations s)
                                else if 0 <? Z.of_nat (length new_poisoned)
                                     then match poisoned_generations s with
                                          | [] => repeat 0 (Z.to_nat limit)
                                          | z :: l => z :: l
                                          end
                                     else poisoned_generations s;
                              has_local_triggers :=
                                if has_local_triggers s
                                then negb (OMap.empty lt)
                                else false;
                              local_triggers := lt;
                              current_local_waiters :=
                                match OMap.find (current_gen + 1) fut with
                                | Some ws => ws
                                | None => []
                                end;
                              future_local_waiters :=
                                filter (fun e => current_gen + 1 <? fst e)
                                       fut;
                              remote_waiters := remote_waiters s |}
                           (fst gw)))
                   (first_wake
                    ++ filter (fun e => fst e <=? current_gen) fut))
              = Some (s', acts)
              /\ me s' = me s /\ owner s' = owner s
              /\ gen_subscribed s' = gen_subscribed s
              /\ remote_waiters s' = remote_waiters s
              /\ generation s' = current_gen
              /\ poisoned_list s' = updated_poison s new_poisoned
              /\ woken acts
                 = map (fun wg => (fst wg, make_event s (snd wg),
                                   existsb (fun x => x =? snd wg)
                                           (updated_poison s new_poisoned)))
                       (match OMap.find (generation s + 1) fut with
                        | Some _ => []
                        | None => map (fun w => (w, generation s + 1))
                                      (current_local_waiters s)
                        end
                        ++ queued_in (filter (fun e => fst e <=? current_gen)
                                             fut))
              /\ current_local_waiters s'
                 = match OMap.find (current_gen + 1) fut with
                   | Some ws => ws
                   | None => []
                   end
              /\ future_local_waiters s'
                 = filter (fun e => current_gen + 1 <? fst e) fut
              /\ local_triggers s'
                 = (if has_local_triggers s
                    then filter (fun e => current_gen <? fst e)
                                (local_triggers s)
                    else local_triggers s)
              /\ has_local_triggers s'
                 = (has_local_triggers s
                    && negb (OMap.empty
                               (filter (fun e => current_gen <? fst e)
                                       (local_triggers s))))).
  { intros lt Hlt. eexists. eexists. split; [reflexivity|].
    split; [reflexivity|]. split; [reflexivity|]. split; [reflexivity|].
    split; [reflexivity|]. split; [reflexivity|].
    split; [unfold poisoned_list; simpl; exact Hfields|].
    split.
    { rewrite woken_flat_notify. rewrite <- Hq0.
      unfold queued_in at 1. rewrite flat_map_app.
      fold (queued_in first_wake).
      fold (queued_in (filter (fun e => fst e <=? current_gen) fut)).
      apply map_ext. intros wg. now rewrite Hbit. }
    split; [reflexivity|]. split; [reflexivity|].
    split; [simpl; exact Hlt|].
    simpl. rewrite Hlt. now destruct (has_local_triggers s). }
  unfold triggers_acknowledged.
  destruct (has_local_triggers s) eqn:Hl; simpl negb; simpl orb.
  - rewrite ack_local_triggers_sorted by assumption.
    match goal with
    | |- context [if forallb ?f (local_triggers s) then Some _ else None] =>
        rewrite (forallb_pointwise f
                   (fun e : Z * bool =>
                      negb (fst e <=? current_gen)
                      || Bool.eqb (snd e)
                           (existsb (fun x => x =? fst e)
                                    (updated_poison s new_poisoned))))
          by (intros e _; now rewrite Hbit)
    end.
    destruct (forallb _ (local_triggers s)).
    + split; [discriminate | intros _]. now apply Hdone.
    + split; [reflexivity | discriminate].
  - split; [discriminate | intros _]. now apply Hdone.
Qed.

(** The future waiter lists of an event are for generations beyond its
    generation, on every node: [add_waiter], [trigger] and
    [process_update] keep that whenever they return.  (After an in-order
    trigger on a node that is not the owner a list may be left for the
    generation that is now the next one.) *)
Lemma future_waiters_stay_beyond
    (mynode limit : Z) (s s' : impl) (acts : list Action) :
  0 <= generation s < 2 ^ 32 - 1 ->
  OMap.sorted (future_local_waiters s) = true ->
  forallb (fun e => generation s <? fst e) (future_local_waiters s) = true ->
  OMap.sorted (local_triggers s) = true ->
  (forall g w, add_waiter mynode s g w = Some (s', acts) ->
               forallb (fun e => generation s' <? fst e)
                       (future_local_waiters s') = true)
  /\ (forall g node p, trigger mynode limit s g node p = Some (s', acts) ->
                       forallb (fun e => generation s' <? fst e)
                               (future_local_waiters s') = true)
  /\ (forall g pl, g < 2 ^ 32 - 1 ->
                   process_update mynode limit s g pl = Some (s', acts) ->
                   forallb (fun e => generation s' <? fst e)
                           (future_local_waiters s') = true).
Proof.
  intros Hrange Hs Hb Hlts.
  assert (Hu : u32 (generation s + 1) = generation s + 1)
    by (apply u32_id; lia).
  split; [|split].
  - intros g w. unfold add_waiter.
    destruct (g <=? generation s) eqn:Eg; [now intros [= <- _]|].
    apply Z.leb_gt in Eg.
    destruct (OMap.find g (local_triggers s)).
    { destruct (negb (owner s =? mynode)); [|discriminate].
      now intros [= <- _]. }
    destruct (g =? u32 (generation s + 1)).
    + now intros [= <- _].
    + destruct (negb (owner s =? mynode)); [|discriminate].
      intros [= <- _]. simpl.
      apply OMapFacts.forallb_above_insert; [now apply Z.ltb_lt | exact Hb].
  - intros g node p. unfold trigger, trigger_owner, trigger_remote.
    rewrite Hu.
    destruct (mynode =? owner s).
    + destruct (g =? generation s + 1); [|discriminate].
      destruct (future_local_waiters s) eqn:Ef; [|discriminate].
      destruct (negb p || _); [|discriminate].
      now intros [= <- _].
    + destruct (node =? mynode); [|discriminate].
      destruct (g =? generation s + 1) eqn:Eg.
      * apply Z.eqb_eq in Eg. subst g.
        destruct (future_local_waiters s) as [|[k ws] rest] eqn:Ef.
        -- now intros [= <- _].
        -- simpl in Hs, Hb. apply andb_true_iff in Hs, Hb.
           destruct Hs as [Hk Hs]. destruct Hb as [Hgk Hb].
           apply Z.ltb_lt in Hgk.
           assert (Hrest : forall e, In e rest -> k < fst e).
           { intros e He. rewrite forallb_forall in Hk.
             specialize (Hk e He). now apply Z.ltb_lt in Hk. }
           destruct (k =? generation s + 1) eqn:Ek; intros [= <- _]; simpl.
           ++ apply Z.eqb_eq in Ek. apply forallb_forall. intros e He.
              apply Z.ltb_lt. specialize (Hrest e He). lia.
           ++ apply Z.eqb_neq in Ek.
              assert (Ek' : (generation s + 1 <? k) = true)
                by (apply Z.ltb_lt; lia).
              rewrite Ek'. simpl. apply forallb_forall. intros e He.
              apply Z.ltb_lt. specialize (Hrest e He). lia.
      * destruct (g >? generation s + 1); [|discriminate].
        destruct (OMap.find g (future_local_waiters s));
          intros [= <- _]; simpl;
          [now apply OMapFacts.forallb_above_erase | exact Hb].
  - intros g pl Hg Hrun.
    destruct (g <=? generation s) eqn:Eg.
    + revert Hrun. unfold process_update.
      destruct (negb (owner s =? mynode)); [|discriminate].
      match goal with
      | |- context [if ?c then if g <=? generation s then _ else _ else None] =>
          destruct c; [|discriminate]
      end.
      rewrite Eg. now intros [= <- _].
    + apply Z.leb_gt in Eg.
      assert (Hown : owner s <> mynode).
      { intros Heq. revert Hrun. unfold process_update.
        apply Z.eqb_eq in Heq. now rewrite Heq. }
      destruct (process_update_outcome mynode limit s g pl Hown)
        as [Hnone Hsome]; try assumption; try lia.
      destruct (update_accepted limit s pl && triggers_acknowledged s g pl).
      * destruct (Hsome eq_refl)
          as (s2 & acts2 & Hrun2 & _ & _ & _ & _ & Hg2 & _ & _ & _ & Hf2 & _).
        rewrite Hrun in Hrun2. injection Hrun2 as <- <-.
        rewrite Hg2, Hf2. apply forallb_forall. intros e He.
        apply filter_In in He. destruct He as [_ He].
        apply Z.ltb_lt in He. apply Z.ltb_lt. lia.
      * rewrite (Hnone eq_refl) in Hrun. discriminate.
Qed.

(** An update from the owner wakes the waiters it covers, with one
    exception.  On a node that is not the owner, for an update to a later
    generation [current_gen], in any state whose maps are sorted and whose
    future waiter lists are for generations beyond [generation] (which
    [future_waiters_stay_beyond] shows to be kept): the call fails an
    assertion exactly when the update's poison list is not accepted or a
    local trigger up to [current_gen] disagrees with the updated list.
    Otherwise it publishes [current_gen], takes the longer poison list,
    and calls back every waiter queued for a generation up to
    [current_gen], each with its own generation and that generation's
    poison bit in the updated list, the current waiters first; it makes the
    waiters of [current_gen + 1] the current ones, keeps the rest queued as
    they were, and drops the local triggers up to [current_gen].  The
    exception: when a future list for [generation + 1] exists, it takes the
    place of the current waiters in [to_wake], and the current waiters are
    neither called nor kept. *)
Theorem process_update_wakes_covered_waiters
    (mynode limit : Z) (s : impl) (current_gen : Z) (new_poisoned : list Z) :
  owner s <> mynode ->
  0 <= generation s < current_gen ->
  current_gen < 2 ^ 32 - 1 ->
  OMap.sorted (future_local_waiters s) = true ->
  forallb (fun e => generation s <? fst e) (future_local_waiters s) = true ->
  OMap.sorted (local_triggers s) = true ->
  (update_accepted limit s new_poisoned
   && triggers_acknowledged s current_gen new_poisoned = false ->
   process_update mynode limit s current_gen new_poisoned = None)
  /\ (update_accepted limit s new_poisoned
      && triggers_acknowledged s current_gen new_poisoned = true ->
      exists s' acts,
        process_update mynode limit s current_gen new_poisoned
        = Some (s', acts)
        /\ generation s' = current_gen
        /\ poisoned_list s' = updated_poison s new_poisoned
        /\ woken acts
           = map (fun wg => (fst wg, make_event s (snd wg),
                             is_generation_poisoned s' (snd wg)))
                 (match OMap.find (generation s + 1)
                                  (future_local_waiters s) with
                  | Some _ => []
                  | None => map (fun w => (w, generation s + 1))
                                (current_local_waiters s)
                  end
                  ++ queued_in (filter (fun e => fst e <=? current_gen)
                                       (future_local_waiters s)))
        /\ current_local_waiters s'
           = match OMap.find (current_gen + 1) (future_local_waiters s) with
             | Some ws => ws
             | None => []
             end
        /\ future_local_waiters s'
           = filter (fun e => current_gen + 1 <? fst e)
                    (future_local_waiters s)
        /\ local_triggers s'
           = (if has_local_triggers s
              then filter (fun e => current_gen <? fst e) (local_triggers s)
              else local_triggers s)
        /\ has_local_triggers s'
           = (has_local_triggers s
              && negb (OMap.empty (filter (fun e => current_gen <? fst e)
                                          (local_triggers s))))
        /\ forallb (fun e => generation s' <? fst e)
                   (future_local_waiters s') = true).
Proof.
  intros Hown Hgen Hmax Hs Hb Hlts.
  destruct (process_update_outcome mynode limit s current_gen new_poisoned
              Hown Hgen Hmax Hs Hb Hlts) as [Hnone Hsome].
  split; [exact Hnone|]. intros Hacc.
  destruct (Hsome Hacc)
    as (s' & acts & Hrun & _ & _ & _ & _ & Hg & Hp & Hw & Hc & Hf & Hl & Hh).
  exists s', acts. split; [exact Hrun|]. split; [exact Hg|].
  split; [exact Hp|].
  split.
  { rewrite Hw. apply map_ext. intros wg.
    now rewrite is_generation_poisoned_existsb, Hp. }
  split; [exact Hc|]. split; [exact Hf|]. split; [exact Hl|].
  split; [exact Hh|].
  rewrite Hg, Hf. apply forallb_forall. intros e He.
  apply filter_In in He. destruct He as [_ He].
  apply Z.ltb_lt in He. apply Z.ltb_lt. lia.
Qed.

(** A subscriber at generation 1 holds two waiters for generation 2 and
    waiters for generations 3, 4 and 6; the update for generation 3, which
    the owner poisoned, wakes the first three and promotes the fourth.  Had
    a list for generation 2 been left among the future waiters, the two
    current waiters would not have been called. *)
Lemma process_update_wakes_covered_waiters_witness :
  let s := mk 7 0 1 6 0 [] false [] [21; 22]
              [(3, [31]); (4, [41]); (6, [61])] [] in
  let t := mk 7 0 1 6 0 [] false [] [21; 22]
              [(2, [23]); (3, [31])] [] in
  (exists s' acts,
     process_update 1 4 s 3 [3] = Some (s', acts)
     /\ woken acts = [(21, mkEvent 7 2, false); (22, mkEvent 7 2, false);
                      (31, mkEvent 7 3, true)]
     /\ current_local_waiters s' = [41]
     /\ future_local_waiters s' = [(6, [61])])
  /\ (exists t' acts,
        process_update 1 4 t 3 [3] = Some (t', acts)
        /\ woken acts = [(23, mkEvent 7 2, false); (31, mkEvent 7 3, true)]
        /\ current_local_waiters t' = []
        /\ future_local_waiters t' = []).
Proof.
  intros s t. split.
  - destruct (process_update_wakes_covered_waiters 1 4 s 3 [3])
      as [_ Hsome].
    + discriminate.
    + simpl. lia.
    + lia.
    + reflexivity.
    + reflexivity.
    + reflexivity.
    + destruct (Hsome eq_refl) as (s' & acts & H & _ & _ & Hw & Hc & Hf & _).
      exists s', acts. split; [exact H|].
      vm_compute in H. injection H as <- <-.
      split; [reflexivity|]. split; reflexivity.
  - destruct (process_update_wakes_covered_waiters 1 4 t 3 [3])
      as [_ Hsome].
    + discriminate.
    + simpl. lia.
    + lia.
    + reflexivity.
    + reflexivity.
    + reflexivity.
    + destruct (Hsome eq_refl) as (t' & acts & H & _ & _ & Hw & Hc & Hf & _).
      exists t', acts. split; [exact H|].
      vm_compute in H. injection H as <- <-.
      split; [reflexivity|]. split; reflexivity.
Defined.

Lemma NodeSet_add_in (n : Z) (ns : list Z) : In n (NodeSet_add n ns).
Proof.
  unfold NodeSet_add. destruct (existsb (fun x => x =? n) ns) eqn:E.
  - apply existsb_exists in E. destruct E as [x [Hx Hn]].
    apply Z.eqb_eq in Hn. now subst.
  - apply in_app_iff. right. now left.
Qed.

Lemma NodeSet_add_keeps (n m : Z) (ns : list Z) :
  In m ns -> In m (NodeSet_add n ns).
Proof.
  unfold NodeSet_add. destruct (existsb (fun x => x =? n) ns); [auto|].
  intros H. apply in_app_iff. now left.
Qed.

(** No subscription is lost.  A subscription for a generation that exists
    (at most the next one) is always served: if the generation has triggered
    the subscriber is sent an update carrying the owner's generation and
    poisoned list, and if it is the next generation the subscriber is put in
    [remote_waiters] (and is sent an update as well when the owner is ahead
    of what the subscriber had subscribed to before).  Nothing else of the
    event changes. *)
Theorem subscription_is_answered_or_recorded
    (s : impl) (node : Z) (ev : Event) (prev : Z) :
  0 <= generation s < 2 ^ 32 - 1 ->
  0 <= prev ->
  0 < gen ev <= generation s + 1 ->
  exists s' acts,
    EventSubscribeMessage_handle_request s node ev prev = Some (s', acts)
    /\ generation s' = generation s
    /\ poisoned_list s' = poisoned_list s
    /\ current_local_waiters s' = current_local_waiters s
    /\ (forall m, In m (remote_waiters s) -> In m (remote_waiters s'))
    /\ (gen ev <= generation s ->
        s' = s
        /\ acts = [EventUpdateMessage [node] (mkEvent (id ev) (generation s))
                                      (poisoned_list s)])
    /\ (gen ev = generation s + 1 ->
        In node (remote_waiters s')
        /\ acts = if generation s >? prev
                  then [EventUpdateMessage [node]
                          (mkEvent (id ev) (generation s)) (poisoned_list s)]
                  else []).
Proof.
  intros Hrange Hprev Hev.
  assert (Hu : u32 (generation s + 1) = generation s + 1)
    by (apply u32_id; lia).
  unfold EventSubscribeMessage_handle_request. rewrite Hu.
  destruct (generation s >=? gen ev) eqn:E.
  - assert (Hle : gen ev <= generation s)
      by (rewrite Z.geb_leb in E; now apply Z.leb_le in E).
    assert (Hpos : (generation s >? 0) = true) by (apply Z.gtb_lt; lia).
    rewrite Hpos. eexists. eexists. split; [reflexivity|].
    simpl. split; [reflexivity|]. split; [reflexivity|].
    split; [reflexivity|]. split; [intros m Hm; exact Hm|].
    split; [intros _; split; reflexivity|]. intros Heq. lia.
  - assert (Hgt : generation s < gen ev)
      by (rewrite Z.geb_leb in E; now apply Z.leb_gt in E).
    assert (Enext : (gen ev =? generation s + 1) = true)
      by (apply Z.eqb_eq; lia).
    rewrite Enext. eexists. eexists. split; [reflexivity|]. simpl.
    split; [reflexivity|]. split; [reflexivity|]. split; [reflexivity|].
    split; [intros m; apply NodeSet_add_keeps|].
    split; [intros Hle; lia|]. intros _.
    split; [apply NodeSet_add_in|].
    destruct (generation s >? prev) eqn:Ep; [|reflexivity].
    assert (Hpos : (generation s >? 0) = true)
      by (apply Z.gtb_lt; apply Z.gtb_lt in Ep; lia).
    now rewrite Hpos.
Qed.

(** The owner is at generation 4; node 2 subscribes to generation 5 having
    last subscribed to generation 3. *)
Lemma subscription_is_answered_or_recorded_witness :
  let s := mk 7 0 4 0 1 [2; 0; 0; 0] false [] [11] [] [3] in
  exists s' acts,
    EventSubscribeMessage_handle_request s 2 (mkEvent 7 5) 3 = Some (s', acts)
    /\ remote_waiters s' = [3; 2]
    /\ acts = [EventUpdateMessage [2] (mkEvent 7 4) [2]].
Proof.
  intros s.
  destruct (subscription_is_answered_or_recorded s 2 (mkEvent 7 5) 3)
    as (s' & acts & H & _).
  - simpl. lia.
  - lia.
  - simpl. lia.
  - exists s', acts. split; [exact H|].
    vm_compute in H. injection H as <- <-. split; reflexivity.
Defined.

Lemma firstn_length_app {A : Type} (l l2 : list A) :
  firstn (length l) (l ++ l2) = l.
Proof. induction l as [|x l IH]; simpl; [reflexivity | now rewrite IH]. Qed.

Lemma existsb_eqb_in (g : Z) (l : list Z) :
  existsb (fun x => x =? g) l = true <-> In g l.
Proof.
  rewrite existsb_exists. split.
  - intros [x [Hx He]]. apply Z.eqb_eq in He. now subst.
  - intros H. exists g. split; [exact H | apply Z.eqb_refl].
Qed.

(** An update that brings no later generation: once its poison list has
    passed the first check it is old news, and changes nothing. *)
Lemma process_update_old_news
    (mynode limit : Z) (s : impl) (current_gen : Z) (pl : list Z) :
  owner s <> mynode ->
  current_gen <= generation s ->
  process_update mynode limit s current_gen pl
  = if poison_continues s pl then Some (s, []) else None.
Proof.
  intros Hown Hle. unfold process_update, poison_continues.
  apply Z.eqb_neq in Hown. rewrite Hown. simpl negb. cbv iota.
  assert (E : (current_gen <=? generation s) = true) by now apply Z.leb_le.
  now rewrite E.
Qed.

(** An accepted poison list is the list the node knows afterwards. *)
Lemma poison_continues_updated (s : impl) (pl : list Z) :
  poison_continues s pl = true -> updated_poison s pl = pl.
Proof.
  unfold poison_continues, updated_poison, poisoned_list.
  destruct (num_poisoned_generations s <? Z.of_nat (length pl)) eqn:E1;
    [reflexivity|].
  apply Z.ltb_ge in E1.
  destruct (0 <? Z.of_nat (length pl)) eqn:E0.
  - intros H. apply andb_true_iff in H. destruct H as [Hle Hcmp].
    apply Z.leb_le in Hle. apply Z.ltb_lt in E0.
    assert (E2 : (0 <? num_poisoned_generations s) = true)
      by (apply Z.ltb_lt; lia).
    rewrite E2 in Hcmp.
    destruct (list_eq_dec Z.eq_dec _ pl) as [Heq|]; [|discriminate].
    replace (Z.to_nat (num_poisoned_generations s)) with (length pl) by lia.
    exact Heq.
  - intros H. apply Z.eqb_eq in H. rewrite H. apply Z.ltb_ge in E0.
    destruct pl; [reflexivity | simpl in E0; lia].
Qed.

(** The future lists up to the next generation, when all lists are beyond
    the current one: the list of the next generation, if there is one. *)
Lemma filter_next_generation (g : Z) (fut : OMap.t (list Waiter)) :
  OMap.sorted fut = true ->
  forallb (fun e : Z * list Waiter => g <? fst e) fut = true ->
  filter (fun e : Z * list Waiter => fst e <=? g + 1) fut
  = match OMap.find (g + 1) fut with
    | Some l => [(g + 1, l)]
    | None => []
    end.
Proof.
  intros Hs Hb. destruct fut as [|[k l] rest]; [reflexivity|].
  simpl in Hs, Hb. apply andb_true_iff in Hs, Hb.
  destruct Hs as [Hk _]. destruct Hb as [Hgk _]. apply Z.ltb_lt in Hgk.
  assert (Hrest : filter (fun e : Z * list Waiter => fst e <=? g + 1) rest
                  = []).
  { apply filter_none. intros e He. rewrite forallb_forall in Hk.
    specialize (Hk e He). apply Z.ltb_lt in Hk. apply Z.leb_gt.
    simpl in Hk. lia. }
  simpl. rewrite Hrest.
  destruct (Z.eq_dec k (g + 1)) as [->|Hne].
  - now rewrite Z.leb_refl, Z.eqb_refl.
  - assert (E1 : (k <=? g + 1) = false) by (apply Z.leb_gt; lia).
    assert (E2 : (k =? g + 1) = false) by now apply Z.eqb_neq.
    rewrite E1, E2.
    rewrite OMapFacts.find_none_above; [reflexivity|].
    apply forallb_forall. intros e He. rewrite forallb_forall in Hk.
    specialize (Hk e He). apply Z.ltb_lt in Hk. apply Z.ltb_lt.
    simpl in Hk. lia.
Qed.

(** The update for the next generation on a subscriber that has no poison,
    no local triggers and no waiters queued for later generations. *)
Lemma process_update_next_generation
    (mynode limit : Z) (s : impl) (pl : list Z) :
  owner s <> mynode ->
  num_poisoned_generations s = 0 ->
  has_local_triggers s = false ->
  future_local_waiters s = [] ->
  0 <= generation s < 2 ^ 32 - 1 ->
  Z.of_nat (length pl) <= limit ->
  exists s',
    process_update mynode limit s (generation s + 1) pl
    = Some (s', notify_all (current_local_waiters s)
                           (make_event s (generation s + 1))
                           (existsb (fun x => x =? generation s + 1) pl))
    /\ generation s' = generation s + 1
    /\ is_generation_poisoned s' (generation s + 1)
       = existsb (fun x => x =? generation s + 1) pl.
Proof.
  intros Hown Hnum Hhas Hfut Hrange Hlen. unfold process_update.
  apply Z.eqb_neq in Hown. rewrite Hown, Hnum, Hhas, Hfut. simpl negb.
  assert (Hu : u32 (generation s + 1) = generation s + 1)
    by (apply u32_id; lia).
  assert (E : (generation s + 1 <=? generation s) = false)
    by (apply Z.leb_gt; lia).
  assert (El : (Z.of_nat (length pl) <=? limit) = true)
    by now apply Z.leb_le.
  assert (E0 : (0 <=? Z.of_nat (length pl)) = true) by (apply Z.leb_le; lia).
  rewrite E, El, Hu, E0, Bool.orb_true_r.
  set (gn := generation s + 1) in *.
  destruct (0 <? Z.of_nat (length pl)) eqn:Ec; simpl andb; cbv iota.
  - apply Z.ltb_lt in Ec.
    assert (Ez : (Z.of_nat (length pl) =? 0) = false)
      by (apply Z.eqb_neq; lia).
    eexists. split.
    + destruct (current_local_waiters s) as [|w0 ws]; simpl;
        unfold is_generation_poisoned, poisoned_list; simpl.
      * reflexivity.
      * rewrite Nat2Z.id, firstn_length_app, app_nil_r, Ez. reflexivity.
    + split; [reflexivity|].
      unfold is_generation_poisoned, poisoned_list. simpl.
      rewrite Nat2Z.id, firstn_length_app, Ez. reflexivity.
  - assert (Hnil : pl = [])
      by (apply Z.ltb_ge in Ec; destruct pl; [reflexivity | simpl in Ec; lia]).
    subst pl. eexists. split.
    + destruct (current_local_waiters s) as [|w0 ws]; simpl;
        unfold is_generation_poisoned; simpl; [reflexivity|].
      now rewrite app_nil_r.
    + split; reflexivity.
Qed.

(** The owner's trigger sends every recorded subscriber one update that
    carries the new generation and the poisoned list as it is afterwards. *)
Lemma trigger_owner_updates_subscribers
    (limit : Z) (s : impl) (q : bool) :
  future_local_waiters s = [] ->
  0 <= generation s < 2 ^ 32 - 1 ->
  (q = true -> num_poisoned_generations s < limit) ->
  remote_waiters s <> [] ->
  exists s' rest,
    trigger_owner limit s (generation s + 1) q
    = Some (s', EventUpdateMessage (remote_waiters s)
                  (make_event s (generation s + 1)) (poisoned_list s') :: rest)
    /\ woken rest = map (fun w => (w, make_event s (generation s + 1), q))
                        (current_local_waiters s).
Proof.
  intros Hfut Hrange Hlim Hrem. unfold trigger_owner.
  assert (Hu : u32 (generation s + 1) = generation s + 1)
    by (apply u32_id; lia).
  rewrite Hu, Z.eqb_refl, Hfut. simpl OMap.empty. cbv iota.
  assert (Ha : negb q || (num_poisoned_generations s <? limit) = true).
  { destruct q; [|reflexivity]. simpl. apply Z.ltb_lt. now apply Hlim. }
  rewrite Ha.
  destruct (remote_waiters s) as [|n0 ns] eqn:Er; [congruence|].
  eexists. eexists. split; [simpl; reflexivity|].
  rewrite woken_app, woken_notify_all.
  match goal with
  | |- context [if ?c then [FreeEntry _] else []] => destruct c
  end; reflexivity.
Qed.

(** A fault travels from the owner to a waiter on another node, where the
    update is accepted.  The owner [o] and a replica [r] on node [n] agree
    on the generation [g]; the replica has subscribed to nothing beyond it
    and has not triggered [g + 1] itself; its maps are sorted and its future
    lists are for generations beyond [g].  A waiter [w] is added on [n] for
    [g + 1].  Then the replica subscribes; the owner records the
    subscriber, and an update that it answers at once is old news on the
    replica (or fails the first assertion of [process_update]).  When the
    owner triggers [g + 1] with poison bit [p] its update goes to [n], and
    the owner reports [g + 1] as triggered with [p].  Delivering the update
    fails an assertion exactly when its poison list is not accepted or a
    local trigger disagrees with it.  That never happens on a replica that
    knows no poisoned generation and has no local triggers.  It always
    happens for a poisoned trigger on a replica that already knows the
    poisoned generations of the owner, unless the array cell behind them
    holds [g + 1] by chance: the comparison runs over the length of the
    update.  When the update is accepted, everyone woken is told [g + 1]
    with exactly [p], the replica reports [g + 1] as triggered with [p],
    and those woken are the current waiters followed by [w], unless a
    future list for [g + 1] exists, which is woken in their place. *)
Theorem remote_waiter_sees_owner_poison
    (limit n node : Z) (o r : impl) (w : Waiter) (p : bool) :
  me r = me o -> owner r = owner o -> n <> owner o ->
  generation r = generation o ->
  0 <= generation o -> generation o + 1 < 2 ^ 32 - 1 ->
  gen_subscribed r <= generation o ->
  OMap.find (generation o + 1) (local_triggers r) = None ->
  OMap.sorted (local_triggers r) = true ->
  OMap.sorted (future_local_waiters r) = true ->
  forallb (fun e => generation r <? fst e) (future_local_waiters r) = true ->
  future_local_waiters o = [] ->
  poison_wf limit o ->
  (p = true -> num_poisoned_generations o < limit) ->
  Forall (fun x => x <= generation o) (poisoned_list o) ->
  exists r1 o1 o2 early rest,
    add_waiter n r (generation o + 1) w
    = Some (r1, [EventSubscribeMessage (owner o)
                   (mkEvent (me o) (generation o + 1)) (gen_subscribed r)])
    /\ EventSubscribeMessage_handle_request
         o n (mkEvent (me o) (generation o + 1)) (gen_subscribed r)
       = Some (o1, early)
    /\ (forall e pl, In (EventUpdateMessage [n] e pl) early ->
                     process_update n limit r1 (gen e) pl
                     = if poison_continues r pl then Some (r1, []) else None)
    /\ trigger (owner o) limit o1 (generation o + 1) node p
       = Some (o2, EventUpdateMessage (remote_waiters o1)
                     (mkEvent (me o) (generation o + 1)) (poisoned_list o2)
                   :: rest)
    /\ In n (remote_waiters o1)
    /\ has_triggered o2 (generation o + 1) = (true, p)
    /\ (update_accepted limit r (poisoned_list o2)
        && triggers_acknowledged r (generation o + 1) (poisoned_list o2)
        = false ->
        process_update n limit r1 (generation o + 1) (poisoned_list o2)
        = None)
    /\ (update_accepted limit r (poisoned_list o2)
        && triggers_acknowledged r (generation o + 1) (poisoned_list o2)
        = true ->
        exists r2 acts_r,
          process_update n limit r1 (generation o + 1) (poisoned_list o2)
          = Some (r2, acts_r)
          /\ woken acts_r
             = map (fun x => (x, mkEvent (me o) (generation o + 1), p))
                   (match OMap.find (generation o + 1)
                                    (future_local_waiters r) with
                    | Some l => l
                    | None => current_local_waiters r ++ [w]
                    end)
          /\ has_triggered r2 (generation o + 1) = (true, p))
    /\ (num_poisoned_generations r = 0 -> has_local_triggers r = false ->
        update_accepted limit r (poisoned_list o2)
        && triggers_acknowledged r (generation o + 1) (poisoned_list o2)
        = true)
    /\ (0 < num_poisoned_generations r -> p = true ->
        poisoned_list r = poisoned_list o ->
        nth (Z.to_nat (num_poisoned_generations r))
            (poisoned_generations r) 0 <> generation o + 1 ->
        update_accepted limit r (poisoned_list o2)
        && triggers_acknowledged r (generation o + 1) (poisoned_list o2)
        = false).
Proof.
  intros Hme Hown Hn Hgen Hg0 Hg1 Hsub Hnotrig Hlts Hfs Hfb Hfuto Hwf Hlim
         Hold.
  set (g := generation o) in *.
  assert (Hrange : 0 <= g < 2 ^ 32 - 1) by lia.
  assert (Hu : u32 (g + 1) = g + 1) by (apply u32_id; lia).
  assert (Hne : owner r <> n) by congruence.
  (* the waiter is queued and the replica subscribes *)
  pose (r1 := mk (me r) (owner r) (generation r) (g + 1)
                 (num_poisoned_generations r) (poisoned_generations r)
                 (has_local_triggers r) (local_triggers r)
                 (current_local_waiters r ++ [w]) (future_local_waiters r)
                 (remote_waiters r)).
  assert (H1 : add_waiter n r (g + 1) w
               = Some (r1, [EventSubscribeMessage (owner o)
                              (mkEvent (me o) (g + 1)) (gen_subscribed r)])).
  { unfold add_waiter, make_event, r1. rewrite Hgen, Hnotrig, Hu.
    fold g.
    assert (E1 : (g + 1 <=? g) = false) by (apply Z.leb_gt; lia).
    assert (E2 : (owner r =? n) = false) by now apply Z.eqb_neq.
    assert (E3 : (gen_subscribed r <? g + 1) = true) by (apply Z.ltb_lt; lia).
    rewrite E1, Z.eqb_refl, E2, E3. simpl. rewrite Hme, Hown.
    reflexivity. }
  (* the owner records the subscriber *)
  pose (o1 := mk (me o) (owner o) (generation o) (gen_subscribed o)
                 (num_poisoned_generations o) (poisoned_generations o)
                 (has_local_triggers o) (local_triggers o)
                 (current_local_waiters o) (future_local_waiters o)
                 (NodeSet_add n (remote_waiters o))).
  pose (tg := if g >? gen_subscribed r then g else 0).
  pose (early := if tg >? 0
                 then [EventUpdateMessage [n] (mkEvent (me o) tg)
                                          (poisoned_list o1)]
                 else []).
  assert (H2 : EventSubscribeMessage_handle_request
                 o n (mkEvent (me o) (g + 1)) (gen_subscribed r)
               = Some (o1, early)).
  { unfold EventSubscribeMessage_handle_request. fold g. simpl gen.
    assert (E1 : (g >=? g + 1) = false)
      by (rewrite Z.geb_leb; apply Z.leb_gt; lia).
    rewrite E1, Hu, Z.eqb_refl. reflexivity. }
  assert (H3 : forall e pl, In (EventUpdateMessage [n] e pl) early ->
                 process_update n limit r1 (gen e) pl
                 = if poison_continues r pl then Some (r1, []) else None).
  { intros e pl Hin.
    change (poison_continues r pl) with (poison_continues r1 pl).
    apply process_update_old_news; [exact Hne|].
    simpl. rewrite Hgen. fold g. unfold early in Hin.
    destruct (tg >? 0); [|contradiction].
    destruct Hin as [[= <- _]|[]]. simpl. unfold tg.
    destruct (g >? gen_subscribed r); lia. }
  (* the owner triggers *)
  assert (Hin : In n (remote_waiters o1)) by apply NodeSet_add_in.
  destruct (trigger_owner_updates_subscribers limit o1 p)
    as (o2 & rest & H4 & Hrest).
  { exact Hfuto. } { exact Hrange. } { exact Hlim. }
  { intros Hnil. rewrite Hnil in Hin. contradiction. }
  assert (Hwf1 : poison_wf limit o1) by exact Hwf.
  destruct (trigger_owner_poisoned_list limit o1 o2 _ p _ Hwf1 H4)
    as (Hg2 & _ & _ & _ & Hnum2 & Hpl).
  change (poisoned_list o1) with (poisoned_list o) in Hpl.
  change (num_poisoned_generations o1)
    with (num_poisoned_generations o) in Hnum2.
  change (generation o1) with g in *.
  set (pl2 := poisoned_list o2) in *.
  assert (Hlen : Z.of_nat (length pl2) <= limit).
  { rewrite Hpl, length_app. unfold poisoned_list at 1.
    pose proof (firstn_le_length (Z.to_nat (num_poisoned_generations o))
                                 (poisoned_generations o)) as Hf.
    destruct Hwf as [Hnumo _].
    destruct p; simpl length; [specialize (Hlim eq_refl)|]; lia. }
  assert (Hbit : existsb (fun x => x =? g + 1) pl2 = p).
  { rewrite Hpl. destruct p.
    - apply existsb_eqb_in, in_app_iff. right. now left.
    - rewrite app_nil_r. apply Bool.not_true_is_false. intros Hx.
      apply existsb_eqb_in in Hx. rewrite Forall_forall in Hold.
      apply Hold in Hx. lia. }
  (* the update reaches the replica *)
  assert (Hr1g : 0 <= generation r1 < g + 1)
    by (simpl; rewrite Hgen; fold g; lia).
  destruct (process_update_outcome n limit r1 (g + 1) pl2 Hne Hr1g Hg1
              Hfs Hfb Hlts) as [Hnone Hsome].
  change (update_accepted limit r1 pl2) with (update_accepted limit r pl2)
    in Hnone, Hsome.
  change (triggers_acknowledged r1 (g + 1) pl2)
    with (triggers_acknowledged r (g + 1) pl2) in Hnone, Hsome.
  exists r1, o1, o2, early, rest.
  split; [exact H1|]. split; [exact H2|]. split; [exact H3|].
  split.
  { unfold trigger. change (owner o1) with (owner o). rewrite Z.eqb_refl.
    exact H4. }
  split; [exact Hin|].
  split.
  { unfold has_triggered. rewrite Hg2, Z.leb_refl. f_equal.
    rewrite is_generation_poisoned_existsb. exact Hbit. }
  split; [exact Hnone|].
  split.
  { intros Hacc. destruct (Hsome Hacc)
      as (r2 & acts & Hrun & _ & _ & _ & _ & Hgr & Hp2 & Hw & _).
    assert (Hpc : poison_continues r pl2 = true).
    { unfold update_accepted in Hacc. apply andb_true_iff in Hacc.
      destruct Hacc as [Hacc _]. apply andb_true_iff in Hacc. tauto. }
    assert (Hup : updated_poison r1 pl2 = pl2)
      by (apply poison_continues_updated; exact Hpc).
    exists r2, acts. split; [exact Hrun|].
    split.
    - rewrite Hw, Hup.
      change (generation r1) with (generation r).
      change (future_local_waiters r1) with (future_local_waiters r).
      change (current_local_waiters r1) with (current_local_waiters r ++ [w]).
      rewrite Hgen. fold g.
      rewrite (filter_next_generation g (future_local_waiters r) Hfs)
        by (rewrite <- Hgen; exact Hfb).
      destruct (OMap.find (g + 1) (future_local_waiters r)) as [l|].
      + simpl. rewrite app_nil_r, map_map. apply map_ext. intros x. simpl.
        unfold make_event. simpl. now rewrite Hme, Hbit.
      + rewrite app_nil_r, map_map. apply map_ext. intros x. simpl.
        unfold make_event. simpl. now rewrite Hme, Hbit.
    - unfold has_triggered. rewrite Hgr, Z.leb_refl. f_equal.
      now rewrite is_generation_poisoned_existsb, Hp2, Hup. }
  split.
  { intros Hnum Hhas. unfold update_accepted, poison_continues,
      triggers_acknowledged.
    rewrite Hnum, Hhas. simpl negb. simpl orb. rewrite andb_true_r.
    assert (E0 : (0 <=? Z.of_nat (length pl2)) = true)
      by (apply Z.leb_le; lia).
    assert (El : (Z.of_nat (length pl2) <=? limit) = true)
      by now apply Z.leb_le.
    fold pl2. rewrite E0, El, Bool.orb_true_r, andb_true_r.
    now destruct (0 <? Z.of_nat (length pl2)). }
  intros Hnum Hp Hsame Hcell. rewrite Hp in Hpl.
  apply andb_false_iff. left. unfold update_accepted.
  apply andb_false_iff. left. unfold poison_continues. fold pl2.
  set (plo := poisoned_list o) in *.
  assert (Hcount : length pl2 = S (length plo)).
  { rewrite Hpl, length_app.
    cbn [length]. lia. }
  assert (E0 : (0 <? Z.of_nat (length pl2)) = true)
    by (apply Z.ltb_lt; lia).
  assert (E1 : (0 <? num_poisoned_generations r) = true)
    by now apply Z.ltb_lt.
  rewrite E0, E1.
  destruct (list_eq_dec Z.eq_dec _ pl2) as [Heq|]; [|apply andb_false_r].
  exfalso.
  assert (Hcellv : nth (length plo) (poisoned_generations r) 0 = g + 1).
  { apply (f_equal (fun l => nth (length plo) l 0)) in Heq.
    rewrite Hpl in Heq at 2.
    rewrite app_nth2, Nat.sub_diag in Heq by lia. simpl in Heq.
    rewrite nth_firstn in Heq.
    assert (E : (length plo <? length pl2)%nat = true)
      by (apply Nat.ltb_lt; lia).
    now rewrite E in Heq. }
  assert (Hlplo : length plo
                  = Nat.min (Z.to_nat (num_poisoned_generations r))
                            (length (poisoned_generations r))).
  { rewrite <- Hsame. unfold poisoned_list. apply length_firstn. }
  destruct (Nat.le_gt_cases (Z.to_nat (num_poisoned_generations r))
                            (length (poisoned_generations r))) as [Hle|Hgt].
  - apply Hcell. rewrite <- Hcellv. f_equal. lia.
  - rewrite nth_overflow in Hcellv by lia. lia.
Qed.

(** Owner on node 0 and a replica on node 1, both at generation 2; the
    owner has recorded a fault of generation 1 that the replica never heard
    of.  Waiter 55 waits on node 1 for generation 3, which the owner then
    triggers poisoned. *)
Lemma remote_waiter_sees_owner_poison_witness :
  let o := mk 7 0 2 0 1 [1; 0; 0; 0] false [] [90] [] [] in
  let r := mk 7 0 2 2 0 [] false [] [] [] [] in
  exists r1 o2 r2 acts_r,
    add_waiter 1 r 3 55
    = Some (r1, [EventSubscribeMessage 0 (mkEvent 7 3) 2])
    /\ process_update 1 4 r1 3 (poisoned_list o2) = Some (r2, acts_r)
    /\ woken acts_r = [(55, mkEvent 7 3, true)]
    /\ has_triggered o2 3 = (true, true)
    /\ has_triggered r2 3 = (true, true).
Proof.
  intros o r.
  destruct (remote_waiter_sees_owner_poison 4 1 0 o r 55 true)
    as (r1 & o1 & o2 & early & rest
        & H1 & _ & _ & _ & _ & H6 & _ & Hsome & Hclean & _).
  - reflexivity.
  - reflexivity.
  - discriminate.
  - reflexivity.
  - simpl. lia.
  - simpl. lia.
  - simpl. lia.
  - reflexivity.
  - reflexivity.
  - reflexivity.
  - reflexivity.
  - reflexivity.
  - split; [simpl; lia | right; reflexivity].
  - intros _. simpl. lia.
  - apply Forall_cons; [simpl; lia | apply Forall_nil].
  - destruct (Hsome (Hclean eq_refl eq_refl)) as (r2 & acts_r & H7 & H8 & H9).
    exists r1, o2, r2, acts_r.
    split; [exact H1|]. split; [exact H7|]. split; [exact H8|].
    split; [exact H6 | exact H9].
Defined.

Lemma StronglySorted_snoc (l : list Z) (x : Z) :
  StronglySorted Z.lt l -> Forall (fun y => y < x) l ->
  StronglySorted Z.lt (l ++ [x]).
Proof.
  induction 1 as [|a l Hl IH Ha]; intros Hx; simpl.
  - constructor; constructor.
  - inversion Hx; subst. constructor; [now apply IH|].
    apply Forall_app. split; [exact Ha|]. now constructor.
Qed.

(** The class invariant of an event is kept by everything that runs on its
    owner: triggers, waiters and subscription requests.  So the poison list
    stays strictly increasing, within the array, and about triggered
    generations only; the owner never holds waiters for generations beyond
    the next one, nor local triggers; and the generation moves forward only.
    A generation that has not triggered is never reported as poisoned. *)
Theorem owner_ok_is_kept (mynode limit : Z) (s : impl) :
  owner_ok limit s -> mynode = owner s -> generation s < 2 ^ 32 - 1 ->
  (forall g node q s' acts,
      trigger mynode limit s g node q = Some (s', acts) ->
      owner_ok limit s' /\ generation s' = generation s + 1)
  /\ (forall g w s' acts,
        add_waiter mynode s g w = Some (s', acts) ->
        owner_ok limit s' /\ generation s' = generation s)
  /\ (forall node ev prev s' acts,
        EventSubscribeMessage_handle_request s node ev prev
        = Some (s', acts) ->
        owner_ok limit s' /\ generation s' = generation s)
  /\ (forall g, generation s < g -> is_generation_poisoned s g = false).
Proof.
  intros Hok Hown Hmax.
  pose proof Hok as (Hwf & Hg & Hfut & Hlt & Hhas & Hsorted & Hall).
  split; [|split; [|split]].
  - intros g node q s' acts H. unfold trigger in H.
    rewrite Hown, Z.eqb_refl in H.
    pose proof (GenEventImplFacts.trigger_owner_keeps_poison_wf
                  limit s s' g q acts Hwf H) as Hwf'.
    destruct (trigger_owner_poisoned_list limit s s' g q acts Hwf H)
      as (Hg' & Hgt & Hhas' & Hlt' & _ & Hpl).
    rewrite u32_id in Hgt by lia.
    assert (Hfut' : future_local_waiters s' = []).
    { unfold trigger_owner in H.
      destruct (g =? u32 (generation s + 1)); [|discriminate].
      destruct (OMap.empty (future_local_waiters s)); [|discriminate].
      destruct (negb q || (num_poisoned_generations s <? limit));
        [|discriminate].
      injection H as <- _. exact Hfut. }
    split; [|lia].
    split; [exact Hwf'|]. split; [lia|]. split; [exact Hfut'|].
    split; [congruence|]. split; [congruence|].
    rewrite Hpl, Hg'. destruct q.
    + split.
      * apply StronglySorted_snoc; [exact Hsorted|].
        eapply Forall_impl; [|exact Hall]. simpl. intros; lia.
      * apply Forall_app. split.
        -- eapply Forall_impl; [|exact Hall]. simpl. intros; lia.
        -- constructor; [lia | constructor].
    + rewrite app_nil_r. split; [exact Hsorted|].
      eapply Forall_impl; [|exact Hall]. simpl. intros; lia.
  - intros g w s' acts H. unfold add_waiter in H.
    assert (Eo : (owner s =? mynode) = true) by (apply Z.eqb_eq; congruence).
    destruct (g <=? generation s).
    { injection H as <- _. split; [exact Hok | reflexivity]. }
    rewrite Hlt in H. simpl in H. rewrite Eo in H. simpl in H.
    destruct (g =? u32 (generation s + 1)); [|discriminate].
    injection H as <- _. split; [|reflexivity].
    split; [exact Hwf|]. split; [exact Hg|]. split; [exact Hfut|].
    split; [reflexivity|]. split; [exact Hhas|].
    split; [exact Hsorted | exact Hall].
  - intros node ev prev s' acts H.
    unfold EventSubscribeMessage_handle_request in H.
    destruct (generation s >=? gen ev).
    { injection H as <- _. split; [exact Hok | reflexivity]. }
    destruct (gen ev =? u32 (generation s + 1)).
    + injection H as <- _. split; [exact Hok | reflexivity].
    + destruct (gen ev <=? generation s); [|discriminate].
      injection H as <- _. split; [exact Hok | reflexivity].
  - intros g Hlt'. unfold is_generation_poisoned.
    destruct (num_poisoned_generations s =? 0); [reflexivity|].
    apply Bool.not_true_is_false. intros Hx.
    apply existsb_eqb_in in Hx. rewrite Forall_forall in Hall.
    apply Hall in Hx. lia.
Qed.

(** An owner that has recorded generation 2 as poisoned triggers
    generation 4 with poison. *)
Lemma owner_ok_is_kept_witness :
  let s := mk 7 0 3 0 1 [2; 0; 0; 0] false [] [11] [] [5] in
  exists s' acts,
    trigger 0 4 s 4 0 true = Some (s', acts)
    /\ owner_ok 4 s'
    /\ poisoned_list s' = [2; 4].
Proof.
  intros s.
  assert (Hok : owner_ok 4 s).
  { split; [split; [simpl; lia | right; reflexivity]|].
    split; [simpl; lia|]. split; [reflexivity|]. split; [reflexivity|].
    split; [reflexivity|].
    split; [repeat constructor | repeat constructor; simpl; lia]. }
  destruct (owner_ok_is_kept 0 4 s Hok eq_refl ltac:(simpl; lia))
    as (H1 & _).
  destruct (trigger 0 4 s 4 0 true) as [[s' acts]|] eqn:E;
    [|vm_compute in E; discriminate].
  exists s', acts. split; [reflexivity|].
  split; [exact (proj1 (H1 _ _ _ _ _ E))|].
  vm_compute in E. injection E as <- _. reflexivity.
Defined.
End GenEventProtocol.

(** ** The life of an event merger *)

Module EventMergerFacts.

Import EventMerger.

Lemma triggered_events_app a b :
  triggered_events (a ++ b) = triggered_events a ++ triggered_events b.
Proof. unfold triggered_events. now rewrite flat_map_app. Qed.

Lemma registered_app a b : registered (a ++ b) = registered a ++ registered b.
Proof. unfold registered. now rewrite flat_map_app. Qed.

(** A query triggers nothing and registers nobody. *)
Lemma query_is_quiet (mynode : Z) (rt : Runtime) (e : Event) (p : bool) :
  let '(_, _, _, acts) := Event_has_triggered_faultaware mynode rt e p in
  triggered_events acts = [] /\ registered acts = [].
Proof.
  unfold Event_has_triggered_faultaware.
  destruct (id e =? 0); [now split|].
  destruct (rt (id e)) as [g|b].
  - destruct (GenEventImpl.has_triggered g (gen e)). now split.
  - unfold BarrierImpl.has_triggered.
    destruct (gen e <=? BarrierImpl.generation b); [now split|].
    destruct (negb (BarrierImpl.owner b =? mynode)); [|now split].
    destruct (BarrierImpl.gen_subscribed b <? gen e); now split.
Qed.

(** What one [add_event] does to the counters. *)
Lemma add_event_counters
    (mynode : Z) (rt rt' : Runtime) (m m' : merger) (e : Event)
    (acts : list Action) :
  add_event mynode rt m e = (m', rt', acts) ->
  0 <= faults_observed m < 2 ^ 31 - 1 ->
  0 <= count_needed m < 2 ^ 31 - 1 ->
  finish_event m' = finish_event m
  /\ ignore_faults m' = ignore_faults m
  /\ this m' = this m
  /\ ((registered acts = []
       /\ count_needed m' = count_needed m
       /\ faults_observed m' = faults_observed m + 1
       /\ triggered_events acts
          = if negb (ignore_faults m) && (faults_observed m =? 0)
            then [(finish_event m, true)] else [])
      \/ (registered acts = [(e, this m)]
          /\ count_needed m' = count_needed m + 1
          /\ faults_observed m' = faults_observed m
          /\ triggered_events acts = [])).
Proof.
  unfold add_event. pose proof (query_is_quiet mynode rt e false) as Hq.
  destruct (Event_has_triggered_faultaware mynode rt e false)
    as [[[tr po] rt1] acts1].
  destruct Hq as [Ht Hr]. intros H Hf Hc.
  destruct tr; injection H as <- _ <-; simpl;
    (split; [reflexivity|]); (split; [reflexivity|]); (split; [reflexivity|]).
  - left. rewrite registered_app, triggered_events_app, Ht, Hr.
    split; [|split; [reflexivity|split; [apply i32_id; lia|]]].
    + destruct ((faults_observed m =? 0) && negb (ignore_faults m));
        reflexivity.
    + rewrite Bool.andb_comm.
      destruct (negb (ignore_faults m) && (faults_observed m =? 0));
        reflexivity.
  - right. rewrite registered_app, triggered_events_app, Ht, Hr.
    split; [reflexivity|]. split; [apply i32_id; lia|]. now split.
Qed.

(** What the loop of [add_event] calls does to the counters: one count per
    waiter registered, one fault per input that needed no waiter, and the
    early trigger when the first fault is counted. *)
Lemma add_events_counters
    (mynode : Z) (wait_for : list Event) :
  forall (rt rt' : Runtime) (m m' : merger) (acts : list Action),
  add_events mynode rt m wait_for = (m', rt', acts) ->
  0 <= faults_observed m ->
  faults_observed m + Z.of_nat (length wait_for) < 2 ^ 31 ->
  0 <= count_needed m ->
  count_needed m + Z.of_nat (length wait_for) < 2 ^ 31 ->
  finish_event m' = finish_event m
  /\ ignore_faults m' = ignore_faults m
  /\ count_needed m'
     = count_needed m + Z.of_nat (length (registered acts))
  /\ faults_observed m' + Z.of_nat (length (registered acts))
     = faults_observed m + Z.of_nat (length wait_for)
  /\ (length (registered acts) <= length wait_for)%nat
  /\ triggered_events acts
     = if negb (ignore_faults m) && (faults_observed m =? 0)
          && (0 <? faults_observed m')
       then [(finish_event m, true)] else [].
Proof.
  induction wait_for as [|e rest IH]; intros rt rt' m m' acts H Hf0 Hf Hc0 Hc.
  - simpl in H. injection H as <- _ <-. simpl.
    repeat (split; [reflexivity || lia|]).
    destruct (negb (ignore_faults m)); simpl; [|reflexivity].
    destruct (faults_observed m =? 0) eqn:E; simpl; [|reflexivity].
    apply Z.eqb_eq in E. rewrite E. reflexivity.
  - simpl in H. simpl length in *.
    destruct (add_event mynode rt m e) as [[m1 rt1] acts1] eqn:E1.
    destruct (add_events mynode rt1 m1 rest) as [[m2 rt2] acts2] eqn:E2.
    injection H as <- _ <-.
    apply add_event_counters in E1; [|lia|lia].
    destruct E1 as (Hfe & Hig & _ & Hcase).
    assert (Hb : 0 <= faults_observed m1 <= faults_observed m + 1
                 /\ 0 <= count_needed m1 <= count_needed m + 1)
      by (destruct Hcase as [(_ & -> & -> & _)|(_ & -> & -> & _)]; lia).
    apply IH in E2; [|lia|lia|lia|lia].
    destruct E2 as (Hfe2 & Hig2 & Hc2 & Hf2 & Hlen2 & Ht2).
    rewrite registered_app, triggered_events_app, length_app, Ht2.
    rewrite Hfe2, Hig2, Hfe, Hig.
    split; [reflexivity|]. split; [reflexivity|].
    destruct Hcase as [(Hr & Hc1 & Hf1 & Ht1)|(Hr & Hc1 & Hf1 & Ht1)];
      rewrite Hr, Ht1; simpl length.
    + split; [lia|]. split; [lia|]. split; [lia|].
      assert (E0 : (faults_observed m1 =? 0) = false)
        by (apply Z.eqb_neq; lia).
      assert (E3 : (0 <? faults_observed m2) = true)
        by (apply Z.ltb_lt; lia).
      rewrite E0, E3, Bool.andb_false_r. simpl andb. cbv iota.
      rewrite app_nil_r, Bool.andb_true_r. reflexivity.
    + split; [lia|]. split; [lia|]. split; [lia|].
      rewrite Hf1. reflexivity.
Qed.

(** What a run of callbacks does once the counters say how many are due:
    the merged event is triggered by the first fault, or by the last
    callback when no fault was counted (or faults are ignored), and never
    when a fault had been counted before the run. *)
Lemma deliver_fires (calls : list (Event * bool)) :
  forall (m m' : merger) (flags : list bool) (acts : list Action),
  deliver m calls = (m', flags, acts) ->
  0 <= faults_observed m ->
  faults_observed m + Z.of_nat (length calls) < 2 ^ 31 ->
  count_needed m = Z.of_nat (length calls) ->
  count_needed m' = 0
  /\ registered acts = []
  /\ flags = match calls with
             | [] => []
             | _ => repeat false (length calls - 1) ++ [true]
             end
  /\ triggered_events acts
     = match calls with
       | [] => []
       | _ => if negb (ignore_faults m) && (0 <? faults_observed m) then []
              else [(finish_event m,
                     negb (ignore_faults m) && existsb snd calls)]
       end.
Proof.
  induction calls as [|[e p] rest IH]; intros m m' flags acts H Hf0 Hf Hc.
  - simpl in H. injection H as <- <- <-. simpl in Hc. now repeat split.
  - simpl in H.
    destruct (deliver (fst (fst (event_triggered m e p))) rest)
      as [[m2 flags2] acts2] eqn:E2.
    unfold event_triggered in H, E2. simpl fst in E2. rewrite E2 in H.
    injection H as <- <- <-.
    simpl length in *.
    set (f1 := if p then i32 (faults_observed m + 1)
               else faults_observed m) in *.
    assert (Hf1 : f1 = if p then faults_observed m + 1
                       else faults_observed m)
      by (unfold f1; destruct p; [apply i32_id; lia | reflexivity]).
    apply IH in E2; simpl;
      [|rewrite Hf1; destruct p; lia|rewrite Hf1; destruct p; lia
       |rewrite Hc, i32_id; lia].
    simpl in E2. destruct E2 as (Hc2 & Hr2 & Hfl2 & Ht2).
    rewrite registered_app, triggered_events_app, Hr2, Ht2, Hfl2, Hc.
    split; [exact Hc2|].
    split.
    { destruct (p && (faults_observed m =? 0) && negb (ignore_faults m));
        destruct ((Z.of_nat (S (length rest)) =? 1)
                  && (ignore_faults m || (f1 =? 0))); reflexivity. }
    destruct rest as [|c rest'].
    + simpl. split; [reflexivity|].
      rewrite Hf1, Bool.orb_false_r.
      destruct (ignore_faults m); simpl;
        [now rewrite Bool.andb_false_r|].
      rewrite Bool.andb_true_r.
      destruct (faults_observed m =? 0) eqn:E0.
      * apply Z.eqb_eq in E0. rewrite E0. destruct p; reflexivity.
      * apply Z.eqb_neq in E0.
        assert (E3 : (0 <? faults_observed m) = true)
          by (apply Z.ltb_lt; lia).
        rewrite E3, Bool.andb_false_r. simpl.
        destruct p; simpl.
        -- assert (E4 : (faults_observed m + 1 =? 0) = false)
             by (apply Z.eqb_neq; lia).
           now rewrite E4.
        -- apply Z.eqb_neq in E0. now rewrite E0.
    + assert (E1 : (Z.of_nat (S (length (c :: rest'))) =? 1) = false)
        by (apply Z.eqb_neq; simpl length; lia).
      rewrite E1. simpl andb. rewrite app_nil_r.
      split.
      { simpl. rewrite !Nat.sub_0_r. reflexivity. }
      rewrite Hf1.
      destruct (ignore_faults m); simpl;
        [now rewrite Bool.andb_false_r|].
      rewrite Bool.andb_true_r.
      destruct (faults_observed m =? 0) eqn:E0.
      * apply Z.eqb_eq in E0. rewrite E0. destruct p; reflexivity.
      * apply Z.eqb_neq in E0.
        assert (E3 : (0 <? faults_observed m) = true)
          by (apply Z.ltb_lt; lia).
        assert (E4 : (0 <? faults_observed m + 1) = true)
          by (apply Z.ltb_lt; lia).
        rewrite Bool.andb_false_r. destruct p; simpl.
        -- now rewrite E4, E3.
        -- now rewrite E3.
Qed.

(** The merged event is triggered exactly once in the life of a merger.
    A merger is created, every input is added, and then the callbacks come
    in, one for [arm] and one for every waiter that was registered, in any
    order and with any poison bits.  Over the whole run [finish_event] is
    triggered once and no other event is; it is triggered poisoned exactly
    when faults are not ignored and a fault was counted while adding or is
    reported by a callback; only the last callback returns [true], so the
    merger is deleted once, and no callback registers a waiter. *)
Theorem merger_fires_exactly_once
    (mynode : Z) (rt rt' : Runtime) (addr : Waiter) (fe : Event) (ig : bool)
    (wait_for : list Event) (calls : list (Event * bool))
    (m m' : merger) (acts acts' : list Action) (flags : list bool) :
  Z.of_nat (length wait_for) < 2 ^ 31 - 1 ->
  add_events mynode rt (create addr fe ig) wait_for = (m, rt', acts) ->
  length calls = S (length (registered acts)) ->
  deliver m calls = (m', flags, acts') ->
  triggered_events (acts ++ acts')
  = [(fe, negb ig && ((0 <? faults_observed m) || existsb snd calls))]
  /\ flags = repeat false (length (registered acts)) ++ [true]
  /\ registered acts' = []
  /\ count_needed m' = 0.
Proof.
  intros Hlen Hadd Hcalls Hdel.
  apply add_events_counters in Hadd;
    cbn [create finish_event ignore_faults count_needed faults_observed];
    try lia.
  cbn [create finish_event ignore_faults count_needed faults_observed]
    in Hadd.
  destruct Hadd as (Hfe & Hig & Hc & Hf & Hle & Ht).
  change (0 =? 0) with true in Ht.
  apply deliver_fires in Hdel; [|lia|lia|lia].
  destruct Hdel as (Hc' & Hr' & Hfl & Ht').
  rewrite triggered_events_app, Ht, Ht', Hfl, Hfe, Hig, Hcalls.
  destruct calls as [|c calls']; [discriminate|].
  split; [|split; [|split; [exact Hr' | exact Hc']]].
  - rewrite Bool.andb_true_r.
    destruct ig; simpl negb; simpl andb; cbv iota; [reflexivity|].
    destruct (0 <? faults_observed m); reflexivity.
  - simpl. rewrite Nat.sub_0_r. reflexivity.
Qed.

(** Event 7 has triggered, events 8 and 9 have not.  The merger counts the
    first as a fault at once and registers for the other two; [arm] and the
    two callbacks, the second one poisoned, follow. *)
Lemma merger_fires_exactly_once_witness :
  exists m rt' acts m' flags acts',
    add_events 0 one_triggered (create 100 (mkEvent 50 1) false)
               [mkEvent 7 1; mkEvent 8 1; mkEvent 9 1] = (m, rt', acts)
    /\ deliver m [(NO_EVENT, false); (mkEvent 8 1, false);
                  (mkEvent 9 1, true)] = (m', flags, acts')
    /\ triggered_events (acts ++ acts') = [(mkEvent 50 1, true)]
    /\ flags = [false; false; true].
Proof.
  destruct (add_events 0 one_triggered (create 100 (mkEvent 50 1) false)
                       [mkEvent 7 1; mkEvent 8 1; mkEvent 9 1])
    as [[m rt'] acts] eqn:Ea.
  destruct (deliver m [(NO_EVENT, false); (mkEvent 8 1, false);
                       (mkEvent 9 1, true)])
    as [[m' flags] acts'] eqn:Ed.
  exists m, rt', acts, m', flags, acts'.
  split; [reflexivity|]. split; [exact Ed|].
  assert (Hr : registered acts = [(mkEvent 8 1, 100); (mkEvent 9 1, 100)])
    by (vm_compute in Ea; injection Ea as _ _ <-; reflexivity).
  destruct (merger_fires_exactly_once
              0 one_triggered rt' 100 (mkEvent 50 1) false
              [mkEvent 7 1; mkEvent 8 1; mkEvent 9 1]
              [(NO_EVENT, false); (mkEvent 8 1, false); (mkEvent 9 1, true)]
              m m' acts acts' flags)
    as (Ht & Hfl & _).
  - simpl. lia.
  - exact Ea.
  - rewrite Hr. reflexivity.
  - exact Ed.
  - rewrite Ht, Hfl, Hr. simpl. rewrite Bool.orb_true_r.
    split; reflexivity.
Defined.

End EventMergerFacts.

(** ** Barriers: waiting, arriving, subscribing *)

Module BarrierProtocol.

Import BarrierImpl.

(** A waiter that is added after the query, as [EventImpl::add_waiter] users
    do, is always accepted: the assertion of [add_waiter] about the
    subscription cannot fail, because the query has subscribed where that was
    needed.  If the query said the generation has triggered the waiter is
    called back at once, unpoisoned, and nothing is stored; if not, the
    waiter is not called and joins the end of the generation's tracker, the
    generation stays, and on a node that is not the owner the subscription
    covers the generation, with one [BarrierSubscribeMessage] sent exactly
    when it did not before. *)
Theorem add_waiter_after_has_triggered
    (mynode : Z) (s : impl) (needed_gen : Z) (w : Waiter) :
  exists s2 acts2,
    add_waiter mynode (snd (fst (has_triggered mynode s needed_gen)))
               needed_gen w = Some (s2, acts2)
    /\ (fst (fst (fst (has_triggered mynode s needed_gen))) = true ->
        s2 = s
        /\ snd (has_triggered mynode s needed_gen) = []
        /\ acts2 = [EventTriggered w (mkEvent (me s) needed_gen) false])
    /\ (fst (fst (fst (has_triggered mynode s needed_gen))) = false ->
        acts2 = []
        /\ local_waiters (tracker s2 needed_gen)
           = local_waiters (tracker s needed_gen) ++ [w]
        /\ generation s2 = generation s
        /\ (owner s <> mynode ->
            needed_gen <= gen_subscribed s2
            /\ gen_subscribed s2 = Z.max (gen_subscribed s) needed_gen
            /\ snd (has_triggered mynode s needed_gen)
               = if gen_subscribed s <? needed_gen
                 then [BarrierSubscribeMessage (owner s) (me s) needed_gen]
                 else [])
        /\ (owner s = mynode ->
            gen_subscribed s2 = gen_subscribed s
            /\ snd (has_triggered mynode s needed_gen) = [])).
Proof.
  unfold has_triggered, add_waiter.
  destruct (needed_gen <=? generation s) eqn:E; simpl.
  - assert (E' : (needed_gen >? generation s) = false)
      by (rewrite Z.gtb_ltb; apply Z.ltb_ge; now apply Z.leb_le).
    rewrite E'. eexists. eexists. split; [reflexivity|].
    split; [intros _; now repeat split | discriminate].
  - assert (E' : (needed_gen >? generation s) = true)
      by (apply Z.gtb_lt; now apply Z.leb_gt in E).
    destruct (owner s =? mynode) eqn:Eo; simpl.
    + rewrite E', Eo. simpl. eexists. eexists. split; [reflexivity|].
      split; [discriminate|]. intros _. split; [reflexivity|].
      split.
      { unfold tracker at 1. simpl. now rewrite OMapFacts.find_insert_eq. }
      split; [reflexivity|]. apply Z.eqb_eq in Eo.
      split; [intros Hne; contradiction | intros _; now split].
    + destruct (gen_subscribed s <? needed_gen) eqn:Es; simpl;
        rewrite E', Eo; simpl.
      * rewrite Z.geb_leb, Z.leb_refl.
        eexists. eexists. split; [reflexivity|].
        split; [discriminate|]. intros _. split; [reflexivity|].
        split.
        { unfold tracker at 1. simpl. now rewrite OMapFacts.find_insert_eq. }
        split; [reflexivity|]. apply Z.eqb_neq in Eo. apply Z.ltb_lt in Es.
        split; [intros _; simpl; repeat split; lia
               | intros Heq; contradiction].
      * apply Z.ltb_ge in Es.
        assert (Eg : (gen_subscribed s >=? needed_gen) = true)
          by (rewrite Z.geb_leb; now apply Z.leb_le).
        rewrite Eg. eexists. eexists. split; [reflexivity|].
        split; [discriminate|]. intros _. split; [reflexivity|].
        split.
        { unfold tracker at 1. simpl. now rewrite OMapFacts.find_insert_eq. }
        split; [reflexivity|]. apply Z.eqb_neq in Eo.
        split; [intros _; simpl; repeat split; lia
               | intros Heq; contradiction].
Qed.

Lemma array_get_set (i : nat) (x : Z) (a : list Z) :
  (i < length a)%nat -> array_get i (array_set i x a) = x.
Proof.
  unfold array_get. revert a.
  induction i as [|i IH]; intros [|y a] H; simpl in *; try lia.
  apply IH. lia.
Qed.

(** The slot of generation [g + 1] after a value went in. *)
Lemma slot_after_value (s : impl) (g x : Z) :
  value_capacity s = Z.of_nat (length (final_values s)) ->
  0 <= g ->
  Z.of_nat (length (array_set (Z.to_nat g) x (padded_values s (g + 1))))
  = Z.max (value_capacity s) (g + 1)
  /\ array_get (Z.to_nat g)
               (array_set (Z.to_nat g) x (padded_values s (g + 1))) = x.
Proof.
  intros Hcap Hg.
  assert (Hlen : Z.of_nat (length (padded_values s (g + 1)))
                 = Z.max (value_capacity s) (g + 1)).
  { unfold padded_values. rewrite length_app, repeat_length. lia. }
  split.
  - now rewrite GenEventImplFacts.length_array_set.
  - apply array_get_set. lia.
Qed.


(** A copy of the first [n] values of an array. *)
Lemma bytedup_values_prefix (n cap : Z) (a : list Z) :
  0 < n -> cap = Z.of_nat (length a) ->
  bytedup_values 0 n cap a
  = if cap <? n then None else Some (Some (firstn (Z.to_nat n) a)).
Proof.
  intros Hn ->. unfold bytedup_values.
  assert (E0 : (n =? 0) = false) by (apply Z.eqb_neq; lia).
  assert (E1 : (0 <? n) = true) by (apply Z.ltb_lt; lia).
  rewrite E0, E1. simpl andb. unfold array_slice. simpl skipn.
  rewrite Z.leb_refl, andb_true_r.
  destruct (n <=? Z.of_nat (length a)) eqn:E.
  - apply Z.leb_le in E.
    assert (E' : (Z.of_nat (length a) <? n) = false) by (apply Z.ltb_ge; lia).
    now rewrite E'.
  - apply Z.leb_gt in E.
    assert (E' : (Z.of_nat (length a) <? n) = true) by (apply Z.ltb_lt; lia).
    now rewrite E'.
Qed.

(** One arrival for the next generation on the owner, without timestamp
    and with no remote subscriber: the count of the generation's tracker
    moves by [delta], the value is folded into the generation's slot, and
    the generation triggers exactly when the count has come down to zero.
    A barrier with a reduction operator then copies the values of all
    generations up to the triggered one, which has no defined outcome when
    [final_values] does not reach that far. *)
Lemma arrival_step
    (shift fresh : Z) (s : impl) (g delta : Z) (rv : option Z)
    (op : ReductionOp) (t : Generation) (later : OMap.t Generation) :
  generation s = g -> 0 <= g -> g + 1 < 2 ^ 31 ->
  g < free_generation s ->
  0 < base_arrival_count s ->
  (generations s = later /\ t = new_Generation)
  \/ generations s = (g + 1, t) :: later ->
  waits_beyond (base_arrival_count s) (g + 1) later = true ->
  remote_subscribe_gens s = [] ->
  (redop s = Some op /\ first_generation s = 0)
  \/ (redop s = None /\ rv = None) ->
  value_capacity s = Z.of_nat (length (final_values s)) ->
  let ud := i32 (unguarded_delta t + delta) in
  let fired := u32 (base_arrival_count s + ud) =? 0 in
  let cap := match rv with
             | None => value_capacity s
             | Some _ => Z.max (value_capacity s) (g + 1)
             end in
  adjust_arrival_owner shift fresh s (g + 1) delta 0 rv
  = if fired && (match redop s with Some _ => true | None => false end)
       && (cap <? g + 1)
    then None
    else
      Some (mk (me s) (owner s) (if fired then g + 1 else g)
               (gen_subscribed s) (first_generation s) (free_generation s)
               (base_arrival_count s)
               (if fired then later
                else (g + 1, mkGeneration ud (local_waiters t) (pernode t))
                     :: later)
               [] (remote_trigger_gens s) (held_triggers s) (redop_id s)
               (redop s) (initial_value s) cap
               (match rv with
                | None => final_values s
                | Some v =>
                    array_set (Z.to_nat g)
                      (op (array_get (Z.to_nat g) (padded_values s (g + 1)))
                          v)
                      (padded_values s (g + 1))
                end),
            if fired
            then notify_all (local_waiters t) (mkEvent (me s) (g + 1)) false
            else []).
Proof.
  intros Hg Hg0 Hg1 Hfree Hbase Hgens Hlater Hsubs Hred Hcap ud fired cap.
  unfold adjust_arrival_owner. rewrite Hg, Hsubs.
  assert (Hu : u32 (g + 1) = g + 1) by (apply u32_id; lia).
  assert (E1 : (g <? free_generation s) = true) by now apply Z.ltb_lt.
  assert (E2 : (base_arrival_count s >? 0) = true) by (apply Z.gtb_lt; lia).
  assert (E3 : (g + 1 >? g) = true) by (apply Z.gtb_lt; lia).
  rewrite E1, E2, E3, Hu, Z.eqb_refl.
  assert (Htr : tracker s (g + 1) = t).
  { unfold tracker. destruct Hgens as [[Hgens ->]|Hgens]; rewrite Hgens.
    - unfold waits_beyond in Hlater. apply andb_true_iff in Hlater.
      destruct Hlater as [Hk _].
      now rewrite (OMapFacts.find_none_above _ _ Hk).
    - simpl. now rewrite Z.eqb_refl. }
  rewrite Htr.
  assert (Hins : OMap.insert (g + 1)
                   (handle_adjustment shift fresh t 0 delta) (generations s)
                 = (g + 1, mkGeneration ud (local_waiters t) (pernode t))
                   :: later).
  { unfold handle_adjustment. simpl (0 =? 0).
    destruct Hgens as [[Hgens _]|Hgens]; rewrite Hgens.
    - destruct later as [|[k t2] later']; [reflexivity|].
      unfold waits_beyond in Hlater. simpl in Hlater.
      apply andb_true_iff in Hlater. destruct Hlater as [Hk _].
      apply andb_true_iff in Hk. destruct Hk as [Hk _].
      simpl. now rewrite Hk.
    - simpl. now rewrite Z.ltb_irrefl, Z.eqb_refl. }
  rewrite Hins. simpl trigger_generations. rewrite Hu, Z.eqb_refl.
  simpl andb. fold ud. fold fired.
  assert (Hstop : trigger_generations (base_arrival_count s) (g + 1) (g + 1)
                    (local_waiters t) later
                  = (g + 1, g + 1, local_waiters t, later)).
  { destruct later as [|[k t2] later']; [reflexivity|].
    unfold waits_beyond in Hlater. apply andb_true_iff in Hlater.
    destruct Hlater as [_ Hk]. simpl.
    assert (Hu2 : u32 (g + 1 + 1) = g + 1 + 1) by (apply u32_id; lia).
    rewrite Hu2. apply negb_true_iff in Hk. now rewrite Hk. }
  (* the values after the reduction, and the copy made of them *)
  assert (Hlen : forall x,
            Z.of_nat (length (array_set (Z.to_nat g) x
                                        (padded_values s (g + 1))))
            = Z.max (value_capacity s) (g + 1)).
  { intros x. apply (slot_after_value s g x Hcap Hg0). }
  assert (Hpad : g + 1 <= value_capacity s ->
                 padded_values s (g + 1) = final_values s).
  { intros H. unfold padded_values.
    replace (Z.to_nat (g + 1 - value_capacity s)) with 0%nat by lia.
    apply app_nil_r. }
  assert (Ei : i32 (0 + 1 - 0) = 1) by reflexivity.
  assert (E7 : i32 (g + 1 - 0) = g + 1) by (rewrite i32_id; lia).
  assert (E6 : (g + 1 >? 0) = true) by (apply Z.gtb_lt; lia).
  subst fired. destruct (u32 (base_arrival_count s + ud) =? 0) eqn:Ef.
  - rewrite Hstop.
    assert (E4 : (g + 1 >=? g + 1) = true)
      by (rewrite Z.geb_leb; apply Z.leb_refl).
    rewrite E4. simpl notify_subscribers.
    assert (E5 : (g + 1 =? 0) = false) by (apply Z.eqb_neq; lia).
    rewrite E5.
    destruct Hred as [[Hop Hfirst]|[Hop ->]]; rewrite Hop.
    + rewrite Hfirst, Ei, ?E7, ?E6. simpl (1 >? 0). simpl (1 - 1).
      simpl andb. cbv iota.
      destruct rv as [v|].
      * subst cap.
        destruct (g + 1 >? value_capacity s) eqn:Ec.
        -- apply Z.gtb_lt in Ec.
           replace (Z.max (value_capacity s) (g + 1)) with (g + 1) by lia.
           replace (g + 1 - 1) with g by lia.
           fold (padded_values s (g + 1)).
           rewrite bytedup_values_prefix, Z.ltb_irrefl by (rewrite ?Hlen; lia).
           unfold with_values, with_remote, with_trigger, make_barrier.
           simpl. rewrite ?app_nil_r. reflexivity.
        -- rewrite Z.gtb_ltb in Ec. apply Z.ltb_ge in Ec.
           replace (Z.max (value_capacity s) (g + 1))
             with (value_capacity s) by lia.
           replace (g + 1 - 1) with g by lia.
           rewrite <- (Hpad Ec) at 1 2.
           assert (El : (value_capacity s <? g + 1) = false)
             by (apply Z.ltb_ge; lia).
           rewrite bytedup_values_prefix, El by (rewrite ?Hlen; lia).
           unfold with_values, with_remote, with_trigger, make_barrier.
           simpl. rewrite ?app_nil_r. rewrite (Hpad Ec). reflexivity.
      * subst cap.
        rewrite bytedup_values_prefix by lia.
        destruct (value_capacity s <? g + 1); [reflexivity|].
        unfold with_values, with_remote, with_trigger, make_barrier.
        simpl. rewrite ?app_nil_r. reflexivity.
    + rewrite !andb_false_r. simpl andb. cbv iota.
      unfold with_values, with_remote, with_trigger, make_barrier.
      simpl. rewrite ?app_nil_r. reflexivity.
  - assert (E4 : (g >=? g + 1) = false)
      by (rewrite Z.geb_leb; apply Z.leb_gt; lia).
    rewrite E4. simpl (0 =? 0). simpl andb. cbv iota.
    destruct Hred as [[Hop Hfirst]|[Hop ->]]; rewrite Hop.
    + rewrite Hfirst, ?E7, ?E6.
      destruct rv as [v|].
      * subst cap.
        destruct (g + 1 >? value_capacity s) eqn:Ec.
        -- apply Z.gtb_lt in Ec.
           replace (Z.max (value_capacity s) (g + 1)) with (g + 1) by lia.
           replace (g + 1 - 1) with g by lia.
           unfold with_values, with_remote, with_trigger. simpl.
           reflexivity.
        -- rewrite Z.gtb_ltb in Ec. apply Z.ltb_ge in Ec.
           replace (Z.max (value_capacity s) (g + 1))
             with (value_capacity s) by lia.
           replace (g + 1 - 1) with g by lia.
           unfold with_values, with_remote, with_trigger. simpl.
           rewrite (Hpad Ec). reflexivity.
      * unfold with_values, with_remote, with_trigger. simpl.
        reflexivity.
    + unfold with_values, with_remote, with_trigger. simpl. reflexivity.
Qed.

Lemma total_count_nonneg (arrivals : list (Z * option Z)) :
  Forall (fun a => 0 < fst a) arrivals -> 0 <= total_count arrivals.
Proof.
  induction 1 as [|a l Ha _ IH]; simpl; lia.
Qed.

Lemma total_count_zero (arrivals : list (Z * option Z)) :
  Forall (fun a => 0 < fst a) arrivals -> total_count arrivals <= 0 ->
  arrivals = [].
Proof.
  intros H Hle. destruct H as [|a l Ha Hl]; [reflexivity|].
  apply total_count_nonneg in Hl. simpl in Hle. lia.
Qed.

Section Arrivals.

Variables mynode shift fresh : Z.
Variable defer : bool.
Variable query : Event -> option bool.
Variable op : ReductionOp.
Variable b : Barrier.
Variable g : Z.
Variable later : OMap.t Generation.
Variable lw : list Waiter.
Variable pn : OMap.t PerNodeUpdates.

Hypothesis query_NO_EVENT : query NO_EVENT = Some true.
Hypothesis b_timestamp : timestamp b = 0.
Hypothesis b_gen : gen (barrier_event b) = g + 1.
Hypothesis g_range : 0 <= g /\ g + 1 < 2 ^ 31.

(** A run of arrivals for the next generation on the owner.  [d] is the
    count of the generation's tracker before the run; the run brings at most
    as many arrivals as are still expected.  A run that completes the
    generation of a barrier with a reduction operator needs the slots up to
    that generation: they are there already, or an arrival brings a
    value. *)
Lemma arrivals_run (arrivals : list (Z * option Z)) :
  forall (s : impl) (d : Z),
  owner s = mynode -> generation s = g -> g < free_generation s ->
  0 < base_arrival_count s < 2 ^ 31 ->
  - base_arrival_count s < d <= 0 ->
  (generations s = later /\ mkGeneration d lw pn = new_Generation)
  \/ generations s = (g + 1, mkGeneration d lw pn) :: later ->
  waits_beyond (base_arrival_count s) (g + 1) later = true ->
  remote_subscribe_gens s = [] ->
  (redop s = Some op /\ first_generation s = 0)
  \/ (redop s = None /\ Forall (fun a => snd a = None) arrivals) ->
  value_capacity s = Z.of_nat (length (final_values s)) ->
  Forall (fun a => 0 < fst a) arrivals ->
  total_count arrivals <= base_arrival_count s + d ->
  (redop s = Some op ->
   total_count arrivals = base_arrival_count s + d ->
   g + 1 <= value_capacity s \/ brings_value arrivals = true) ->
  exists s',
    arrive_each mynode shift fresh defer query b s arrivals
    = Some (s', if total_count arrivals =? base_arrival_count s + d
                then notify_all lw (mkEvent (me s) (g + 1)) false
                else [])
    /\ generation s'
       = (if total_count arrivals =? base_arrival_count s + d
          then g + 1 else g)
    /\ (total_count arrivals = base_arrival_count s + d ->
        generations s' = later)
    /\ redop s' = redop s
    /\ first_generation s' = first_generation s
    /\ value_capacity s' = Z.of_nat (length (final_values s'))
    /\ value_capacity s <= value_capacity s'
    /\ array_get (Z.to_nat g) (padded_values s' (g + 1))
       = fold_left (reduce_into op) (map snd arrivals)
                   (array_get (Z.to_nat g) (padded_values s (g + 1)))
    /\ (brings_value arrivals = true -> g + 1 <= value_capacity s').
Proof.
  destruct g_range as [Hg0 Hg1]. unfold brings_value.
  induction arrivals as [|[c v] rest IH];
    intros s d Hown Hgen Hfree Hbase Hd Hgens Hlater Hsubs Hred Hcap Hpos Hsum
           Hslots.
  - change (total_count []) with 0 in *. exists s.
    assert (E : (0 =? base_arrival_count s + d) = false)
      by (apply Z.eqb_neq; lia).
    rewrite E. split; [reflexivity|]. split; [exact Hgen|].
    split; [intros H; lia|]. split; [reflexivity|]. split; [reflexivity|].
    split; [exact Hcap|]. split; [lia|].
    split; [reflexivity | discriminate].
  - inversion Hpos as [|a l Hc Hrest]; subst a l. simpl in Hc.
    pose proof (total_count_nonneg rest Hrest) as Hnn.
    simpl total_count in *.
    assert (Hredv : (redop s = Some op /\ first_generation s = 0)
                    \/ (redop s = None /\ v = None)).
    { destruct Hred as [H|[H Hall]]; [now left|right].
      split; [exact H|]. inversion Hall; subst. assumption. }
    pose proof (arrival_step shift fresh s g (i32 (- c)) v op
                  (mkGeneration d lw pn) later Hgen Hg0 Hg1 Hfree
                  (proj1 Hbase) Hgens Hlater Hsubs Hredv Hcap) as Hstep.
    cbv zeta in Hstep. simpl unguarded_delta in Hstep.
    simpl local_waiters in Hstep. simpl pernode in Hstep.
    assert (Hud : i32 (d + i32 (- c)) = d - c).
    { rewrite (i32_id (- c)) by lia. rewrite i32_id by lia. lia. }
    rewrite Hud in Hstep.
    assert (Hu : u32 (base_arrival_count s + (d - c))
                 = base_arrival_count s + (d - c))
      by (apply u32_id; lia).
    rewrite Hu in Hstep.
    assert (Hok : (base_arrival_count s + (d - c) =? 0)
                  && match redop s with Some _ => true | None => false end
                  && (match v with
                      | None => value_capacity s
                      | Some _ => Z.max (value_capacity s) (g + 1)
                      end <? g + 1) = false).
    { destruct (base_arrival_count s + (d - c) =? 0) eqn:Ef; [|reflexivity].
      apply Z.eqb_eq in Ef.
      destruct Hred as [[Hop _]|[Hop _]]; rewrite Hop; [|reflexivity].
      simpl andb. apply Z.ltb_ge.
      destruct v as [x|]; [lia|].
      destruct (Hslots Hop) as [H|H]; [lia | exact H |].
      simpl in H.
      assert (Hnil : rest = []) by (apply total_count_zero; [assumption|lia]).
      subst rest. discriminate H. }
    rewrite Hok in Hstep. clear Hok.
    simpl arrive_each. unfold arrive, adjust_arrival.
    rewrite query_NO_EVENT, b_timestamp, b_gen.
    assert (Eo : (owner s =? mynode) = true) by now apply Z.eqb_eq.
    rewrite Eo. simpl negb. cbv iota. rewrite Hstep. clear Hstep.
    destruct (base_arrival_count s + (d - c) =? 0) eqn:Ef.
    + apply Z.eqb_eq in Ef.
      assert (Hnil : rest = []) by (apply total_count_zero; [assumption|lia]).
      subst rest. simpl.
      assert (E : (c + 0 =? base_arrival_count s + d) = true)
        by (apply Z.eqb_eq; lia).
      rewrite E, app_nil_r. eexists. split; [reflexivity|]. simpl.
      split; [reflexivity|]. split; [reflexivity|]. split; [reflexivity|].
      split; [reflexivity|].
      destruct v as [x|]; simpl.
      * destruct (slot_after_value s g
                    (op (array_get (Z.to_nat g) (padded_values s (g + 1))) x)
                    Hcap Hg0) as [Hlen Hget].
        split; [now rewrite Hlen|]. split; [lia|].
        split.
        -- unfold padded_values at 1. simpl.
           replace (Z.to_nat (g + 1 - Z.max (value_capacity s) (g + 1)))
             with 0%nat by lia.
           simpl. rewrite app_nil_r. exact Hget.
        -- intros _. lia.
      * split; [exact Hcap|]. split; [lia|].
        split; [reflexivity | discriminate].
    + apply Z.eqb_neq in Ef.
      match goal with
      | |- context [arrive_each _ _ _ _ _ _ ?s1 rest] => set (st := s1)
      end.
      assert (Hcap' : value_capacity st = Z.of_nat (length (final_values st))).
      { subst st. simpl. destruct v as [x|]; [|exact Hcap].
        destruct (slot_after_value s g
                    (op (array_get (Z.to_nat g) (padded_values s (g + 1))) x)
                    Hcap Hg0) as [Hlen _].
        now rewrite Hlen. }
      destruct (IH st (d - c)) as (s' & Hrun & Hg' & Hl' & Hr' & Hf' & Hc'
                                   & Hm' & Hv' & He'); simpl; try assumption;
        try reflexivity; try lia.
      * now right.
      * destruct Hred as [H|[H Hall]]; [now left|right].
        split; [exact H|]. now inversion Hall.
      * intros Hop Htot.
        destruct v as [x|]; [left; lia|].
        destruct (Hslots Hop) as [H|H]; [lia | now left | now right].
      * simpl in Hrun. rewrite Hrun. exists s'.
        assert (E : (c + total_count rest =? base_arrival_count s + d)
                    = (total_count rest =? base_arrival_count s + (d - c))).
        { destruct (Z.eqb_spec (c + total_count rest)
                               (base_arrival_count s + d));
            destruct (Z.eqb_spec (total_count rest)
                                 (base_arrival_count s + (d - c)));
            try reflexivity; lia. }
        rewrite E. split; [reflexivity|]. split; [exact Hg'|].
        split; [intros H; apply Hl'; simpl; lia|].
        split; [exact Hr'|]. split; [exact Hf'|]. split; [exact Hc'|].
        split; [simpl in Hm'; destruct v; lia|].
        split.
        -- rewrite Hv'. f_equal.
           destruct v as [x|]; simpl; [|reflexivity].
           destruct (slot_after_value s g
                       (op (array_get (Z.to_nat g) (padded_values s (g + 1)))
                           x) Hcap Hg0) as [_ Hget].
           unfold padded_values at 1. simpl.
           replace (Z.to_nat (g + 1 - Z.max (value_capacity s) (g + 1)))
             with 0%nat by lia.
           simpl. rewrite app_nil_r. exact Hget.
        -- intros Hex. simpl in Hex.
           destruct v as [x|].
           ++ simpl in Hm'. lia.
           ++ apply He'. exact Hex.
Qed.

(** A run that completes the generation of a barrier with a reduction
    operator without bringing one value, while the slot of the generation
    is not there: the last arrival copies values that [final_values] does
    not hold. *)
Lemma arrivals_run_without_value (arrivals : list (Z * option Z)) :
  forall (s : impl) (d : Z),
  owner s = mynode -> generation s = g -> g < free_generation s ->
  0 < base_arrival_count s < 2 ^ 31 ->
  - base_arrival_count s < d <= 0 ->
  (generations s = later /\ mkGeneration d lw pn = new_Generation)
  \/ generations s = (g + 1, mkGeneration d lw pn) :: later ->
  waits_beyond (base_arrival_count s) (g + 1) later = true ->
  remote_subscribe_gens s = [] ->
  redop s = Some op -> first_generation s = 0 ->
  value_capacity s = Z.of_nat (length (final_values s)) ->
  value_capacity s <= g ->
  Forall (fun a => 0 < fst a) arrivals ->
  Forall (fun a => snd a = None) arrivals ->
  total_count arrivals = base_arrival_count s + d ->
  arrive_each mynode shift fresh defer query b s arrivals = None.
Proof.
  destruct g_range as [Hg0 Hg1].
  induction arrivals as [|[c v] rest IH];
    intros s d Hown Hgen Hfree Hbase Hd Hgens Hlater Hsubs Hop Hfirst Hcap
           Hle Hpos Hnone Hsum.
  - change (total_count []) with 0 in Hsum. lia.
  - inversion Hpos as [|a l Hc Hrest]; subst a l. simpl in Hc.
    inversion Hnone as [|a l Hv Hnone']; subst a l. simpl in Hv. subst v.
    pose proof (total_count_nonneg rest Hrest) as Hnn.
    simpl total_count in *.
    pose proof (arrival_step shift fresh s g (i32 (- c)) None op
                  (mkGeneration d lw pn) later Hgen Hg0 Hg1 Hfree
                  (proj1 Hbase) Hgens Hlater Hsubs
                  (or_introl (conj Hop Hfirst)) Hcap) as Hstep.
    cbv zeta in Hstep. simpl unguarded_delta in Hstep.
    simpl local_waiters in Hstep. simpl pernode in Hstep.
    assert (Hud : i32 (d + i32 (- c)) = d - c).
    { rewrite (i32_id (- c)) by lia. rewrite i32_id by lia. lia. }
    rewrite Hud in Hstep.
    assert (Hu : u32 (base_arrival_count s + (d - c))
                 = base_arrival_count s + (d - c))
      by (apply u32_id; lia).
    rewrite Hu, Hop in Hstep.
    assert (El : (value_capacity s <? g + 1) = true) by (apply Z.ltb_lt; lia).
    rewrite El in Hstep.
    simpl arrive_each. unfold arrive, adjust_arrival.
    rewrite query_NO_EVENT, b_timestamp, b_gen.
    assert (Eo : (owner s =? mynode) = true) by now apply Z.eqb_eq.
    rewrite Eo. simpl negb. cbv iota. rewrite Hstep. clear Hstep.
    destruct (base_arrival_count s + (d - c) =? 0) eqn:Ef;
      [reflexivity|].
    apply Z.eqb_neq in Ef. simpl andb. cbv iota.
    match goal with
    | |- context [arrive_each _ _ _ _ _ _ ?s1 rest] => set (st := s1)
    end.
    rewrite (IH st (d - c)); subst st; simpl; try assumption;
      try reflexivity; try lia.
    now right.
Qed.

Lemma total_count_app (a c : list (Z * option Z)) :
  total_count (a ++ c) = total_count a + total_count c.
Proof. induction a as [|x a IH]; simpl; lia. Qed.

Lemma nth_repeat_lt (n m : nat) (a d : Z) :
  (n < m)%nat -> nth n (repeat a m) d = a.
Proof.
  revert n. induction m as [|m IH]; intros [|n] H; simpl; try lia.
  apply IH. lia.
Qed.

(** A slot that does not exist yet reads as the initial value once the
    array is extended. *)
Lemma fresh_slot (s : impl) (k : Z) :
  value_capacity s = Z.of_nat (length (final_values s)) ->
  value_capacity s <= k -> 0 <= k ->
  array_get (Z.to_nat k) (padded_values s (k + 1)) = initial_value s.
Proof.
  intros Hcap Hle Hk. unfold array_get, padded_values.
  rewrite app_nth2 by lia. apply nth_repeat_lt. lia.
Qed.

(** A barrier generation triggers exactly when its last expected arrival
    comes in.  On the owner, with no remote subscriber, a barrier at rest at
    generation [g] expects [base_arrival_count] arrivals for [g + 1]; [lw]
    are the waiters of that generation, and the slot of [g + 1] in
    [final_values] is not there yet.  Take a run of [arrive] calls (each
    for a positive count, without precondition, on a barrier handle without
    timestamp) whose counts add up to the expected number.  If the barrier
    has no reduction operator, or some arrival brings a value, the run
    returns; it calls each waiter once, unpoisoned, for generation [g + 1],
    in the order they were added, and nothing else; the generation is then
    [g + 1] and the later trackers are untouched; and with a reduction
    operator [get_result] gives the values folded in arrival order into the
    initial value.  If the barrier has a reduction operator and no arrival
    brings a value, the last arrival has no defined outcome: it copies the
    values up to generation [g + 1] out of a [final_values] that does not
    hold them.  After any shorter part of the run nobody has been called,
    the generation is still [g], and [get_result] answers [false]. *)
Theorem barrier_triggers_on_last_arrival
    (s : impl) (arrivals : list (Z * option Z)) :
  owner s = mynode -> generation s = g -> g < free_generation s ->
  0 < base_arrival_count s < 2 ^ 31 ->
  (generations s = later /\ lw = [] /\ pn = [])
  \/ generations s = (g + 1, mkGeneration 0 lw pn) :: later ->
  waits_beyond (base_arrival_count s) (g + 1) later = true ->
  remote_subscribe_gens s = [] ->
  (redop s = Some op /\ first_generation s = 0)
  \/ (redop s = None /\ Forall (fun a => snd a = None) arrivals) ->
  value_capacity s = Z.of_nat (length (final_values s)) ->
  value_capacity s <= g ->
  Forall (fun a => 0 < fst a) arrivals ->
  total_count arrivals = base_arrival_count s ->
  (redop s = None \/ brings_value arrivals = true ->
   exists s',
     arrive_each mynode shift fresh defer query b s arrivals
     = Some (s', notify_all lw (mkEvent (me s) (g + 1)) false)
     /\ generation s' = g + 1
     /\ generations s' = later
     /\ (redop s = Some op ->
         get_result s' (g + 1)
         = Some (Some (fold_left (reduce_into op) (map snd arrivals)
                                 (initial_value s)))))
  /\ (redop s = Some op -> brings_value arrivals = false ->
      arrive_each mynode shift fresh defer query b s arrivals = None)
  /\ (forall pre post,
        arrivals = pre ++ post -> post <> [] ->
        exists s1,
          arrive_each mynode shift fresh defer query b s pre = Some (s1, [])
          /\ generation s1 = g
          /\ get_result s1 (g + 1) = Some None).
Proof.
  intros Hown Hgen Hfree Hbase Hgens Hlater Hsubs Hred Hcap Hle Hpos Hsum.
  destruct g_range as [Hg0 Hg1].
  assert (Hgens' : (generations s = later
                    /\ mkGeneration 0 lw pn = new_Generation)
                   \/ generations s = (g + 1, mkGeneration 0 lw pn) :: later).
  { destruct Hgens as [(H & -> & ->)|H]; [left; now split | now right]. }
  split; [|split].
  - intros Hval.
    destruct (arrivals_run arrivals s 0) as (s' & Hrun & Hg' & Hl' & Hr' & Hf'
                                             & Hc' & _ & Hv' & He');
      try assumption; try lia.
    { intros Hop _. right. destruct Hval as [H|H]; [congruence | exact H]. }
    assert (E : (total_count arrivals =? base_arrival_count s + 0) = true)
      by (apply Z.eqb_eq; lia).
    rewrite E in Hrun, Hg'. exists s'.
    split; [exact Hrun|]. split; [exact Hg'|]. split; [apply Hl'; lia|].
    intros Hop.
    assert (Hex : brings_value arrivals = true)
      by (destruct Hval as [H|H]; [congruence | exact H]).
    specialize (He' Hex).
    destruct Hred as [[_ Hfirst]|[Hnone _]]; [|congruence].
    unfold get_result. rewrite Hg', Hf', Hfirst, Hr', Hop.
    assert (E1 : (g + 1 >? g + 1) = false)
      by (rewrite Z.gtb_ltb; apply Z.ltb_irrefl).
    rewrite E1, Z.sub_0_r, i32_id by lia.
    assert (E2 : (g + 1 >? 0) = true) by (apply Z.gtb_lt; lia).
    assert (E3 : (g + 1 <=? value_capacity s') = true) by now apply Z.leb_le.
    rewrite E2, E3. do 2 f_equal.
    rewrite <- (fresh_slot s g Hcap Hle Hg0), <- Hv'.
    unfold padded_values.
    replace (Z.to_nat (g + 1 - value_capacity s')) with 0%nat by lia.
    simpl. rewrite app_nil_r. f_equal. lia.
  - intros Hop Hno.
    destruct Hred as [[_ Hfirst]|[Hnone _]]; [|congruence].
    apply (arrivals_run_without_value arrivals s 0); try assumption; try lia.
    apply Forall_forall. intros a Ha.
    destruct (snd a) as [x|] eqn:Ea; [|reflexivity].
    exfalso. unfold brings_value in Hno.
    assert (Hex : existsb (fun a0 : Z * option Z =>
                             match snd a0 with
                             | Some _ => true
                             | None => false
                             end) arrivals = true).
    { apply existsb_exists. exists a. split; [exact Ha | now rewrite Ea]. }
    congruence.
  - intros pre post Happ Hpost. subst arrivals.
    apply Forall_app in Hpos. destruct Hpos as [Hpre Hpst].
    rewrite total_count_app in Hsum.
    assert (Hlt : 0 < total_count post).
    { destruct post as [|a post']; [congruence|].
      inversion Hpst; subst. apply total_count_nonneg in H2. simpl. lia. }
    pose proof (total_count_nonneg pre Hpre) as Hnn.
    destruct (arrivals_run pre s 0) as (s1 & Hrun & Hg' & _);
      try assumption; try lia.
    { destruct Hred as [H|[H Hall]]; [now left|right].
      split; [exact H|]. apply Forall_app in Hall. tauto. }
    assert (E : (total_count pre =? base_arrival_count s + 0) = false)
      by (apply Z.eqb_neq; lia).
    rewrite E in Hrun, Hg'. exists s1.
    split; [exact Hrun|]. split; [exact Hg'|].
    unfold get_result. rewrite Hg'.
    assert (E1 : (g + 1 >? g) = true) by (apply Z.gtb_lt; lia).
    now rewrite E1.
Qed.

End Arrivals.
(** A barrier for three arrivals that sums its values, starting from 100:
    it is created on node 0, waiter 71 waits for its first generation, and
    two [arrive] calls bring counts 1 and 2 with the values 5 and 7.  The
    same two calls without values have no defined outcome. *)
Lemma barrier_triggers_on_last_arrival_witness :
  let table := fun rid : Z => if rid =? 1 then Some Z.add else None in
  let query := fun e : Event => Some (id e =? 0) in
  let b := mkBarrier (mkEvent 9 1) 0 in
  exists s w s',
    create_barrier table (init 9 0) 3 1 (Some 100) = Some s
    /\ add_waiter 0 s 1 71 = Some (w, [])
    /\ arrive_each 0 48 0 false query b w [(1, Some 5); (2, Some 7)]
       = Some (s', [EventTriggered 71 (mkEvent 9 1) false])
    /\ generation s' = 1
    /\ get_result s' 1 = Some (Some 112)
    /\ arrive_each 0 48 0 false query b w [(1, None); (2, None)] = None.
Proof.
  intros table query b.
  pose (s := mk 9 0 0 0 0 (2 ^ 32 - 1) 3 [] [] [] [] 1 (Some Z.add) 100 0
                []).
  pose (w := mk 9 0 0 0 0 (2 ^ 32 - 1) 3 [(1, mkGeneration 0 [71] [])]
                [] [] [] 1 (Some Z.add) 100 0 []).
  assert (Hrange : 0 <= 0 /\ 0 + 1 < 2 ^ 31) by lia.
  destruct (barrier_triggers_on_last_arrival
              0 48 0 false query Z.add b 0 [] [71] []
              eq_refl eq_refl eq_refl Hrange
              w [(1, Some 5); (2, Some 7)])
    as [Hok _].
  - reflexivity.
  - reflexivity.
  - simpl. lia.
  - simpl. lia.
  - right. reflexivity.
  - reflexivity.
  - reflexivity.
  - left. split; reflexivity.
  - reflexivity.
  - simpl. lia.
  - repeat constructor.
  - reflexivity.
  - destruct (Hok (or_intror eq_refl)) as (s' & Hrun & Hg & _ & Hres).
    exists s, w, s'. split; [reflexivity|]. split; [reflexivity|].
    split; [exact Hrun|]. split; [exact Hg|].
    split; [apply Hres; reflexivity|].
    destruct (barrier_triggers_on_last_arrival
                0 48 0 false query Z.add b 0 [] [71] []
                eq_refl eq_refl eq_refl Hrange
                w [(1, None); (2, None)])
      as (_ & Hfail & _).
    + reflexivity.
    + reflexivity.
    + simpl. lia.
    + simpl. lia.
    + right. reflexivity.
    + reflexivity.
    + reflexivity.
    + left. split; reflexivity.
    + reflexivity.
    + simpl. lia.
    + repeat constructor.
    + reflexivity.
    + apply Hfail; reflexivity.
Defined.
(** A barrier trigger travels from the owner to a waiter on another node.
    The owner [o] and a replica [r] on node [n] agree on generation [g] of a
    barrier without reduction, and the owner knows that [n] is up to date.
    A waiter is added on [n] for the next generation the way
    [EventImpl::add_waiter] users do it: the query subscribes, [add_waiter]
    queues the waiter.  The owner records the subscription and has nothing
    to send yet.  The arrival that completes the generation on the owner
    wakes the owner's own waiters and sends [n] one trigger message for the
    range from [g] to [g + 1], after which the subscription is gone.
    Delivering the message wakes the waiter, unpoisoned and for generation
    [g + 1], and the replica reports the generation as triggered. *)
Theorem remote_barrier_waiter_is_woken
    (own n shift fresh sender : Z) (defer : bool)
    (query : Event -> option bool) (table : Z -> option ReductionOp)
    (o r : impl) (w : Waiter) (c g : Z) (t : Generation)
    (later : OMap.t Generation) :
  query NO_EVENT = Some true ->
  me r = me o -> owner r = own -> owner o = own -> n <> own ->
  generation o = g -> generation r = g -> 0 <= g -> g + 1 < 2 ^ 31 ->
  g < free_generation o ->
  gen_subscribed r <= g -> held_triggers r = [] ->
  forallb (fun e => g + 1 <? fst e) (generations r) = true ->
  first_generation o <= g -> redop o = None ->
  remote_subscribe_gens o = [] ->
  match OMap.find n (remote_trigger_gens o) with
  | Some known => known
  | None => first_generation o
  end = g ->
  (generations o = later /\ t = new_Generation)
  \/ generations o = (g + 1, t) :: later ->
  waits_beyond (base_arrival_count o) (g + 1) later = true ->
  0 < c -> 0 < base_arrival_count o < 2 ^ 31 ->
  - 2 ^ 31 < unguarded_delta t <= 0 ->
  base_arrival_count o + unguarded_delta t = c ->
  exists r1 r2 o1 o2 r3,
    has_triggered n r (g + 1)
    = (false, false, r1, [BarrierSubscribeMessage own (me o) (g + 1)])
    /\ add_waiter n r1 (g + 1) w = Some (r2, [])
    /\ BarrierSubscribeMessage_handle_request o n (me o) (g + 1)
       = Some (o1, [])
    /\ arrive own shift fresh defer query
              (mkBarrier (mkEvent (me o) (g + 1)) 0) o1 c NO_EVENT None
       = Some (o2, notify_all (local_waiters t) (mkEvent (me o) (g + 1)) false
                   ++ [BarrierTriggerMessage n (me o) (g + 1) g
                         (first_generation o) (redop_id o) []])
    /\ generation o2 = g + 1
    /\ remote_subscribe_gens o2 = []
    /\ OMap.find n (remote_trigger_gens o2) = Some (g + 1)
    /\ handle_request table r2
         (mkRequestArgs sender (me o) (g + 1) g (first_generation o)
                        (redop_id o)) []
       = Some (r3, [EventTriggered w (mkEvent (me o) (g + 1)) false])
    /\ generation r3 = g + 1
    /\ fst (fst (fst (has_triggered n r3 (g + 1)))) = true.
Proof.
  intros Hq Hme Hownr Howno Hn Hgo Hgr Hg0 Hg1 Hfree Hsub Hheld Hgensr
         Hfirst Hredop Hsubs Hknown Hgens Hlater Hc Hbase Hud Hlast.
  assert (Hu : u32 (g + 1) = g + 1) by (apply u32_id; lia).
  assert (Enr : (owner r =? n) = false) by (apply Z.eqb_neq; congruence).
  assert (Eoo : (owner o =? own) = true) by now apply Z.eqb_eq.
  (* the replica subscribes and queues the waiter *)
  pose (r1 := with_subscription r (g + 1)).
  pose (r2 := with_generations r1
                (OMap.insert (g + 1) (mkGeneration 0 [w] [])
                             (generations r))).
  assert (Hfind : OMap.find (g + 1) (generations r) = None)
    by now apply OMapFacts.find_none_above.
  assert (H1 : has_triggered n r (g + 1)
               = (false, false, r1,
                  [BarrierSubscribeMessage own (me o) (g + 1)])).
  { unfold has_triggered. rewrite Hgr, Enr.
    assert (E1 : (g + 1 <=? g) = false) by (apply Z.leb_gt; lia).
    assert (E2 : (gen_subscribed r <? g + 1) = true) by (apply Z.ltb_lt; lia).
    rewrite E1, E2. simpl. now rewrite Hownr, Hme. }
  assert (H2 : add_waiter n r1 (g + 1) w = Some (r2, [])).
  { unfold add_waiter, tracker. simpl. rewrite Hgr, Hfind, Enr.
    assert (E1 : (g + 1 >? g) = true) by (apply Z.gtb_lt; lia).
    assert (E2 : (g + 1 >=? g + 1) = true)
      by (rewrite Z.geb_leb; apply Z.leb_refl).
    now rewrite E1, E2. }
  (* the owner records the subscription *)
  pose (o1 := with_remote o [(n, g + 1)] (remote_trigger_gens o)).
  assert (H3 : BarrierSubscribeMessage_handle_request o n (me o) (g + 1)
               = Some (o1, [])).
  { unfold BarrierSubscribeMessage_handle_request.
    rewrite Hsubs, Hgo. simpl OMap.find.
    assert (E1 : (g + 1 >? first_generation o) = true)
      by (apply Z.gtb_lt; lia).
    assert (E2 : (g + 1 >? g) = true) by (apply Z.gtb_lt; lia).
    rewrite E1, E2. simpl negb. simpl OMap.insert.
    destruct (g >? first_generation o) eqn:E3; [|reflexivity].
    apply Z.gtb_lt in E3.
    destruct (OMap.find n (remote_trigger_gens o)) as [known|];
      [|lia]. subst known. now rewrite Z.ltb_irrefl. }
  (* the completing arrival *)
  assert (Htr : tracker o1 (g + 1) = t).
  { unfold tracker. simpl.
    destruct Hgens as [[Hgens ->]|Hgens]; rewrite Hgens.
    - unfold waits_beyond in Hlater. apply andb_true_iff in Hlater.
      destruct Hlater as [Hk _].
      now rewrite (OMapFacts.find_none_above _ _ Hk).
    - simpl. now rewrite Z.eqb_refl. }
  assert (Hdelta : i32 (unguarded_delta t + i32 (- c)) = unguarded_delta t - c).
  { rewrite (i32_id (- c)) by lia. rewrite i32_id by lia. lia. }
  assert (Hins : OMap.insert (g + 1)
                   (handle_adjustment shift fresh t 0 (i32 (- c)))
                   (generations o)
                 = (g + 1, mkGeneration (unguarded_delta t - c)
                                        (local_waiters t) (pernode t))
                   :: later).
  { unfold handle_adjustment. simpl (0 =? 0). rewrite Hdelta.
    destruct Hgens as [[Hgens _]|Hgens]; rewrite Hgens.
    - destruct later as [|[k t2] later']; [reflexivity|].
      unfold waits_beyond in Hlater. simpl in Hlater.
      apply andb_true_iff in Hlater. destruct Hlater as [Hk _].
      apply andb_true_iff in Hk. destruct Hk as [Hk _].
      simpl. now rewrite Hk.
    - simpl. now rewrite Z.ltb_irrefl, Z.eqb_refl. }
  assert (Hstop : trigger_generations (base_arrival_count o) (g + 1) (g + 1)
                    (local_waiters t) later
                  = (g + 1, g + 1, local_waiters t, later)).
  { destruct later as [|[k t2] later']; [reflexivity|].
    unfold waits_beyond in Hlater. apply andb_true_iff in Hlater.
    destruct Hlater as [_ Hk]. simpl.
    assert (Hu2 : u32 (g + 1 + 1) = g + 1 + 1) by (apply u32_id; lia).
    rewrite Hu2. apply negb_true_iff in Hk. now rewrite Hk. }
  pose (o2 := with_values
                (with_remote
                   (with_trigger o1 (g + 1) later (held_triggers o))
                   [] (OMap.insert n (g + 1) (remote_trigger_gens o)))
                (first_generation o) (redop_id o) (redop o)
                (value_capacity o) (final_values o)).
  assert (H4 : arrive own shift fresh defer query
                      (mkBarrier (mkEvent (me o) (g + 1)) 0) o1 c NO_EVENT None
               = Some (o2,
                       notify_all (local_waiters t)
                                  (mkEvent (me o) (g + 1)) false
                       ++ [BarrierTriggerMessage n (me o) (g + 1) g
                             (first_generation o) (redop_id o) []])).
  { unfold arrive, adjust_arrival. cbn [gen barrier_event timestamp].
    rewrite Hq. cbn [owner o1 with_remote]. rewrite Eoo.
    simpl negb. cbv iota. unfold adjust_arrival_owner. rewrite Htr.
    cbn [generation free_generation base_arrival_count generations o1
         with_remote].
    rewrite Hgo, Hins.
    assert (E1 : (g <? free_generation o) = true) by now apply Z.ltb_lt.
    assert (E2 : (base_arrival_count o >? 0) = true)
      by (apply Z.gtb_lt; lia).
    assert (E3 : (g + 1 >? g) = true) by (apply Z.gtb_lt; lia).
    rewrite E1, E2, E3, Hu, Z.eqb_refl. simpl trigger_generations.
    rewrite Hu, Z.eqb_refl.
    assert (E4 : (u32 (base_arrival_count o + (unguarded_delta t - c)) =? 0)
                 = true).
    { replace (base_arrival_count o + (unguarded_delta t - c)) with 0 by lia.
      reflexivity. }
    rewrite E4. simpl andb. cbv iota. rewrite Hstop.
    assert (E5 : (g + 1 >=? g + 1) = true)
      by (rewrite Z.geb_leb; apply Z.leb_refl).
    rewrite E5. simpl remote_subscribe_gens. simpl notify_subscribers.
    rewrite Z.leb_refl. simpl remote_trigger_gens. simpl redop.
    rewrite Hredop, Hknown.
    assert (E6 : (g + 1 =? 0) = false) by (apply Z.eqb_neq; lia).
    rewrite E6. unfold o2. rewrite ?Hredop. reflexivity. }
  (* the message reaches the replica *)
  pose (r3 := with_trigger r2 (g + 1) (generations r) []).
  assert (H5 : handle_request table r2
                 (mkRequestArgs sender (me o) (g + 1) g (first_generation o)
                                (redop_id o)) []
               = Some (r3, [EventTriggered w (mkEvent (me o) (g + 1)) false])).
  { unfold handle_request. simpl. rewrite Hgr, Z.eqb_refl, Hheld. simpl.
    assert (Hinsr : OMap.insert (g + 1) (mkGeneration 0 [w] [])
                                (generations r)
                    = (g + 1, mkGeneration 0 [w] []) :: generations r).
    { destruct (generations r) as [|[k t2] gr]; [reflexivity|].
      simpl in Hgensr. apply andb_true_iff in Hgensr.
      destruct Hgensr as [Hk _]. simpl. now rewrite Hk. }
    rewrite Hinsr. simpl.
    assert (E1 : (g + 1 >? g + 1) = false)
      by (rewrite Z.gtb_ltb; apply Z.ltb_irrefl).
    rewrite E1.
    assert (Hrest : collect_waiters (g + 1) (generations r) [w]
                    = ([w], generations r)).
    { destruct (generations r) as [|[k t2] gr]; [reflexivity|].
      simpl in Hgensr. apply andb_true_iff in Hgensr.
      destruct Hgensr as [Hk _]. simpl.
      rewrite Z.gtb_ltb. now rewrite Hk. }
    rewrite Hrest. reflexivity. }
  exists r1, r2, o1, o2, r3.
  split; [exact H1|]. split; [exact H2|]. split; [exact H3|].
  split; [exact H4|]. split; [reflexivity|]. split; [reflexivity|].
  split; [apply OMapFacts.find_insert_eq|].
  split; [exact H5|]. split; [reflexivity|].
  unfold has_triggered. simpl. now rewrite Z.leb_refl.
Qed.

(** A barrier of node 0 that expects two arrivals and has seen one; waiter
    70 waits on node 0 and waiter 71 on node 1 for the first generation. *)
Lemma remote_barrier_waiter_is_woken_witness :
  let query := fun e : Event => Some (id e =? 0) in
  let table := fun _ : Z => @None ReductionOp in
  let o := mk 9 0 0 0 0 (2 ^ 32 - 1) 2 [(1, mkGeneration (-1) [70] [])]
              [] [] [] 0 None 0 0 [] in
  let r := init 9 0 in
  exists r1 r2 o1 o2 r3,
    has_triggered 1 r 1 = (false, false, r1, [BarrierSubscribeMessage 0 9 1])
    /\ add_waiter 1 r1 1 71 = Some (r2, [])
    /\ BarrierSubscribeMessage_handle_request o 1 9 1 = Some (o1, [])
    /\ arrive 0 48 0 false query (mkBarrier (mkEvent 9 1) 0) o1 1 NO_EVENT None
       = Some (o2, [EventTriggered 70 (mkEvent 9 1) false;
                    BarrierTriggerMessage 1 9 1 0 0 0 []])
    /\ handle_request table r2 (mkRequestArgs 0 9 1 0 0 0) []
       = Some (r3, [EventTriggered 71 (mkEvent 9 1) false])
    /\ generation r3 = 1.
Proof.
  intros query table o r.
  destruct (remote_barrier_waiter_is_woken
              0 1 48 0 0 false query table o r 71 1 0
              (mkGeneration (-1) [70] []) [])
    as (r1 & r2 & o1 & o2 & r3 & H1 & H2 & H3 & H4 & _ & _ & _ & H5 & H6 & _).
  - reflexivity.
  - reflexivity.
  - reflexivity.
  - reflexivity.
  - discriminate.
  - reflexivity.
  - reflexivity.
  - lia.
  - lia.
  - simpl. lia.
  - simpl. lia.
  - reflexivity.
  - reflexivity.
  - simpl. lia.
  - reflexivity.
  - reflexivity.
  - reflexivity.
  - right. reflexivity.
  - reflexivity.
  - lia.
  - simpl. lia.
  - simpl. lia.
  - reflexivity.
  - exists r1, r2, o1, o2, r3.
    split; [exact H1|]. split; [exact H2|]. split; [exact H3|].
    split; [exact H4|]. split; [exact H5 | exact H6].
Defined.
Lemma forallb_insert {V : Type} (P : Z * V -> bool) (k : Z) (v : V)
    (m : OMap.t V) :
  P (k, v) = true -> forallb P m = true ->
  forallb P (OMap.insert k v m) = true.
Proof.
  intros Hk. induction m as [|[k' v'] rest IH]; simpl.
  - now rewrite Hk.
  - intros H. apply andb_true_iff in H. destruct H as [H1 H2].
    destruct (k <? k'); simpl; [now rewrite Hk, H1, H2|].
    destruct (k =? k'); simpl; [now rewrite Hk, H2|].
    now rewrite H1, IH.
Qed.

Lemma forallb_weaken {A : Type} (P Q : A -> bool) (l : list A) :
  (forall x, P x = true -> Q x = true) ->
  forallb P l = true -> forallb Q l = true.
Proof.
  intros HPQ H. rewrite forallb_forall in *. auto.
Qed.

(** The triggering loop only moves forward, and leaves the trackers beyond
    the generation it stops at. *)
Lemma trigger_generations_ok (base : Z) (gens : OMap.t Generation) :
  forall cur tg notes cur' tg' notes' gens',
  trigger_generations base cur tg notes gens = (cur', tg', notes', gens') ->
  0 <= cur -> OMap.sorted gens = true ->
  forallb (fun e => cur <? fst e) gens = true ->
  cur <= cur' /\ OMap.sorted gens' = true
  /\ forallb (fun e => cur' <? fst e) gens' = true
  /\ (cur' = cur \/ u32 (cur + 1) <= cur').
Proof.
  induction gens as [|[first t] rest IH];
    intros cur tg notes cur' tg' notes' gens' H Hcur Hs Ha; simpl in H.
  - injection H as <- _ _ <-. split; [lia|]. split; [easy|]. split; auto.
  - destruct ((first =? u32 (cur + 1))
              && (u32 (base + unguarded_delta t) =? 0)) eqn:E.
    + simpl in Hs, Ha. apply andb_true_iff in Hs. destruct Hs as [Hr Hs].
      apply andb_true_iff in Ha. destruct Ha as [Hf _].
      apply Z.ltb_lt in Hf.
      apply andb_true_iff in E. destruct E as [E _]. apply Z.eqb_eq in E.
      apply IH in H; [|lia|assumption|assumption].
      destruct H as (H1 & H2 & H3 & _).
      split; [lia|]. split; [assumption|]. split; [assumption|].
      right. lia.
    + injection H as <- _ _ <-. split; [lia|]. split; [easy|]. split; auto.
Qed.

(** The notification loop keeps only subscriptions beyond the generation
    and tells no node of more than the generation. *)
Lemma notify_subscribers_ok (cur first : Z) (subs : OMap.t Z) :
  forall trigs rns oldest subs' trigs' rns' oldest',
  notify_subscribers cur first subs trigs rns oldest
  = (subs', trigs', rns', oldest') ->
  forallb (fun e => snd e <=? cur) trigs = true ->
  forallb (fun e => cur <? snd e) subs' = true
  /\ forallb (fun e => snd e <=? cur) trigs' = true.
Proof.
  induction subs as [|[node sg] rest IH];
    intros trigs rns oldest subs' trigs' rns' oldest' H Ht; simpl in H.
  - injection H as <- <- _ _. now split.
  - match type of H with
    | (match ?call with pair _ _ => _ end) = _ =>
        destruct call as [[[s2 t2] r2] o2] eqn:E
    end.
    injection H as <- <- _ _.
    apply IH in E.
    + destruct E as [E1 E2]. split; [|exact E2].
      destruct (sg <=? cur) eqn:Ef; [exact E1|].
      simpl. rewrite E1. apply Z.leb_gt in Ef.
      assert (Hlt : (cur <? sg) = true) by now apply Z.ltb_lt.
      now rewrite Hlt.
    + apply forallb_insert; [|exact Ht]. simpl.
      destruct (sg <=? cur) eqn:Ef; [exact Ef | apply Z.leb_refl].
Qed.

(** What a completed [adjust_arrival] on the owner leaves in the fields the
    invariant reads. *)
Lemma adjust_arrival_owner_state
    (shift fresh : Z) (s s' : impl) (bg delta ts : Z) (rv : option Z)
    (acts : list Action) :
  adjust_arrival_owner shift fresh s bg delta ts rv = Some (s', acts) ->
  let gens1 := OMap.insert bg
                 (handle_adjustment shift fresh (tracker s bg) ts delta)
                 (generations s) in
  exists cur tg ln gens2 subs trigs rns oldest,
    generation s < bg
    /\ (if bg =? u32 (generation s + 1)
        then trigger_generations (base_arrival_count s) (generation s) 0 []
                                 gens1
        else (generation s, 0, [], gens1)) = (cur, tg, ln, gens2)
    /\ (if (bg =? u32 (generation s + 1)) && (cur >=? bg)
        then notify_subscribers cur (first_generation s)
               (remote_subscribe_gens s) (remote_trigger_gens s) [] 0
        else (remote_subscribe_gens s, remote_trigger_gens s, [], 0))
       = (subs, trigs, rns, oldest)
    /\ generation s' = cur /\ generations s' = gens2
    /\ remote_subscribe_gens s' = subs /\ remote_trigger_gens s' = trigs.
Proof.
  intros H gens1. unfold adjust_arrival_owner in H.
  destruct (generation s <? free_generation s); [|discriminate].
  destruct (base_arrival_count s >? 0); [|discriminate].
  destruct (bg >? generation s) eqn:Ebg; [|discriminate].
  apply Z.gtb_lt in Ebg. fold gens1 in H.
  destruct (if bg =? u32 (generation s + 1)
            then trigger_generations (base_arrival_count s) (generation s)
                                     0 [] gens1
            else (generation s, 0, [], gens1))
    as [[[cur tg] ln] gens2] eqn:Etg.
  destruct (if (bg =? u32 (generation s + 1)) && (cur >=? bg)
            then notify_subscribers cur (first_generation s)
                   (remote_subscribe_gens s) (remote_trigger_gens s) [] 0
            else (remote_subscribe_gens s, remote_trigger_gens s, [], 0))
    as [[[subs trigs] rns] oldest] eqn:Ens.
  exists cur, tg, ln, gens2, subs, trigs, rns, oldest.
  split; [exact Ebg|]. split; [reflexivity|]. split; [exact Ens|].
  match type of H with
  | match ?r with Some _ => _ | None => None end = _ =>
      destruct r as [[cap vals]|]; [|discriminate]
  end.
  match type of H with
  | match ?r with Some _ => _ | None => None end = _ =>
      destruct r as [copy|]; [|discriminate]
  end.
  injection H as <- _. simpl. now repeat split.
Qed.

Lemma barrier_ok_iff (s : impl) :
  barrier_ok s = true <->
  0 <= generation s
  /\ OMap.sorted (generations s) = true
  /\ forallb (fun e => generation s <? fst e) (generations s) = true
  /\ forallb (fun e => generation s <? snd e) (remote_subscribe_gens s) = true
  /\ forallb (fun e => snd e <=? generation s) (remote_trigger_gens s) = true.
Proof.
  unfold barrier_ok. rewrite !andb_true_iff, Z.leb_le. tauto.
Qed.

Lemma find_in {V : Type} (k : Z) (v : V) (m : OMap.t V) :
  OMap.find k m = Some v -> In (k, v) m.
Proof.
  induction m as [|[k' v'] rest IH]; simpl; [discriminate|].
  destruct (k' =? k) eqn:E.
  - apply Z.eqb_eq in E. intros [= ->]. left. now subst.
  - intros H. right. auto.
Qed.

(** The class invariant of a barrier is kept by everything that runs on the
    owner: arrivals (whatever generation, delta, timestamp and value they
    carry), subscription requests, waiters and queries.  So no tracker and
    no subscription is ever left behind for a generation that has
    triggered, no node is told of a generation that has not, and the
    generation never moves back.  In particular the subscription that
    [BarrierSubscribeMessage::handle_request] finds for a node is always
    for a generation that has not triggered, as it asserts. *)
Theorem barrier_ok_is_kept (mynode shift fresh : Z) (s : impl) :
  barrier_ok s = true ->
  (forall bg delta ts rv s' acts,
      adjust_arrival_owner shift fresh s bg delta ts rv = Some (s', acts) ->
      barrier_ok s' = true /\ generation s <= generation s')
  /\ (forall node bid sg s' acts,
        BarrierSubscribeMessage_handle_request s node bid sg
        = Some (s', acts) ->
        barrier_ok s' = true /\ generation s' = generation s)
  /\ (forall g w s' acts,
        add_waiter mynode s g w = Some (s', acts) ->
        barrier_ok s' = true /\ generation s' = generation s)
  /\ (forall g, barrier_ok (snd (fst (has_triggered mynode s g))) = true)
  /\ (forall node sg,
        OMap.find node (remote_subscribe_gens s) = Some sg ->
        generation s < sg).
Proof.
  intros Hok. pose proof Hok as Hok0.
  apply barrier_ok_iff in Hok. destruct Hok as (Hg & Hs & Ha & Hsub & Htr).
  split; [|split; [|split; [|split]]].
  - intros bg delta ts rv s' acts H.
    apply adjust_arrival_owner_state in H. cbv zeta in H.
    destruct H as (cur & tg & ln & gens2 & subs & trigs & rns & oldest
                   & Hbg & Etg & Ens & Hg' & Hgs' & Hsubs' & Htrigs').
    set (gens1 := OMap.insert bg
                    (handle_adjustment shift fresh (tracker s bg) ts delta)
                    (generations s)) in *.
    assert (Hs1 : OMap.sorted gens1 = true)
      by now apply OMapFacts.sorted_insert.
    assert (Ha1 : forallb (fun e : Z * Generation => generation s <? fst e)
                          gens1 = true)
      by (apply OMapFacts.forallb_above_insert;
          [now apply Z.ltb_lt | assumption]).
    assert (Hcur : generation s <= cur /\ OMap.sorted gens2 = true
                   /\ forallb (fun e : Z * Generation => cur <? fst e) gens2
                      = true
                   /\ (cur = generation s \/ u32 (generation s + 1) <= cur)).
    { destruct (bg =? u32 (generation s + 1)).
      - eapply trigger_generations_ok; eassumption.
      - injection Etg as <- _ _ <-. split; [lia|]. split; [assumption|].
        split; [assumption | now left]. }
    destruct Hcur as (Hle & Hs2 & Ha2 & Hadv).
    assert (Hrem : forallb (fun e : Z * Z => cur <? snd e) subs = true
                   /\ forallb (fun e : Z * Z => snd e <=? cur) trigs = true).
    { destruct ((bg =? u32 (generation s + 1)) && (cur >=? bg)) eqn:Ec.
      - eapply notify_subscribers_ok; [eassumption|].
        eapply forallb_weaken; [|exact Htr]. intros x Hx. simpl in *.
        apply Z.leb_le in Hx. apply Z.leb_le. lia.
      - injection Ens as <- <- _ _.
        assert (Hsame : cur = generation s).
        { destruct Hadv as [H|H]; [exact H|].
          destruct (bg =? u32 (generation s + 1)) eqn:Eb.
          - apply Z.eqb_eq in Eb. simpl in Ec.
            rewrite Z.geb_leb in Ec. apply Z.leb_gt in Ec. lia.
          - injection Etg as <- _ _ _. reflexivity. }
        rewrite Hsame. now split. }
    destruct Hrem as [Hsubs2 Htrigs2].
    split; [|lia]. apply barrier_ok_iff.
    rewrite Hg', Hgs', Hsubs', Htrigs'.
    split; [lia|]. now repeat split.
  - intros node bid sg s' acts H.
    unfold BarrierSubscribeMessage_handle_request in H.
    destruct (sg >? first_generation s); [|discriminate].
    assert (Hsubs' : forall already subs,
               match OMap.find node (remote_subscribe_gens s) with
               | Some sub_gen =>
                   if sub_gen >? generation s
                   then if sub_gen >=? sg
                        then Some (true, remote_subscribe_gens s)
                        else Some (false,
                                   OMap.insert node sg
                                     (remote_subscribe_gens s))
                   else None
               | None =>
                   Some (false,
                         if sg >? generation s
                         then OMap.insert node sg (remote_subscribe_gens s)
                         else remote_subscribe_gens s)
               end = Some (already, subs) ->
               forallb (fun e : Z * Z => generation s <? snd e) subs = true).
    { intros already subs E.
      destruct (OMap.find node (remote_subscribe_gens s)) as [sub_gen|] eqn:Ef.
      - destruct (sub_gen >? generation s) eqn:E1; [|discriminate].
        apply Z.gtb_lt in E1.
        destruct (sub_gen >=? sg) eqn:E2.
        + injection E as _ <-. exact Hsub.
        + injection E as _ <-. apply forallb_insert; [|exact Hsub].
          simpl. rewrite Z.geb_leb in E2. apply Z.leb_gt in E2.
          apply Z.ltb_lt. lia.
      - injection E as _ <-.
        destruct (sg >? generation s) eqn:E1; [|exact Hsub].
        apply forallb_insert; [|exact Hsub]. simpl.
        apply Z.gtb_lt in E1. now apply Z.ltb_lt. }
    match type of H with
    | match ?r with Some _ => _ | None => None end = _ =>
        destruct r as [[already subs]|] eqn:Esub; [|discriminate]
    end.
    specialize (Hsubs' already subs eq_refl).
    match type of H with
    | (if ?c then _ else _) = _ => destruct c
    end.
    + match type of H with
      | match ?r with Some _ => _ | None => None end = _ =>
          destruct r as [copy|]; [|discriminate]
      end.
      injection H as <- _. split; [|reflexivity].
      apply barrier_ok_iff. simpl. split; [assumption|].
      split; [assumption|]. split; [assumption|]. split; [assumption|].
      apply forallb_insert; [simpl; apply Z.leb_refl | assumption].
    + injection H as <- _. split; [|reflexivity].
      apply barrier_ok_iff. simpl. now repeat split.
  - intros g w s' acts H. unfold add_waiter in H.
    destruct (g >? generation s) eqn:Eg.
    + destruct ((owner s =? mynode) || (gen_subscribed s >=? g));
        [|discriminate].
      injection H as <- _. split; [|reflexivity].
      apply barrier_ok_iff. simpl. split; [assumption|].
      split; [now apply OMapFacts.sorted_insert|].
      split; [|now split].
      apply OMapFacts.forallb_above_insert; [|assumption].
      apply Z.gtb_lt in Eg. now apply Z.ltb_lt.
    + injection H as <- _. now split.
  - intros g. unfold has_triggered.
    destruct (g <=? generation s); [exact Hok0|].
    destruct (negb (owner s =? mynode)); [|exact Hok0]. simpl.
    destruct (gen_subscribed s <? g); exact Hok0.
  - intros node sg Hf. apply find_in in Hf.
    rewrite forallb_forall in Hsub. apply Hsub in Hf. simpl in Hf.
    now apply Z.ltb_lt.
Qed.

(** An owner with waiters and subscribers for its first two generations:
    the arrival that completes the first generation fulfils the
    subscription of node 1 and keeps the one of node 2. *)
Lemma barrier_ok_is_kept_witness :
  let s := mk 9 0 0 0 0 (2 ^ 32 - 1) 1
              [(1, mkGeneration 0 [70] []); (2, mkGeneration 0 [] [])]
              [(1, 1); (2, 2)] [] [] 0 None 0 0 [] in
  exists s' acts,
    adjust_arrival_owner 48 0 s 1 (-1) 0 None = Some (s', acts)
    /\ barrier_ok s' = true
    /\ generation s' = 1
    /\ generations s' = [(2, mkGeneration 0 [] [])]
    /\ remote_subscribe_gens s' = [(2, 2)]
    /\ remote_trigger_gens s' = [(1, 1); (2, 1)].
Proof.
  intros s.
  destruct (barrier_ok_is_kept 0 48 0 s eq_refl) as (H1 & _).
  exists (mk 9 0 1 0 0 (2 ^ 32 - 1) 1 [(2, mkGeneration 0 [] [])]
             [(2, 2)] [(1, 1); (2, 1)] [] 0 None 0 0 []).
  exists [EventTriggered 70 (mkEvent 9 1) false;
          BarrierTriggerMessage 1 9 1 0 0 0 [];
          BarrierTriggerMessage 2 9 1 0 0 0 []].
  assert (E : adjust_arrival_owner 48 0 s 1 (-1) 0 None
              = Some (mk 9 0 1 0 0 (2 ^ 32 - 1) 1 [(2, mkGeneration 0 [] [])]
                         [(2, 2)] [(1, 1); (2, 1)] [] 0 None 0 0 [],
                      [EventTriggered 70 (mkEvent 9 1) false;
                       BarrierTriggerMessage 1 9 1 0 0 0 [];
                       BarrierTriggerMessage 2 9 1 0 0 0 []]))
    by reflexivity.
  split; [exact E|].
  split; [exact (proj1 (H1 _ _ _ _ _ _ E))|].
  split; [reflexivity|]. split; [reflexivity|]. split; reflexivity.
Defined.
(** Waiters 71 and 72 wait on a subscriber for generations 2 and 3; the
    trigger message for the range from 2 to 3 overtakes the one for the
    range from 1 to 2. *)
Lemma out_of_order_triggers_without_payload_witness :
  let table := fun _ : Z => @None ReductionOp in
  let s := mk 9 0 1 3 0 (2 ^ 32 - 1) 2
              [(2, mkGeneration 0 [71] []); (3, mkGeneration 0 [72] [])]
              [] [] [] 0 None 0 0 [] in
  exists s1 s2 acts,
    handle_request table s (mkRequestArgs 0 9 3 2 0 0) [] = Some (s1, [])
    /\ generation s1 = 1
    /\ held_triggers s1 = [(2, 3)]
    /\ handle_request table s1 (mkRequestArgs 0 9 2 1 0 0) []
       = Some (s2, acts)
    /\ generation s2 = 3
    /\ woken acts = [(71, mkEvent 9 2, false); (72, mkEvent 9 2, false)]
    /\ generations s2 = [].
Proof.
  intros table s.
  destruct (BarrierImplFacts.out_of_order_triggers_without_payload
              table s 0 9 2 3 0 0 0 0)
    as (s1 & s2 & acts & H1 & H2 & _ & H3 & H4 & H5 & _ & H6 & H7).
  - discriminate.
  - reflexivity.
  - reflexivity.
  - exists s1, s2, acts.
    split; [exact H1|]. split; [exact H2|]. split; [exact H3|].
    split; [exact H4|]. split; [exact H5|].
    split; [exact H6 | exact H7].
Defined.

(** Two decrements wait at node 1; an increment stamped between them
    releases the first, and the bookkeeping of the node is in order again. *)
Lemma handle_adjustment_keeps_pernode_ok_witness :
  let g := mkGeneration 0 [61]
             [(1, mkPerNode (2 ^ 48 + 3)
                            [(2 ^ 48 + 5, -1); (2 ^ 48 + 9, -2)])] in
  pernode_ok (pernode_entry 0 g 1) = true
  /\ pernode_ok (pernode_entry 0 (handle_adjustment 48 0 g (2 ^ 48 + 7) 2) 1)
     = true.
Proof.
  intros g. split; [reflexivity|].
  apply (BarrierImplFacts.handle_adjustment_keeps_pernode_ok
           48 0 g (2 ^ 48 + 7) 2).
  - lia.
  - reflexivity.
Defined.
(** [int] arithmetic agrees with the integers modulo [2 ^ 32]. *)
Lemma u32_i32 (x y : Z) : u32 (i32 x + y) = u32 (x + y).
Proof.
  unfold u32, i32.
  pose proof (Z.div_mod (x + 2 ^ 31) (2 ^ 32) ltac:(lia)) as H.
  replace ((x + 2 ^ 31) mod 2 ^ 32 - 2 ^ 31 + y)
    with (x + y + (- ((x + 2 ^ 31) / 2 ^ 32)) * 2 ^ 32) by lia.
  apply Z_mod_plus_full.
Qed.

Lemma u32_congr (x y z : Z) : u32 x = u32 y -> u32 (x + z) = u32 (y + z).
Proof.
  unfold u32. intros H. rewrite (Z.add_mod x), (Z.add_mod y) by lia.
  now rewrite H.
Qed.

(** Sums over an ordered map after [m[k] = v]. *)
Lemma sum_insert {V : Type} (f : V -> Z) (k : Z) (v : V) (m : OMap.t V) :
  OMap.sorted m = true ->
  fold_right (fun e acc => f (snd e) + acc) 0 (OMap.insert k v m)
  = fold_right (fun e acc => f (snd e) + acc) 0 m
    - match OMap.find k m with Some x => f x | None => 0 end
    + f v.
Proof.
  induction m as [|[k' v'] rest IH]; simpl; [lia|].
  intros H. apply andb_true_iff in H. destruct H as [Hk Hs].
  destruct (k <? k') eqn:E1.
  - apply Z.ltb_lt in E1. simpl.
    assert (E2 : (k' =? k) = false) by (apply Z.eqb_neq; lia).
    rewrite E2.
    assert (Hnone : OMap.find k rest = None).
    { apply OMapFacts.find_none_above.
      eapply forallb_weaken; [|exact Hk]. intros x Hx. simpl in *.
      apply Z.ltb_lt in Hx. apply Z.ltb_lt. lia. }
    rewrite Hnone. lia.
  - destruct (k =? k') eqn:E2.
    + apply Z.eqb_eq in E2. subst k'. rewrite Z.eqb_refl. simpl. lia.
    + rewrite Z.eqb_sym, E2. simpl. rewrite IH by assumption. lia.
Qed.

Lemma sum_values_partition (ts : Z) (m : OMap.t Z) :
  sum_values m = sum_values (due ts m) + sum_values (not_due ts m).
Proof.
  unfold sum_values, due, not_due.
  induction m as [|[k v] m IH]; simpl; [reflexivity|].
  destruct (k <=? ts); simpl; lia.
Qed.

(** No adjustment is lost and none is counted twice.  Whatever
    [handle_adjustment] does with a delta (add it to the count, hold it back
    under its timestamp, or release held deltas together with it), the count
    plus everything held back for all nodes changes by exactly that delta,
    in the arithmetic of [int]. *)
Theorem handle_adjustment_accounts_for_delta
    (shift fresh : Z) (g : Generation) (ts delta : Z) :
  OMap.sorted (pernode g) = true ->
  OMap.sorted (pending (pernode_entry fresh g (node_of shift ts))) = true ->
  u32 (account (handle_adjustment shift fresh g ts delta))
  = u32 (account g + delta).
Proof.
  intros Hs Hp. unfold account, pending_total, handle_adjustment.
  set (node := node_of shift ts) in *.
  set (pn := pernode_entry fresh g node) in *.
  assert (Hold : match OMap.find node (pernode g) with
                 | Some x => sum_values (pending x)
                 | None => 0
                 end = sum_values (pending pn)).
  { unfold pn, pernode_entry.
    destruct (OMap.find node (pernode g)); reflexivity. }
  destruct (ts =? 0).
  - simpl. rewrite u32_i32. f_equal. lia.
  - destruct (delta >? 0).
    + rewrite BarrierImplFacts.apply_pending_sorted by assumption. simpl.
      rewrite (sum_insert (fun x => sum_values (pending x))) by assumption.
      rewrite Hold. simpl. rewrite u32_i32. f_equal.
      rewrite (sum_values_partition ts (pending pn)). lia.
    + destruct (ts <=? last_ts pn).
      * simpl.
        rewrite (sum_insert (fun x => sum_values (pending x))) by assumption.
        rewrite Hold, u32_i32. f_equal. lia.
      * simpl.
        rewrite (sum_insert (fun x => sum_values (pending x))) by assumption.
        rewrite Hold. simpl. unfold sum_values at 2.
        rewrite (sum_insert (fun x => x)) by assumption.
        fold (sum_values (pending pn)).
        set (old := match OMap.find ts (pending pn) with
                    | Some d => d
                    | None => 0
                    end).
        replace (match OMap.find ts (pending pn) with
                 | Some x => x
                 | None => 0
                 end) with old by reflexivity.
        replace (unguarded_delta g
                 + (fold_right
                      (fun e acc => sum_values (pending (snd e)) + acc) 0
                      (pernode g)
                    - sum_values (pending pn)
                    + (sum_values (pending pn) - old + i32 (old + delta))))
          with (i32 (old + delta)
                + (unguarded_delta g
                   + fold_right
                       (fun e acc => sum_values (pending (snd e)) + acc) 0
                       (pernode g)
                   - old)) by lia.
        rewrite u32_i32. f_equal. lia.
Qed.

(** A decrement that must wait, at a node that already holds one. *)
Lemma handle_adjustment_accounts_for_delta_witness :
  let g := mkGeneration (-4) [61]
             [(1, mkPerNode (2 ^ 48 + 3) [(2 ^ 48 + 5, -1)])] in
  account g = -5
  /\ account (handle_adjustment 48 0 g (2 ^ 48 + 9) (-2)) = -7
  /\ u32 (account (handle_adjustment 48 0 g (2 ^ 48 + 9) (-2)))
     = u32 (account g + -2).
Proof.
  intros g. split; [reflexivity|]. split; [reflexivity|].
  apply (handle_adjustment_accounts_for_delta 48 0 g (2 ^ 48 + 9) (-2));
    reflexivity.
Defined.
End BarrierProtocol.

(** ** Merging events: what comes back *)

Module MergeFacts.

(** What a query answers, read off the directory. *)
Lemma answer_eq (mynode : Z) (rt : Runtime) (e : Event) :
  answer mynode rt e
  = if id e =? 0 then (true, false)
    else match rt (id e) with
         | OfGenEvent g => GenEventImpl.has_triggered g (gen e)
         | OfBarrier b => (gen e <=? BarrierImpl.generation b, false)
         end.
Proof.
  unfold answer, Event_has_triggered_faultaware.
  destruct (id e =? 0); [reflexivity|].
  destruct (rt (id e)) as [g|b].
  - now destruct (GenEventImpl.has_triggered g (gen e)).
  - unfold BarrierImpl.has_triggered.
    destruct (gen e <=? BarrierImpl.generation b); [reflexivity|].
    destruct (negb (BarrierImpl.owner b =? mynode)); reflexivity.
Qed.

(** Queries do not change what queries answer. *)
Lemma answer_after_query (mynode : Z) (rt : Runtime) (e e' : Event)
    (p0 : bool) :
  answer mynode
         (snd (fst (Event_has_triggered_faultaware mynode rt e p0))) e'
  = answer mynode rt e'.
Proof.
  rewrite !answer_eq. destruct (id e' =? 0); [reflexivity|].
  unfold Event_has_triggered_faultaware.
  destruct (id e =? 0); [reflexivity|].
  destruct (rt (id e)) as [g|b] eqn:Ert.
  - destruct (GenEventImpl.has_triggered g (gen e)). reflexivity.
  - destruct (BarrierImpl.has_triggered mynode b (gen e))
      as [[[r p] b'] acts] eqn:Eb.
    simpl. unfold update. destruct (id e' =? id e) eqn:Eid; [|reflexivity].
    apply Z.eqb_eq in Eid. rewrite Eid, Ert.
    unfold BarrierImpl.has_triggered in Eb.
    destruct (gen e <=? BarrierImpl.generation b).
    { injection Eb as _ _ <- _. reflexivity. }
    destruct (negb (BarrierImpl.owner b =? mynode)).
    + injection Eb as _ _ <- _.
      destruct (BarrierImpl.gen_subscribed b <? gen e); reflexivity.
    + injection Eb as _ _ <- _. reflexivity.
Qed.

Lemma last_cons_indep {A : Type} (x : A) (l : list A) (d d' : A) :
  last (x :: l) d = last (x :: l) d'.
Proof.
  revert x. induction l as [|y l IH]; intros x; [reflexivity|].
  change (last (y :: l) d = last (y :: l) d'). apply IH.
Qed.

(** The scan of the six-argument [merge_events], for any number of
    events. *)
Lemma check_events_spec (mynode : Z) (evs : list Event) :
  forall (rt : Runtime) (wc : Z) (fw : Event),
  0 <= wc -> wc + Z.of_nat (length evs) < 2 ^ 31 ->
  let poisoned_now :=
    fun e => fst (answer mynode rt e) && snd (answer mynode rt e) in
  let waiting := filter (fun e => negb (fst (answer mynode rt e))) evs in
  let out := check_events mynode rt evs wc fw in
  (forall e, answer mynode (snd (fst out)) e = answer mynode rt e)
  /\ triggered_events (snd out) = []
  /\ registered (snd out) = []
  /\ fst (fst out)
     = match find poisoned_now evs with
       | Some e => Returned e
       | None => Counted (wc + Z.of_nat (length waiting)) (last waiting fw)
       end.
Proof.
  induction evs as [|ev rest IH]; intros rt wc fw Hwc Hlen; simpl.
  - split; [reflexivity|]. split; [reflexivity|]. split; [reflexivity|].
    now rewrite Z.add_0_r.
  - simpl length in Hlen.
    pose proof (fun e' => answer_after_query mynode rt ev e' false)
      as Hstable.
    pose proof (EventMergerFacts.query_is_quiet mynode rt ev false) as Hquiet.
    destruct (Event_has_triggered_faultaware mynode rt ev false)
      as [[[tr po] rt1] acts1] eqn:Eq.
    assert (Hans : answer mynode rt ev = (tr, po))
      by (unfold answer; now rewrite Eq).
    simpl in Hstable. destruct Hquiet as [Hq1 Hq2]. rewrite !Hans.
    simpl fst. simpl snd.
    assert (Hfind : find (fun e => fst (answer mynode rt1 e)
                                   && snd (answer mynode rt1 e)) rest
                    = find (fun e => fst (answer mynode rt e)
                                     && snd (answer mynode rt e)) rest).
    { clear -Hstable. induction rest as [|x l IHl]; simpl; [reflexivity|].
      now rewrite Hstable, IHl. }
    assert (Hfilter : filter (fun e => negb (fst (answer mynode rt1 e))) rest
                      = filter (fun e => negb (fst (answer mynode rt e)))
                               rest).
    { clear -Hstable. induction rest as [|x l IHl]; simpl; [reflexivity|].
      now rewrite Hstable, IHl. }
    destruct tr; simpl.
    + destruct po; simpl.
      * split; [exact Hstable|]. now repeat split.
      * specialize (IH rt1 wc fw Hwc ltac:(lia)). cbv zeta in IH.
        destruct (check_events mynode rt1 rest wc fw)
          as [[r rt2] acts2] eqn:Ec.
        simpl in IH. destruct IH as (I1 & I2 & I3 & I4). simpl.
        split; [intros e; now rewrite I1|].
        rewrite EventMergerFacts.triggered_events_app, EventMergerFacts.registered_app, Hq1, Hq2, I2, I3.
        split; [reflexivity|]. split; [reflexivity|].
        now rewrite I4, Hfind, Hfilter.
    + assert (Hi : i32 (wc + 1) = wc + 1) by (apply i32_id; lia).
      rewrite Hi.
      specialize (IH rt1 (wc + 1) ev ltac:(lia) ltac:(lia)). cbv zeta in IH.
      destruct (check_events mynode rt1 rest (wc + 1) ev)
        as [[r rt2] acts2] eqn:Ec.
      simpl in IH. destruct IH as (I1 & I2 & I3 & I4). simpl.
      split; [intros e; now rewrite I1|].
      rewrite EventMergerFacts.triggered_events_app, EventMergerFacts.registered_app, Hq1, Hq2, I2, I3.
      split; [reflexivity|]. split; [reflexivity|].
      rewrite I4, Hfind, Hfilter. cbv beta zeta.
      match goal with
      | |- context [find ?p rest] => destruct (find p rest)
      end; [reflexivity|]. f_equal.
      * rewrite Zpos_P_of_succ_nat. lia.
      * set (l := filter (fun e : Event => negb (fst (answer mynode rt e)))
                         rest).
        clearbody l. destruct l as [|x l]; [reflexivity|].
        apply last_cons_indep.
Qed.

(** What the six-argument [merge_events] returns.  The inputs are looked at
    from the sixth to the first.  If one of them has triggered with poison,
    the first such input is returned as it is.  Otherwise the result is
    [NO_EVENT] when every input has triggered, the one input that has not
    when there is exactly one, and a new event when there are more.  In the
    first three cases the call has only made queries: no event is
    triggered, no waiter is registered, and every event answers queries
    afterwards as before.  (In the fourth case the merger goes to work,
    which is the business of [add_event] and [arm].) *)
Theorem merge_events6_result
    (mynode : Z) (fresh : Event) (addr : Waiter) (ex : Event -> bool)
    (rt : Runtime) (ev1 ev2 ev3 ev4 ev5 ev6 : Event) :
  let evs := [ev6; ev5; ev4; ev3; ev2; ev1] in
  let poisoned_now :=
    fun e => fst (answer mynode rt e) && snd (answer mynode rt e) in
  let waiting := filter (fun e => negb (fst (answer mynode rt e))) evs in
  let out := merge_events6 mynode fresh addr ex rt ev1 ev2 ev3 ev4 ev5 ev6 in
  fst (fst out)
  = match find poisoned_now evs with
    | Some e => e
    | None => match waiting with
              | [] => NO_EVENT
              | [e] => e
              | _ => fresh
              end
    end
  /\ (find poisoned_now evs <> None \/ (length waiting <= 1)%nat ->
      triggered_events (snd out) = [] /\ registered (snd out) = []
      /\ forall e, answer mynode (snd (fst out)) e = answer mynode rt e).
Proof.
  intros evs poisoned_now waiting out. subst out. unfold merge_events6.
  set (adds := [ev1; ev2; ev3; ev4; ev5; ev6]). clearbody adds.
  pose proof (check_events_spec mynode evs rt 0 NO_EVENT
                ltac:(lia) ltac:(simpl; lia)) as H.
  cbv zeta in H. fold evs. fold poisoned_now in H. fold waiting in H.
  destruct (check_events mynode rt evs 0 NO_EVENT) as [[r rt1] acts1].
  cbn [fst snd] in H. destruct H as (Hst & Ht & Hr & Hres). subst r.
  destruct (find poisoned_now evs) as [e|].
  - cbn [fst snd]. split; [reflexivity|]. intros _.
    split; [exact Ht|]. split; [exact Hr | exact Hst].
  - rewrite Z.add_0_l.
    destruct waiting as [|w1 [|w2 rest]].
    + cbn. split; [reflexivity|]. intros _.
      split; [exact Ht|]. split; [exact Hr | exact Hst].
    + cbn. split; [reflexivity|]. intros _.
      split; [exact Ht|]. split; [exact Hr | exact Hst].
    + assert (E0 : (Z.of_nat (length (w1 :: w2 :: rest)) =? 0) = false)
        by (apply Z.eqb_neq; simpl length; lia).
      assert (E1 : (Z.of_nat (length (w1 :: w2 :: rest)) =? 1) = false)
        by (apply Z.eqb_neq; simpl length; lia).
      rewrite E0, E1.
      destruct (add_existing mynode ex rt1
                  (EventMerger.create addr fresh false) adds)
        as [[m2 rt2] acts2].
      destruct (EventMerger.arm m2) as [[m3 fl] acts3].
      cbn [fst snd] in *. split; [reflexivity|].
      intros [H|H]; [congruence | simpl in H; lia].
Qed.

(** The scan of [merge_events] when faults are ignored: no input is
    returned, and the count is zero exactly when nothing is waited for. *)
Lemma scan_events_ignoring (mynode : Z) (evs : list Event) :
  forall (rt : Runtime) (wc : Z) (fw : Event),
  0 <= wc ->
  let waiting := filter (fun e => negb (fst (answer mynode rt e))) evs in
  let out := scan_events mynode rt true evs wc fw in
  (forall e, answer mynode (snd (fst out)) e = answer mynode rt e)
  /\ triggered_events (snd out) = []
  /\ registered (snd out) = []
  /\ exists wc' fw',
       fst (fst out) = Counted wc' fw'
       /\ wc <= wc'
       /\ (wc' = 0 <-> wc = 0 /\ waiting = []).
Proof.
  induction evs as [|ev rest IH]; intros rt wc fw Hwc; simpl.
  - split; [reflexivity|]. split; [reflexivity|]. split; [reflexivity|].
    exists wc, fw. split; [reflexivity|]. split; [lia | tauto].
  - destruct (wc <? 2) eqn:Ew.
    + pose proof (fun e' => answer_after_query mynode rt ev e' false)
        as Hstable.
      pose proof (EventMergerFacts.query_is_quiet mynode rt ev false)
        as Hquiet.
      destruct (Event_has_triggered_faultaware mynode rt ev false)
        as [[[tr po] rt1] acts1] eqn:Eq.
      assert (Hans : answer mynode rt ev = (tr, po))
        by (unfold answer; now rewrite Eq).
      simpl in Hstable. destruct Hquiet as [Hq1 Hq2]. rewrite Hans.
      cbn [fst snd].
      assert (Hfilter : filter (fun e => negb (fst (answer mynode rt1 e)))
                               rest
                        = filter (fun e => negb (fst (answer mynode rt e)))
                                 rest).
      { clear -Hstable. induction rest as [|x l IHl]; simpl; [reflexivity|].
        now rewrite Hstable, IHl. }
      destruct tr; cbn [negb].
      * specialize (IH rt1 wc fw Hwc). cbv zeta in IH.
        destruct (scan_events mynode rt1 true rest wc fw)
          as [[r rt2] acts2].
        cbn [fst snd] in *.
        destruct IH as (I1 & I2 & I3 & wc' & fw' & I4 & I5 & I6).
        split; [intros e; now rewrite I1|].
        rewrite EventMergerFacts.triggered_events_app,
                EventMergerFacts.registered_app, Hq1, Hq2, I2, I3.
        split; [reflexivity|]. split; [reflexivity|].
        exists wc', fw'. split; [exact I4|]. split; [exact I5|].
        now rewrite <- Hfilter.
      * specialize (IH rt1 (wc + 1) (if wc =? 0 then ev else fw)
                       ltac:(lia)).
        cbv zeta in IH.
        destruct (scan_events mynode rt1 true rest (wc + 1)
                              (if wc =? 0 then ev else fw))
          as [[r rt2] acts2].
        cbn [fst snd] in *.
        destruct IH as (I1 & I2 & I3 & wc' & fw' & I4 & I5 & I6).
        split; [intros e; now rewrite I1|].
        rewrite EventMergerFacts.triggered_events_app,
                EventMergerFacts.registered_app, Hq1, Hq2, I2, I3.
        split; [reflexivity|]. split; [reflexivity|].
        exists wc', fw'. split; [exact I4|]. split; [lia|].
        split; [intros H0; lia | intros [_ H0]; discriminate].
    + cbn [fst snd]. split; [reflexivity|]. split; [reflexivity|].
      split; [reflexivity|]. apply Z.ltb_ge in Ew.
      exists wc, fw. split; [reflexivity|]. split; [lia|].
      split; [intros H0; lia | intros [H0 _]; lia].
Qed.

(** The merger registers with exactly the inputs that have not triggered,
    in their order. *)
Lemma add_events_registers (mynode : Z) (evs : list Event) :
  forall (rt : Runtime) (m : EventMerger.merger),
  let out := add_events mynode rt m evs in
  (forall e, answer mynode (snd (fst out)) e = answer mynode rt e)
  /\ registered (snd out)
     = map (fun e => (e, EventMerger.this m))
           (filter (fun e => negb (fst (answer mynode rt e))) evs)
  /\ (EventMerger.ignore_faults m = true -> triggered_events (snd out) = []).
Proof.
  induction evs as [|ev rest IH]; intros rt m; simpl.
  - split; [reflexivity|]. split; [reflexivity|]. reflexivity.
  - pose proof (fun e' => answer_after_query mynode rt ev e' false)
      as Hstable.
    pose proof (EventMergerFacts.query_is_quiet mynode rt ev false) as Hquiet.
    unfold EventMerger.add_event.
    destruct (Event_has_triggered_faultaware mynode rt ev false)
      as [[[tr po] rt1] acts1] eqn:Eq.
    assert (Hans : answer mynode rt ev = (tr, po))
      by (unfold answer; now rewrite Eq).
    simpl in Hstable. destruct Hquiet as [Hq1 Hq2]. rewrite Hans.
    cbn [fst snd].
    assert (Hfilter : filter (fun e => negb (fst (answer mynode rt1 e))) rest
                      = filter (fun e => negb (fst (answer mynode rt e)))
                               rest).
    { clear -Hstable. induction rest as [|x l IHl]; simpl; [reflexivity|].
      now rewrite Hstable, IHl. }
    destruct tr; cbn [negb].
    + match goal with
      | |- context [add_events mynode rt1 ?m1 rest] =>
          specialize (IH rt1 m1); cbv zeta in IH;
          destruct (add_events mynode rt1 m1 rest) as [[m2 rt2] acts2]
      end.
      cbn [fst snd EventMerger.this EventMerger.ignore_faults] in *.
      destruct IH as (I1 & I2 & I3).
      split; [intros e; now rewrite I1|].
      rewrite !EventMergerFacts.triggered_events_app,
              !EventMergerFacts.registered_app, Hq1, Hq2, I2, Hfilter.
      split.
      * destruct ((EventMerger.faults_observed m =? 0)
                  && negb (EventMerger.ignore_faults m)); reflexivity.
      * intros Hig. rewrite Hig, Bool.andb_false_r, (I3 Hig). reflexivity.
    + match goal with
      | |- context [add_events mynode rt1 ?m1 rest] =>
          specialize (IH rt1 m1); cbv zeta in IH;
          destruct (add_events mynode rt1 m1 rest) as [[m2 rt2] acts2]
      end.
      cbn [fst snd EventMerger.this EventMerger.ignore_faults] in *.
      destruct IH as (I1 & I2 & I3).
      split; [intros e; now rewrite I1|].
      rewrite !EventMergerFacts.triggered_events_app,
              !EventMergerFacts.registered_app, Hq1, Hq2, I2, Hfilter.
      split; [reflexivity|].
      intros Hig. now rewrite (I3 Hig).
Qed.

(** [merge_events] with [ignore_faults].  The result is [NO_EVENT] when
    every input has triggered and a new event otherwise; in the second case
    a merger is registered as a waiter with exactly the inputs that have
    not triggered, in their order.  Nothing is triggered yet, whatever has
    been counted as a fault, and every event answers queries as before. *)
Theorem merge_events_ignoring_faults
    (mynode : Z) (fresh : Event) (addr : Waiter) (rt : Runtime)
    (wait_for : list Event) :
  Z.of_nat (length wait_for) < 2 ^ 31 - 1 ->
  let waiting :=
    filter (fun e => negb (fst (answer mynode rt e))) wait_for in
  let out := merge_events mynode fresh addr rt wait_for true in
  fst (fst out) = match waiting with [] => NO_EVENT | _ :: _ => fresh end
  /\ (forall e, answer mynode (snd (fst out)) e = answer mynode rt e)
  /\ triggered_events (snd out) = []
  /\ registered (snd out) = map (fun e => (e, addr)) waiting.
Proof.
  intros Hlen waiting out. subst out waiting.
  destruct wait_for as [|x rest]; [cbn; now repeat split|].
  unfold merge_events.
  set (wait_for := x :: rest) in *. clearbody wait_for. clear x rest.
  set (waiting := filter (fun e => negb (fst (answer mynode rt e))) wait_for).
  pose proof (scan_events_ignoring mynode wait_for rt 0 NO_EVENT ltac:(lia))
    as H.
  cbv zeta in H. fold waiting in H.
  destruct (scan_events mynode rt true wait_for 0 NO_EVENT)
    as [[r rt1] acts1].
  cbn [fst snd] in H.
  destruct H as (Hst & Ht & Hr & wc & fw & -> & Hwc & Hzero).
  assert (Hfilter : filter (fun e => negb (fst (answer mynode rt1 e)))
                           wait_for = waiting).
  { unfold waiting. clear -Hst.
    induction wait_for as [|x l IHl]; simpl; [reflexivity|].
    now rewrite Hst, IHl. }
  destruct (wc =? 0) eqn:E0.
  - apply Z.eqb_eq in E0. destruct (proj1 Hzero E0) as [_ Hnil].
    rewrite Hnil. cbn [fst snd map]. now repeat split.
  - apply Z.eqb_neq in E0. rewrite Bool.andb_false_r.
    pose proof (add_events_registers mynode wait_for rt1
                  (EventMerger.create addr fresh true)) as Hadd.
    pose proof (EventMergerFacts.add_events_counters mynode wait_for rt1)
      as Hcount.
    cbv zeta in Hadd.
    destruct (add_events mynode rt1 (EventMerger.create addr fresh true)
                         wait_for) as [[m2 rt2] acts2] eqn:Eadd.
    specialize (Hcount rt2 (EventMerger.create addr fresh true) m2 acts2
                       Eadd).
    cbn [EventMerger.create EventMerger.faults_observed
         EventMerger.count_needed EventMerger.this
         EventMerger.ignore_faults] in Hcount, Hadd.
    destruct Hcount as (_ & Hig & Hc & _); try lia.
    cbn [fst snd] in Hadd. destruct Hadd as (A1 & A2 & A3).
    rewrite Hfilter in A2.
    assert (Hne : waiting <> []) by (intros Hn; apply E0, Hzero; split; [reflexivity | exact Hn]).
    unfold EventMerger.arm, EventMerger.event_triggered.
    cbn [fst snd andb].
    assert (E1 : (EventMerger.count_needed m2 =? 1) = false).
    { apply Z.eqb_neq. rewrite Hc, A2, length_map.
      destruct waiting; [congruence | simpl length; lia]. }
    rewrite E1. cbn [andb app].
    rewrite !EventMergerFacts.triggered_events_app,
            !EventMergerFacts.registered_app, Ht, Hr, A2, (A3 eq_refl).
    cbn [app triggered_events registered flat_map].
    rewrite app_nil_r.
    split; [destruct waiting; [congruence | reflexivity]|].
    split; [intros e; now rewrite A1|]. now split.
Qed.

(** Three inputs: event 7 has triggered, events 8 and 9 have not. *)
Lemma merge_events_ignoring_faults_witness :
  let out := merge_events 0 (mkEvent 50 1) 100 one_triggered
                          [mkEvent 7 1; mkEvent 8 1; mkEvent 9 1] true in
  fst (fst out) = mkEvent 50 1
  /\ triggered_events (snd out) = []
  /\ registered (snd out) = [(mkEvent 8 1, 100); (mkEvent 9 1, 100)].
Proof.
  intros out.
  destruct (merge_events_ignoring_faults
              0 (mkEvent 50 1) 100 one_triggered
              [mkEvent 7 1; mkEvent 8 1; mkEvent 9 1])
    as (H1 & _ & H3 & H4).
  - simpl. lia.
  - split; [exact H1|]. split; [exact H3 | exact H4].
Defined.
End MergeFacts.

(** ** The logger *)

Module LoggingFacts.

Import Ascii.
Import Logging.

Lemma at_end_cons (c : ascii) (p : cstring) :
  c <> NUL -> at_end (c :: p) = false.
Proof. intros H. unfold at_end. simpl. now apply Ascii.eqb_neq. Qed.

Lemma strncmp_eq_prefix (n p : cstring) :
  ~ In NUL n ->
  (strncmp_eq p n (length n) = true <-> exists rest, p = n ++ rest).
Proof.
  revert p. induction n as [|d n IH]; intros p Hnul;
    cbn [length strncmp_eq].
  - split; [intros _; now exists p | reflexivity].
  - assert (Hd : d <> NUL) by (intros ->; apply Hnul; now left).
    assert (Hn : ~ In NUL n) by (intros H; apply Hnul; now right).
    destruct p as [|c p]; cbn [deref tl].
    + assert (E : Ascii.eqb NUL d = false)
        by (apply Ascii.eqb_neq; congruence).
      rewrite E. split; [discriminate | intros [rest H]; discriminate].
    + destruct (Ascii.eqb_spec c d) as [->|Hne].
      * rewrite at_end_cons by assumption. rewrite (IH p Hn). split.
        -- intros [rest ->]. now exists rest.
        -- intros [rest [= ->]]. now exists rest.
      * split; [discriminate | intros [rest [= -> _]]; congruence].
Qed.

Lemma char_at_app (beyond : nat -> ascii) (n rest : cstring) :
  char_at beyond (n ++ rest) (length n)
  = match rest with
    | [] => NUL
    | c :: _ => c
    end.
Proof.
  unfold char_at. rewrite nth_error_app2 by lia. rewrite Nat.sub_diag.
  destruct rest as [|c rest]; simpl; [|reflexivity].
  now rewrite app_nil_r, Nat.eqb_refl.
Qed.

(** A name is in front of the first comma exactly when the string starts
    with it and goes on with a comma or ends. *)
Lemma take_name_is (n p : cstring) :
  ~ In comma n ->
  (take_name p = n
   <-> exists rest, p = n ++ rest
                    /\ match rest with
                       | [] => True
                       | c :: _ => c = comma
                       end).
Proof.
  revert p. induction n as [|d n IH]; intros p Hc.
  - destruct p as [|c p]; simpl.
    + split; [intros _; now exists [] | reflexivity].
    + destruct (Ascii.eqb_spec c comma) as [->|Hne].
      * split; [intros _; now exists (comma :: p) | reflexivity].
      * split; [discriminate|]. intros [rest [H Hr]]. simpl in H.
        subst rest. contradiction.
  - destruct p as [|c p]; simpl.
    + split; [discriminate | intros [rest [H _]]; discriminate].
    + destruct (Ascii.eqb_spec c comma) as [->|Hne].
      * split; [discriminate|]. intros [rest [[= <- _] _]].
        exfalso. apply Hc. now left.
      * assert (Hc' : ~ In comma n) by (intros H; apply Hc; now right).
        specialize (IH p Hc'). split.
        -- intros [= -> H]. apply IH in H. destruct H as [rest [-> Hr]].
           now exists rest.
        -- intros [rest [[= -> ->] Hr]]. f_equal. apply IH. now exists rest.
Qed.

(** On a string without NUL the first inner loop stops at the first comma
    only. *)
Lemma skip_to_comma_step (c : ascii) (p : cstring) :
  c <> NUL ->
  skip_to_comma (c :: p)
  = if Ascii.eqb c comma then c :: p else skip_to_comma p.
Proof.
  intros Hc. simpl.
  assert (E : Ascii.eqb c NUL = false) by now apply Ascii.eqb_neq.
  now rewrite E.
Qed.

Lemma split_commas_first (p : cstring) :
  Forall (fun c => c <> NUL) p ->
  split_commas p
  = take_name p :: match skip_to_comma p with
                   | [] => []
                   | _ :: q => split_commas q
                   end.
Proof.
  induction 1 as [|c p Hc Hp IH]; [reflexivity|].
  rewrite skip_to_comma_step by assumption. simpl.
  destruct (Ascii.eqb c comma); [reflexivity|]. now rewrite IH.
Qed.

Lemma skip_to_comma_head (p : cstring) :
  Forall (fun c => c <> NUL) p ->
  match skip_to_comma p with
  | [] => True
  | c :: _ => c = comma
  end.
Proof.
  induction 1 as [|c p Hc Hp IH]; [exact I|].
  rewrite skip_to_comma_step by assumption.
  destruct (Ascii.eqb_spec c comma) as [->|Hne]; [reflexivity | exact IH].
Qed.

Lemma skip_commas_names (n q : cstring) :
  n <> [] ->
  (In n (split_commas q) <-> In n (split_commas (skip_commas q))).
Proof.
  intros Hn. induction q as [|c q IH]; simpl; [reflexivity|].
  destruct (Ascii.eqb c comma) eqn:E; [|simpl; now rewrite E].
  rewrite <- IH. simpl. split; [intros [H|H]; congruence | auto].
Qed.

Lemma skip_shorter (p : cstring) :
  (length (skip_to_comma p) <= length p)%nat
  /\ (length (skip_commas p) <= length p)%nat.
Proof.
  induction p as [|c p [IH1 IH2]]; simpl; [lia|].
  destruct (Ascii.eqb c NUL || Ascii.eqb c comma);
    destruct (Ascii.eqb c comma); simpl; lia.
Qed.

Lemma next_name_shorter (c : ascii) (p : cstring) :
  c <> NUL ->
  (length (skip_commas (skip_to_comma (c :: p))) < length (c :: p))%nat.
Proof.
  intros Hc. rewrite skip_to_comma_step by assumption. simpl.
  destruct (Ascii.eqb c comma) eqn:E; simpl.
  - rewrite E. pose proof (skip_shorter p). lia.
  - pose proof (skip_shorter p) as [H1 _].
    pose proof (skip_shorter (skip_to_comma p)) as [_ H2]. lia.
Qed.

Lemma skip_keeps (P : ascii -> Prop) (p : cstring) :
  Forall P p -> Forall P (skip_commas (skip_to_comma p)).
Proof.
  intros H.
  assert (H1 : Forall P (skip_to_comma p)).
  { induction H as [|c q Hc Hq IH]; simpl; [constructor|].
    destruct (Ascii.eqb c NUL || Ascii.eqb c comma);
      [now constructor | exact IH]. }
  clear H. induction H1 as [|c q Hc Hq IH]; simpl; [constructor|].
  destruct (Ascii.eqb c comma); [exact IH | now constructor].
Qed.

(** The loop of [configure] finds a name exactly when the list names it,
    whatever lies behind the list in memory. *)
Lemma find_category_iff (beyond : nat -> ascii) (n : cstring) :
  n <> [] -> ~ In comma n -> ~ In NUL n ->
  forall (fuel : nat) (p : cstring),
  (length p < fuel)%nat -> Forall (fun c => c <> NUL) p ->
  (find_category beyond fuel p n = true <-> In n (split_commas p)).
Proof.
  intros Hn Hc Hz. induction fuel as [|fuel IH]; intros p Hlen Hnul; [lia|].
  destruct p as [|c p].
  - simpl. split; [discriminate|]. intros [H|[]]. congruence.
  - assert (Hcn : c <> NUL) by now inversion Hnul.
    cbn [find_category]. rewrite (at_end_cons c p Hcn).
    rewrite split_commas_first by assumption.
    set (test := (Ascii.eqb (char_at beyond (c :: p) (length n)) NUL
                  || Ascii.eqb (char_at beyond (c :: p) (length n)) comma)
                 && strncmp_eq (c :: p) n (length n)).
    assert (Htest : test = true <-> take_name (c :: p) = n).
    { unfold test. rewrite take_name_is by assumption.
      rewrite andb_true_iff, strncmp_eq_prefix by assumption. split.
      - intros [Hch [rest Hp]]. exists rest. split; [exact Hp|].
        rewrite Hp, char_at_app in Hch.
        destruct rest as [|r rest]; [exact I|].
        apply orb_true_iff in Hch. destruct Hch as [H|H].
        + apply Ascii.eqb_eq in H. rewrite Hp in Hnul.
          apply Forall_app in Hnul. destruct Hnul as [_ Hnul].
          inversion Hnul; subst. contradiction.
        + now apply Ascii.eqb_eq in H.
      - intros [rest [Hp Hr]]. split; [|now exists rest].
        rewrite Hp, char_at_app. destruct rest as [|r rest].
        + reflexivity.
        + subst r. apply orb_true_iff. right. apply Ascii.eqb_refl. }
    assert (Hrest : In n match skip_to_comma (c :: p) with
                         | [] => []
                         | _ :: q => split_commas q
                         end
                    <-> In n (split_commas
                                (skip_commas (skip_to_comma (c :: p))))).
    { pose proof (skip_to_comma_head (c :: p) Hnul) as Hh.
      destruct (skip_to_comma (c :: p)) as [|c0 q].
      - simpl. split; [contradiction | intros [H|[]]; congruence].
      - subst c0. cbn [skip_commas].
        assert (Ec : Ascii.eqb comma comma = true) by apply Ascii.eqb_refl.
        rewrite Ec. now apply skip_commas_names. }
    destruct test.
    + split; [intros _; left; now apply Htest | reflexivity].
    + rewrite IH.
      * rewrite <- Hrest. split; [now right|].
        intros [H|H]; [apply Htest in H; discriminate | exact H].
      * pose proof (next_name_shorter c p Hcn). lia.
      * now apply skip_keeps.
Qed.

(** [-cat] enables exactly the loggers it names.  The logger's name is not
    empty and has no comma and no NUL; the category list has no NUL.
    Before the command line is read, [configure] only remembers the
    logger.  Afterwards the configuration is left alone and the logger
    gets the global stream (not to be deleted, not flushed on every write)
    when the category list is empty or one of its comma-separated names is
    the logger's name, and nothing otherwise; the stream's level is the
    level set for the logger's name, or the default level if none was set.
    The bytes behind the category list, which the loop may look at, make no
    difference. *)
Theorem configure_enables_listed_categories
    (beyond : nat -> ascii) (cfg : LoggerConfig) (addr : Z) (lg : Logger) :
  name lg <> [] -> ~ In comma (name lg) -> ~ In NUL (name lg) ->
  Forall (fun c => c <> NUL) (cats_enabled cfg) ->
  let out := configure beyond cfg addr lg in
  let level := match find_level (name lg) (category_levels cfg) with
               | Some l => l
               | None => default_level cfg
               end in
  (cmdline_read cfg = false ->
   snd out = lg
   /\ In addr (pending_configs (fst out))
   /\ (forall a, In a (pending_configs cfg) ->
                 In a (pending_configs (fst out)))
   /\ cmdline_read (fst out) = false
   /\ cats_enabled (fst out) = cats_enabled cfg
   /\ category_levels (fst out) = category_levels cfg
   /\ default_level (fst out) = default_level cfg)
  /\ (cmdline_read cfg = true ->
      fst out = cfg
      /\ (cats_enabled cfg = []
          \/ In (name lg) (split_commas (cats_enabled cfg)) ->
          snd out = add_stream lg (stream cfg) level false false)
      /\ (cats_enabled cfg <> [] ->
          ~ In (name lg) (split_commas (cats_enabled cfg)) ->
          snd out = lg)).
Proof.
  intros Hn Hc Hz Hnul out level. subst out. unfold configure.
  split.
  - intros Hread. rewrite Hread. cbn [negb fst snd pending_configs
                                      cmdline_read cats_enabled
                                      category_levels default_level].
    split; [reflexivity|]. unfold insert_pending.
    destruct (existsb (fun x => x =? addr) (pending_configs cfg)) eqn:E.
    + split; [|now repeat split].
      apply existsb_exists in E. destruct E as [x [Hx Hxa]].
      apply Z.eqb_eq in Hxa. now subst.
    + split; [apply in_app_iff; right; now left|].
      split; [intros a Ha; apply in_app_iff; now left|]. now repeat split.
  - intros Hread. rewrite Hread. cbn [negb].
    destruct (cats_enabled cfg) as [|c cats] eqn:Ecats.
    + cbn [negb fst snd]. split; [reflexivity|].
      split; [reflexivity|]. intros H. congruence.
    + pose proof (find_category_iff beyond (name lg) Hn Hc Hz
                    (S (length (c :: cats))) (c :: cats)
                    ltac:(lia) Hnul) as Hiff.
      destruct (find_category beyond (S (length (c :: cats))) (c :: cats)
                              (name lg)) eqn:Ef.
      * cbn [negb fst snd]. split; [reflexivity|].
        split; [reflexivity|]. intros _ Hnot. exfalso. apply Hnot.
        now apply Hiff.
      * cbn [negb fst snd]. split; [reflexivity|].
        split; [|reflexivity]. intros [H|H]; [discriminate|].
        apply Hiff in H. discriminate.
Qed.

(** The command line gave [-cat barrier,dma] and [-level 3,dma=1]. *)
Lemma configure_enables_listed_categories_witness :
  let cats := ["b"; "a"; "r"; "r"; "i"; "e"; "r"; ","; "d"; "m"; "a"]%char in
  let cfg := mkLoggerConfig true 3 [(["d"; "m"; "a"]%char, 1)] cats [] 77 in
  let dma := mkLogger ["d"; "m"; "a"]%char 5 [] in
  let gpu := mkLogger ["g"; "p"; "u"]%char 5 [] in
  snd (configure (fun _ => "x"%char) cfg 1000 dma)
  = mkLogger ["d"; "m"; "a"]%char 1 [mkLogStream 77 1 false false]
  /\ snd (configure (fun _ => "x"%char) cfg 1001 gpu) = gpu.
Proof.
  intros cats cfg dma gpu. split.
  - destruct (configure_enables_listed_categories
                (fun _ => "x"%char) cfg 1000 dma) as [_ H].
    + discriminate.
    + intros [H|[H|[H|[]]]]; discriminate.
    + intros [H|[H|[H|[]]]]; discriminate.
    + repeat constructor; discriminate.
    + destruct (H eq_refl) as (_ & Hyes & _). rewrite Hyes.
      * reflexivity.
      * right. simpl. right. now left.
  - destruct (configure_enables_listed_categories
                (fun _ => "x"%char) cfg 1001 gpu) as [_ H].
    + discriminate.
    + intros [H|[H|[H|[]]]]; discriminate.
    + intros [H|[H|[H|[]]]]; discriminate.
    + repeat constructor; discriminate.
    + destruct (H eq_refl) as (_ & _ & Hno). apply Hno.
      * discriminate.
      * simpl. intros [H0|[H0|[]]]; discriminate.
Defined.
Lemma level_ok_add_stream (lg : Logger) (s m : Z) (d f : bool) :
  level_ok lg = true ->
  level_ok (add_stream lg s m d f) = true
  /\ log_level (add_stream lg s m d f) = Z.min (log_level lg) m.
Proof.
  unfold level_ok, add_stream. intros H. cbn [log_level streams].
  rewrite forallb_app. cbn [forallb min_level].
  destruct (log_level lg >? m) eqn:E.
  - apply Z.gtb_lt in E. split; [|lia].
    apply andb_true_iff. split.
    + rewrite forallb_forall in *. intros x Hx. specialize (H x Hx).
      cbn beta in *. apply Z.leb_le in H. apply Z.leb_le. lia.
    + now rewrite Z.leb_refl.
  - rewrite Z.gtb_ltb in E. apply Z.ltb_ge in E. split; [|lia].
    apply andb_true_iff. split; [exact H|].
    rewrite andb_true_r. now apply Z.leb_le.
Qed.

(** [log_level] never hides a message from a stream that wants it.  A new
    logger, configured or not, has a [log_level] that is at most the level
    of each of its streams; [add_stream] keeps it so, lowering [log_level]
    to the new stream's level when that is smaller; and therefore a message
    below [log_level] is written to no stream ([log_msg] writes nothing,
    or has no defined outcome because of its buffer). *)
Theorem log_level_is_a_lower_bound
    (format_prefix : Z -> cstring -> cstring) :
  (forall beyond LEVEL_NONE cfg addr n,
      level_ok (snd (Logger_new beyond LEVEL_NONE cfg addr n)) = true)
  /\ (forall lg, level_ok lg = true ->
        (forall s m d f,
            level_ok (add_stream lg s m d f) = true
            /\ log_level (add_stream lg s m d f) = Z.min (log_level lg) m)
        /\ (forall level msg,
              level < log_level lg ->
              log_msg format_prefix lg level msg = Some []
              \/ log_msg format_prefix lg level msg = None)).
Proof.
  split.
  - intros beyond LEVEL_NONE cfg addr n. unfold Logger_new, configure.
    destruct (negb (cmdline_read cfg)); [reflexivity|].
    match goal with
    | |- context [if negb ?c then _ else _] => destruct c
    end; cbn [negb snd]; [|reflexivity].
    apply level_ok_add_stream. reflexivity.
  - intros lg Hok. split; [intros s m d f; now apply level_ok_add_stream|].
    intros level msg Hlt. unfold log_msg.
    destruct (Nat.eqb (length msg) 0); [now left|].
    repeat match goal with
           | |- context [if ?c then _ else None] =>
               destruct c; [|now right]
           end.
    left. f_equal.
    unfold level_ok in Hok. rewrite forallb_forall in Hok.
    induction (streams lg) as [|it l IH]; [reflexivity|].
    cbn [flat_map].
    assert (E : (level <? min_level it) = true).
    { apply Z.ltb_lt. specialize (Hok it (or_introl eq_refl)).
      apply Z.leb_le in Hok. lia. }
    rewrite E. cbn [app]. apply IH. intros x Hx. apply Hok. now right.
Qed.

(** What [log_msg] writes.  For a message that is not empty, with a prefix
    of [len] characters: the call has a defined outcome exactly when the
    prefix leaves room ([len <= MAXLEN - 2]) and prefix and message
    together are not exactly [MAXLEN - 1] characters long (then the
    terminating NUL would go behind [buffer]).  When the whole prefix was
    stored, every stream whose level is at most the message's gets one
    write, in the order of the streams and followed by a flush where the
    stream asks for it, of the same text: the prefix, the message cut to
    [MAXLEN - 2 - len] characters, and a newline; that is never more than
    [MAXLEN - 1] characters, and the message is whole when it fits. *)
Theorem log_msg_fits_or_truncates
    (format_prefix : Z -> cstring -> cstring) (lg : Logger) (level : Z)
    (msg : cstring) :
  msg <> [] -> Z.of_nat (length msg) < 2 ^ 31 - MAXLEN ->
  let prefix := format_prefix level (name lg) in
  let len := Z.of_nat (length prefix) in
  let n := Z.of_nat (length msg) in
  let buffer :=
    prefix ++ firstn (Z.to_nat (MAXLEN - 2 - len)) msg ++ [newline] in
  (log_msg format_prefix lg level msg <> None
   <-> len <= MAXLEN - 2 /\ len + n <> MAXLEN - 1)
  /\ (len <= MAXLEN - 3 -> len + n <> MAXLEN - 1 ->
      log_msg format_prefix lg level msg
      = Some (flat_map
                (fun it =>
                   if level <? min_level it then []
                   else Write (ls_s it) buffer
                        :: (if flush_each_write it then [Flush (ls_s it)]
                            else []))
                (streams lg))
      /\ Z.of_nat (length buffer) <= MAXLEN - 1
      /\ (len + n <= MAXLEN - 2 -> buffer = prefix ++ msg ++ [newline])).
Proof.
  intros Hmsg Hn prefix len n buffer.
  assert (Hpos : 0 < n) by (destruct msg; [congruence | subst n; simpl length; lia]).
  assert (Hi : i32 n = n) by (apply i32_id; unfold MAXLEN in *; lia).
  assert (E0 : Nat.eqb (length msg) 0 = false)
    by (destruct msg; [congruence | reflexivity]).
  unfold log_msg. rewrite E0. fold prefix. fold len. fold n. rewrite Hi.
  unfold MAXLEN in *.
  split.
  - destruct (len + n <? 2 ^ 31) eqn:E1;
      [apply Z.ltb_lt in E1 | apply Z.ltb_ge in E1; split; [congruence | lia]].
    destruct (len + n >=? 4096) eqn:E2; rewrite Z.geb_leb in E2.
    + apply Z.leb_le in E2.
      destruct (0 <=? 4096 - 2 - len) eqn:E3.
      * apply Z.leb_le in E3.
        assert (E4 : (len + (4096 - 2 - len) + 1 <? 4096) = true)
          by (apply Z.ltb_lt; lia).
        rewrite E4. split; [intros _; lia | discriminate].
      * apply Z.leb_gt in E3. split; [congruence | lia].
    + apply Z.leb_gt in E2.
      assert (E3 : (0 <=? n) = true) by (apply Z.leb_le; lia).
      rewrite E3.
      destruct (len + n + 1 <? 4096) eqn:E4.
      * apply Z.ltb_lt in E4. split; [intros _; lia | discriminate].
      * apply Z.ltb_ge in E4. split; [congruence | lia].
  - intros Hlen Hne.
    assert (E1 : (len + n <? 2 ^ 31) = true) by (apply Z.ltb_lt; lia).
    assert (Es : (len <=? 4096 - 3) = true) by (apply Z.leb_le; lia).
    rewrite E1, Es.
    assert (Hbuf : Z.of_nat (length buffer) <= 4096 - 1).
    { unfold buffer. rewrite !length_app, length_firstn. simpl length.
      fold len. lia. }
    destruct (len + n >=? 4096) eqn:E2; rewrite Z.geb_leb in E2.
    + apply Z.leb_le in E2.
      assert (E3 : (0 <=? 4096 - 2 - len) = true) by (apply Z.leb_le; lia).
      assert (E4 : (len + (4096 - 2 - len) + 1 <? 4096) = true)
        by (apply Z.ltb_lt; lia).
      rewrite E3, E4. split; [reflexivity|]. split; [exact Hbuf | lia].
    + apply Z.leb_gt in E2.
      assert (E3 : (0 <=? n) = true) by (apply Z.leb_le; lia).
      assert (E4 : (len + n + 1 <? 4096) = true) by (apply Z.ltb_lt; lia).
      rewrite E3, E4.
      assert (Hwhole : firstn (Z.to_nat (4096 - 2 - len)) msg = msg)
        by (apply firstn_all2; lia).
      assert (Hwhole' : firstn (Z.to_nat n) msg = msg)
        by (apply firstn_all2; lia).
      unfold buffer. rewrite Hwhole, Hwhole'.
      split; [reflexivity|]. split; [|reflexivity].
      unfold buffer in Hbuf. now rewrite Hwhole in Hbuf.
Qed.

(** A logger with three streams and a prefix of 4090 characters: a message
    of ten characters is cut to four. *)
Lemma log_msg_fits_or_truncates_witness :
  let format_prefix := fun (_ : Z) (_ : cstring) => repeat "p"%char 4090 in
  let lg := mkLogger ["x"]%char 1
              [mkLogStream 11 1 false false; mkLogStream 12 3 false false;
               mkLogStream 13 2 false true] in
  let msg := ["0"; "1"; "2"; "3"; "4"; "5"; "6"; "7"; "8"; "9"]%char in
  let buffer := repeat "p"%char 4090
                ++ ["0"; "1"; "2"; "3"]%char ++ [newline] in
  log_msg format_prefix lg 2 msg
  = Some [Write 11 buffer; Write 13 buffer; Flush 13]
  /\ Z.of_nat (length buffer) = 4095.
Proof.
  intros format_prefix lg msg buffer.
  destruct (log_msg_fits_or_truncates format_prefix lg 2 msg)
    as [_ H].
  - discriminate.
  - unfold MAXLEN. simpl. lia.
  - cbv zeta in H. destruct H as (H1 & _ & _).
    + unfold format_prefix, MAXLEN. rewrite repeat_length. lia.
    + unfold format_prefix, MAXLEN. rewrite repeat_length. simpl length. lia.
    + split.
      * rewrite H1. unfold format_prefix, buffer, MAXLEN.
        rewrite repeat_length. reflexivity.
      * unfold buffer. rewrite !length_app, repeat_length. reflexivity.
Defined.
Lemma isdigit_comma : isdigit comma = false.
Proof. reflexivity. Qed.

Lemma isdigit_not_NUL (c : ascii) : isdigit c = true -> c <> NUL.
Proof. intros H ->. discriminate H. Qed.

Lemma read_digits_app (ds rest : cstring) (acc : Z) :
  Forall (fun c => isdigit c = true) ds ->
  match rest with
  | [] => True
  | c :: _ => isdigit c = false
  end ->
  read_digits (ds ++ rest) acc = (fst (read_digits ds acc), rest).
Proof.
  intros Hds Hrest. revert acc.
  induction Hds as [|c ds Hc _ IH]; intros acc;
    cbn [app read_digits fst].
  - destruct rest as [|c rest]; [reflexivity|].
    cbn [read_digits]. now rewrite Hrest.
  - rewrite Hc. apply IH.
Qed.

Lemma read_digits_nonneg (ds : cstring) (acc : Z) :
  0 <= acc -> 0 <= fst (read_digits ds acc).
Proof.
  revert acc. induction ds as [|c ds IH]; intros acc Hacc;
    cbn [read_digits fst]; [exact Hacc|].
  destruct (isdigit c); [|exact Hacc]. apply IH. lia.
Qed.

Lemma scan_name_app (n rest : cstring) :
  ~ In "="%char n -> ~ In NUL n ->
  scan_name (n ++ "="%char :: rest) = Some (n, rest).
Proof.
  induction n as [|c n IH]; intros Hn Hz; cbn [app scan_name].
  - now rewrite Ascii.eqb_refl.
  - assert (E1 : Ascii.eqb c "="%char = false)
      by (apply Ascii.eqb_neq; intros ->; apply Hn; now left).
    assert (E2 : Ascii.eqb c NUL = false)
      by (apply Ascii.eqb_neq; intros ->; apply Hz; now left).
    rewrite E1, E2, IH; [reflexivity | |].
    + intros H. apply Hn. now right.
    + intros H. apply Hz. now right.
Qed.

Lemma tail_not_digit (tail : cstring) :
  tail_ok tail ->
  match tail with
  | [] => True
  | c :: _ => isdigit c = false
  end.
Proof. destruct tail as [|c tail]; [auto|]. simpl. now intros ->. Qed.

Lemma tail_cond (tail : cstring) :
  tail_ok tail ->
  at_end tail || Ascii.eqb (deref tail) comma = true.
Proof.
  destruct tail as [|c tail]; [reflexivity|]. simpl. intros ->.
  apply orb_true_iff. right. apply Ascii.eqb_refl.
Qed.

(** One iteration of the loop on a well-shaped setting. *)
Lemma parse_step (L LMAX ER : Z) (fuel : nat) (errno dflt : Z)
    (levels : list (cstring * Z)) (s : cstring * cstring) (tail : cstring) :
  setting_shape s -> tail_ok tail ->
  L <= LMAX -> setting_level s <= L \/ ER <> 0 ->
  parse_level_argument L LMAX ER (S fuel) errno dflt levels
                       (render_setting s ++ tail)
  = if errno =? 0 then
      if setting_level s <=? L
      then parse_level_argument L LMAX ER fuel 0
             (fst (apply_setting (dflt, levels) s))
             (snd (apply_setting (dflt, levels) s)) tail
      else Some (false, dflt, levels,
                 if setting_level s >? LMAX then ER else 0)
    else None.
Proof.
  destruct s as [n ds]. unfold setting_shape, setting_level, render_setting,
                          apply_setting.
  cbn [fst snd]. intros (Hname & Hne & Hds) Htail HL Hcase.
  destruct ds as [|d ds]; [congruence|].
  assert (Hd : isdigit d = true) by now inversion Hds.
  assert (Hdc : Ascii.eqb d comma = false).
  { apply Ascii.eqb_neq. intros ->. rewrite isdigit_comma in Hd.
    discriminate. }
  assert (Hdz : at_end (d :: ds ++ tail) = false)
    by (apply at_end_cons; now apply isdigit_not_NUL).
  pose proof (read_digits_app (d :: ds) tail 0 Hds (tail_not_digit _ Htail))
    as Hread.
  pose proof (read_digits_nonneg (d :: ds) 0 ltac:(lia)) as Hnn.
  set (v := fst (read_digits (d :: ds) 0)) in *.
  cbn [app] in Hread.
  (* the level and what follows it *)
  assert (Hlevel :
            forall (catname : cstring),
            (if errno =? 0 then
               let '(v0, p2, errno') := strtol LMAX ER (d :: ds ++ tail)
                                               errno in
               if (errno' =? 0)
                  && (at_end p2 || Ascii.eqb (deref p2) comma)
                  && (0 <=? v0) && (v0 <=? L)
               then
                 match catname with
                 | [] => parse_level_argument L LMAX ER fuel errno' v0
                                              levels p2
                 | _ :: _ =>
                     parse_level_argument L LMAX ER fuel errno' dflt
                       (set_level catname v0 levels) p2
                 end
               else Some (false, dflt, levels, errno')
             else None)
            = if errno =? 0 then
                if v <=? L
                then match catname with
                     | [] => parse_level_argument L LMAX ER fuel 0 v levels
                                                  tail
                     | _ :: _ =>
                         parse_level_argument L LMAX ER fuel 0 dflt
                           (set_level catname v levels) tail
                     end
                else Some (false, dflt, levels, if v >? LMAX then ER else 0)
              else None).
  { intros catname. destruct (errno =? 0) eqn:Ee; [|reflexivity].
    apply Z.eqb_eq in Ee. subst errno.
    unfold strtol. rewrite Hread.
    destruct (v >? LMAX) eqn:Eo.
    - apply Z.gtb_lt in Eo.
      assert (Ev : (v <=? L) = false) by (apply Z.leb_gt; lia).
      rewrite Ev.
      destruct Hcase as [Hle|Her]; [fold v in Hle; lia|].
      assert (Er : (ER =? 0) = false) by now apply Z.eqb_neq.
      now rewrite Er.
    - rewrite (tail_cond _ Htail).
      assert (E0 : (0 <=? v) = true) by now apply Z.leb_le.
      rewrite E0. cbn [Z.eqb andb].
      destruct (v <=? L); reflexivity. }
  destruct n as [|c n].
  - cbn [parse_level_argument app skip_commas]. rewrite Hdc, Hdz.
    cbn [deref]. rewrite Hd. cbn [negb deref fst snd]. rewrite Hd.
    exact (Hlevel []).
  - destruct Hname as (Hc & Hcc & Heq & Hz).
    assert (Ecc : Ascii.eqb c comma = false) by now apply Ascii.eqb_neq.
    assert (Hcz : c <> NUL) by (intros ->; apply Hz; now left).
    assert (Htxt : ((c :: n) ++ ["="%char] ++ d :: ds) ++ tail
                   = c :: n ++ "="%char :: d :: ds ++ tail)
      by (rewrite <- app_assoc; reflexivity).
    assert (Hscan : scan_name (c :: n ++ "="%char :: d :: ds ++ tail)
                    = Some (c :: n, d :: ds ++ tail))
      by exact (scan_name_app (c :: n) (d :: ds ++ tail) Heq Hz).
    rewrite Htxt. cbn [parse_level_argument skip_commas].
    rewrite Ecc, (at_end_cons c _ Hcz). cbn [deref]. rewrite Hc.
    cbn [negb]. rewrite Hscan. cbn [deref fst snd]. rewrite Hd.
    exact (Hlevel (c :: n)).
Qed.

Lemma render_settings_cons (s : cstring * cstring)
    (rest : list (cstring * cstring)) :
  render_settings (s :: rest)
  = render_setting s ++ match rest with
                        | [] => []
                        | _ :: _ => comma :: render_settings rest
                        end.
Proof.
  destruct rest as [|s2 rest]; [|reflexivity].
  cbn [render_settings]. now rewrite app_nil_r.
Qed.

Lemma parse_after_comma (L LMAX ER : Z) (fuel : nat) (errno dflt : Z)
    (levels : list (cstring * Z)) (rest : list (cstring * cstring)) :
  parse_level_argument L LMAX ER fuel errno dflt levels
    match rest with
    | [] => []
    | _ :: _ => comma :: render_settings rest
    end
  = parse_level_argument L LMAX ER fuel errno dflt levels
                         (render_settings rest).
Proof.
  destruct rest as [|s rest]; [reflexivity|].
  destruct fuel as [|fuel]; [reflexivity|].
  cbn [parse_level_argument skip_commas].
  now rewrite Ascii.eqb_refl.
Qed.

Lemma tail_ok_rest (rest : list (cstring * cstring)) :
  tail_ok match rest with
          | [] => []
          | _ :: _ => comma :: render_settings rest
          end.
Proof. destruct rest; reflexivity. Qed.

(** [-level] reads its settings from left to right.  [errno] is 0 when the
    parser is entered, as it asserts before it converts a number, and
    [LEVEL_NONE] fits a [long].  For settings of the accepted shape,
    separated by commas, each with a level of at most [LEVEL_NONE], the
    parser returns [true], leaves [errno] at 0 and leaves in
    [default_level] and [category_levels] what the settings say, a later
    setting of the same name or of the default overriding an earlier one.
    If such a list is followed by a well-shaped setting whose level is
    beyond [LEVEL_NONE], the parser returns [false], and the settings in
    front of it have been applied all the same; [errno] is [ERANGE] (which
    is not 0) when the number did not fit a [long].  With [errno] not 0 on
    entry the assertion fails at the first setting. *)
Theorem parse_level_argument_reads_settings
    (LEVEL_NONE LONG_MAX ERANGE : Z) (good : list (cstring * cstring)) :
  LEVEL_NONE <= LONG_MAX ->
  Forall setting_shape good ->
  Forall (fun s => setting_level s <= LEVEL_NONE) good ->
  forall (dflt : Z) (levels : list (cstring * Z)),
  let final := fold_left apply_setting good (dflt, levels) in
  (forall fuel, (length good < fuel)%nat ->
     parse_level_argument LEVEL_NONE LONG_MAX ERANGE fuel 0 dflt levels
                          (render_settings good)
     = Some (true, fst final, snd final, 0))
  /\ (forall bad fuel,
        ERANGE <> 0 ->
        setting_shape bad -> LEVEL_NONE < setting_level bad ->
        (length good < fuel)%nat ->
        parse_level_argument LEVEL_NONE LONG_MAX ERANGE fuel 0 dflt levels
                             (render_settings (good ++ [bad]))
        = Some (false, fst final, snd final,
                if setting_level bad >? LONG_MAX then ERANGE else 0))
  /\ (forall errno fuel,
        errno <> 0 -> good <> [] -> (0 < fuel)%nat ->
        parse_level_argument LEVEL_NONE LONG_MAX ERANGE fuel errno dflt
                             levels (render_settings good)
        = None).
Proof.
  intros HL Hshape Hlevel.
  induction good as [|s rest IH]; intros dflt levels final; subst final.
  - cbn [fold_left fst snd app length]. split; [|split].
    + intros fuel Hf. destruct fuel as [|fuel]; [lia | reflexivity].
    + intros bad fuel Her Hb Hbig Hf. destruct fuel as [|fuel]; [lia|].
      replace (render_settings [bad]) with (render_setting bad ++ [])
        by (cbn [render_settings]; apply app_nil_r).
      rewrite parse_step; try assumption; [|exact I | now right].
      apply Z.leb_gt in Hbig. now rewrite Hbig.
    + intros errno fuel _ Hne. congruence.
  - inversion Hshape as [|? ? Hs Hrest]; subst.
    inversion Hlevel as [|? ? Hl Hlrest]; subst.
    specialize (IH Hrest Hlrest).
    pose proof Hl as Hl'. apply Z.leb_le in Hl.
    cbn [fold_left length].
    set (st := apply_setting (dflt, levels) s).
    specialize (IH (fst st) (snd st)). cbv zeta in IH.
    replace (fst st, snd st) with st in IH by now destruct st.
    destruct IH as (IH1 & IH2 & _). split; [|split].
    + intros fuel Hf. destruct fuel as [|fuel]; [lia|].
      rewrite render_settings_cons, parse_step;
        try assumption; [|apply tail_ok_rest | now left].
      cbn [Z.eqb]. rewrite Hl. fold st. rewrite parse_after_comma.
      apply IH1. lia.
    + intros bad fuel Her Hb Hbig Hf. destruct fuel as [|fuel]; [lia|].
      change ((s :: rest) ++ [bad]) with (s :: (rest ++ [bad])).
      rewrite render_settings_cons, parse_step;
        try assumption; [|apply tail_ok_rest | now left].
      cbn [Z.eqb]. rewrite Hl. fold st. rewrite parse_after_comma.
      apply IH2; [assumption | assumption | assumption | lia].
    + intros errno fuel Herr _ Hf. destruct fuel as [|fuel]; [lia|].
      rewrite render_settings_cons, parse_step;
        try assumption; [|apply tail_ok_rest | now left].
      apply Z.eqb_neq in Herr. now rewrite Herr.
Qed.

(** [-level 2,dma=1,3] sets the default to 2 and then to 3 and the level
    of [dma] to 1; [-level 2,dma=7] fails when 5 is the last level, with
    the default set to 2; and with an [errno] left over from elsewhere the
    first number is never converted. *)
Lemma parse_level_argument_reads_settings_witness :
  let dma := ["d"; "m"; "a"]%char in
  let good := [([], ["2"]%char); (dma, ["1"]%char); ([], ["3"]%char)] in
  parse_level_argument 5 (2 ^ 63 - 1) 34 4 0 0 []
    ["2"; ","; "d"; "m"; "a"; "="; "1"; ","; "3"]%char
  = Some (true, 3, [(dma, 1)], 0)
  /\ parse_level_argument 5 (2 ^ 63 - 1) 34 4 0 0 []
       ["2"; ","; "d"; "m"; "a"; "="; "7"]%char
     = Some (false, 2, [], 0)
  /\ parse_level_argument 5 (2 ^ 63 - 1) 34 4 2 0 []
       ["2"; ","; "d"; "m"; "a"; "="; "1"; ","; "3"]%char
     = None.
Proof.
  intros dma good.
  assert (Hshape : forall n ds, (n = [] \/ n = dma) ->
                                (ds = ["1"]%char \/ ds = ["2"]%char
                                 \/ ds = ["3"]%char \/ ds = ["7"]%char) ->
                                setting_shape (n, ds)).
  { intros n ds Hn Hds. split.
    - destruct Hn as [->| ->]; [exact I|]. cbn.
      split; [reflexivity|]. split; [discriminate|].
      split; intros [H|[H|[H|[]]]]; discriminate.
    - destruct Hds as [->|[->|[->| ->]]]; cbn;
        (split; [discriminate | repeat constructor]). }
  assert (Hfit : 5 <= 2 ^ 63 - 1) by lia.
  split; [|split].
  - destruct (parse_level_argument_reads_settings 5 (2 ^ 63 - 1) 34 good)
      with (dflt := 0) (levels := @nil (cstring * Z)) as (H & _ & _).
    + exact Hfit.
    + repeat (apply Forall_cons; [apply Hshape; auto|]). apply Forall_nil.
    + repeat (apply Forall_cons; [vm_compute; discriminate|]).
      apply Forall_nil.
    + exact (H 4%nat ltac:(cbn; lia)).
  - destruct (parse_level_argument_reads_settings 5 (2 ^ 63 - 1) 34
                [([], ["2"]%char)])
      with (dflt := 0) (levels := @nil (cstring * Z)) as (_ & H & _).
    + exact Hfit.
    + repeat (apply Forall_cons; [apply Hshape; auto|]). apply Forall_nil.
    + repeat (apply Forall_cons; [vm_compute; discriminate|]).
      apply Forall_nil.
    + exact (H (dma, ["7"]%char) 4%nat ltac:(discriminate)
               ltac:(apply Hshape; auto)
               ltac:(vm_compute; reflexivity) ltac:(cbn; lia)).
  - destruct (parse_level_argument_reads_settings 5 (2 ^ 63 - 1) 34 good)
      with (dflt := 0) (levels := @nil (cstring * Z)) as (_ & _ & H).
    + exact Hfit.
    + repeat (apply Forall_cons; [apply Hshape; auto|]). apply Forall_nil.
    + repeat (apply Forall_cons; [vm_compute; discriminate|]).
      apply Forall_nil.
    + exact (H 2 4%nat ltac:(discriminate) ltac:(discriminate)
               ltac:(lia)).
Defined.
End LoggingFacts.
